(** * Bingo Snap: board state, win lines, photos and share links

    A shallow embedding of the logic of the photo-bingo application:
    [types.ts], [App.tsx], [components/BingoBoard.tsx],
    [components/CreateGame.tsx] and [services/geminiService.ts].

    Conventions.  A JavaScript [number] that holds an index, a size, a
    count or a [Date.now()] reading is a [Z].  An optional property
    ([photos?], [completedAt?], [theme?]) is an [option]; [None] is both
    "absent" and [undefined], which the code never tells apart.  A [Map]
    is a [gmap], a [Set] a [gset].  The pixel sizes that [compressImage]
    computes are doubles: [spec_float] at 53 bits of precision. *)

From stdpp Require Import gmap strings list pretty.
From Stdlib Require Import Floats.SpecFloat.
From Stdlib Require Reals Lra.

Local Open Scope string_scope.
Local Open Scope Z_scope.

(** ** Data model ([types.ts]) *)

Module Cell.
Record BingoCell := mk {
  id : string;
  text : string;
  photos : option (list string);
  completedAt : option Z
}.
End Cell.
Abbreviation BingoCell := Cell.BingoCell.

Module Game.
Record BingoGame := mk {
  id : string;
  title : string;
  size : Z;
  cells : list BingoCell;
  createdAt : Z;
  theme : option string
}.
End Game.
Abbreviation BingoGame := Game.BingoGame.

Module Params.
Record CreateGameParams := mk {
  title : string;
  size : Z;
  topic : option string;
  customItems : option (list string)
}.
End Params.
Abbreviation CreateGameParams := Params.CreateGameParams.

(** ** JavaScript array helpers *)

Module JS.

(** Truthiness of a string: only the empty string is falsy. *)
Definition truthy (s : string) : bool :=
  match s with EmptyString => false | _ => true end.

(** [Array.from({ length: n }, (_, i) => f i)]: a negative length counts
    as zero. *)
Definition arrayFrom {A} (n : Z) (f : Z → A) : list A := f <$> seqZ 0 n.

(** The start position [splice] and [slice] derive from a relative
    index: a negative index counts from the end, and the result is
    clamped to [0, len]. *)
Definition relIndex (len : nat) (i : Z) : nat :=
  Z.to_nat (if bool_decide (i < 0) then Z.max (Z.of_nat len + i) 0
            else Z.min i (Z.of_nat len)).

(** [arr.splice(i, 1)], as the array it leaves behind. *)
Definition splice1 {A} (i : Z) (arr : list A) : list A :=
  delete (relIndex (length arr) i) arr.

(** [arr.slice(0, n)]. *)
Definition slice0 {A} (n : Z) (arr : list A) : list A :=
  take (relIndex (length arr) n) arr.

(** [String(n)] for an integer [n], and the string of a template
    literal hole [${n}]. *)
Definition toString (n : Z) : string := pretty n.

End JS.

(** ** Win-Line Evaluator ([BingoBoard.tsx], the [useMemo] block) *)

(** [c.photos && c.photos.length > 0] *)
Definition hasPhotos (c : BingoCell) : bool :=
  match Cell.photos c with
  | Some (_ :: _) => true
  | _ => false
  end.

(** [game.cells.map((c, i) => ... ? i : -1).filter(i => i !== -1)],
    collected in a [Set]. *)
Definition completedList (cs : list BingoCell) : list Z :=
  filter (λ i, i ≠ -1)
         (imap (λ i c, if hasPhotos c then Z.of_nat i else -1) cs).

Definition completedIndices (cs : list BingoCell) : gset Z :=
  list_to_set (completedList cs).

(** [const isFull = game.cells.length > 0 &&
                    completedIndices.size === game.cells.length] *)
Definition isFull (cs : list BingoCell) : bool :=
  bool_decide (0 < length cs)%nat
  && bool_decide (size (completedIndices cs) = length cs).

(** One visit of the [forEach] inside [checkLine]. *)
Definition tagIndex (type : string) (status : gmap Z (list string)) (i : Z)
  : gmap Z (list string) :=
  let current := default [] (status !! i) in
  let current := if bool_decide (type ∈ current) then current
                 else (current ++ [type])%list in
  <[i := current]> status.

(** [checkLine(indices, type)]: the status map it leaves and its result. *)
Definition checkLine (completed : gset Z) (indices : list Z) (type : string)
    (status : gmap Z (list string)) : gmap Z (list string) * bool :=
  if forallb (λ i, bool_decide (i ∈ completed)) indices
  then (foldl (tagIndex type) status indices, true)
  else (status, false).

Definition rowIndices (n r : Z) : list Z := JS.arrayFrom n (λ c, r * n + c).
Definition colIndices (n c : Z) : list Z := JS.arrayFrom n (λ r, r * n + c).
Definition d1 (n : Z) : list Z := JS.arrayFrom n (λ i, i * n + i).
Definition d2 (n : Z) : list Z := JS.arrayFrom n (λ i, (i + 1) * n - (i + 1)).

(** The status map after the two loops and the two diagonals, from the
    set of completed indices. *)
Definition linesOf (n : Z) (completed : gset Z) : gmap Z (list string) :=
  let status := ∅ in
  let status :=
    foldl (λ st r, (checkLine completed (rowIndices n r) "row" st).1)
          status (seqZ 0 n) in
  let status :=
    foldl (λ st c, (checkLine completed (colIndices n c) "col" st).1)
          status (seqZ 0 n) in
  let status := (checkLine completed (d1 n) "diag" status).1 in
  let status := (checkLine completed (d2 n) "diag" status).1 in
  status.

Definition winStatus (game : BingoGame) : gmap Z (list string) :=
  linesOf (Game.size game) (completedIndices (Game.cells game)).

Definition isFullHouse (game : BingoGame) : bool := isFull (Game.cells game).

(** [winStatus.get(index) || []] *)
Definition winsAt (game : BingoGame) (index : Z) : list string :=
  default [] (winStatus game !! index).

(** The completion bitmap of a board, cell by cell in row-major order,
    and the bitmap of an [n]×[n] grid that marks exactly the indices of
    [line]. *)
Definition completionBitmap (game : BingoGame) : list bool :=
  hasPhotos <$> Game.cells game.

Definition bitmapOf (n : Z) (line : list Z) : list bool :=
  (λ k, bool_decide (k ∈ line)) <$> seqZ 0 (n * n).

(** Positions of the [true] entries of a bitmap, counted from [k]. *)
Fixpoint trueFrom (k : nat) (bs : list bool) : list nat :=
  match bs with
  | [] => []
  | b :: bs => if b then k :: trueFrom (S k) bs else trueFrom (S k) bs
  end.

(** ** Board view: photos ([BingoBoard.tsx]) *)

(** What the board component holds: the [game] prop, which the parent
    replaces when [onUpdateGame] is called, and the [showConfetti] flag. *)
Record BoardView := mkView {
  game : BingoGame;
  showConfetti : bool
}.

(** [updateGameState(newCells, triggerConfetti)].  The timer that lowers
    the flag five seconds later is outside the model. *)
Definition updateGameState (v : BoardView) (newCells : list BingoCell)
    (triggerConfetti : bool) : BoardView :=
  let g := game v in
  let newGame :=
    Game.mk (Game.id g) (Game.title g) (Game.size g) newCells
            (Game.createdAt g) (Game.theme g) in
  mkView newGame (if triggerConfetti then true else showConfetti v).

(** The object [addPhoto] returns for a cell whose id matches. *)
Definition addPhotoCell (photoUrl : string) (now : Z) (c : BingoCell)
  : BingoCell :=
  let currentPhotos := default [] (Cell.photos c) in
  Cell.mk (Cell.id c) (Cell.text c)
          (Some (currentPhotos ++ [photoUrl])%list) (Some now).

(** [addPhoto(cellId, photoUrl)].  [now i] is the reading of [Date.now()]
    taken when the [map] visits the cell at index [i]. *)
Definition addPhoto (v : BoardView) (cellId photoUrl : string)
    (now : nat → Z) : BoardView :=
  let newCells :=
    imap (λ i c, if bool_decide (Cell.id c = cellId)
                 then addPhotoCell photoUrl (now i) c else c)
         (Game.cells (game v)) in
  updateGameState v newCells true.

(** The object [removePhoto] returns for a cell whose id matches and whose
    [photos] is an array (an empty array is truthy). *)
Definition removePhotoCell (photoIndex : Z) (c : BingoCell) : BingoCell :=
  match Cell.photos c with
  | Some ps =>
      let newPhotos := JS.splice1 photoIndex ps in
      Cell.mk (Cell.id c) (Cell.text c) (Some newPhotos)
              (if bool_decide (0 < length newPhotos)%nat
               then Cell.completedAt c else None)
  | None => c
  end.

(** [removePhoto(cellId, photoIndex)] *)
Definition removePhoto (v : BoardView) (cellId : string) (photoIndex : Z)
  : BoardView :=
  let newCells :=
    (λ c, if bool_decide (Cell.id c = cellId)
          then removePhotoCell photoIndex c else c) <$> Game.cells (game v) in
  updateGameState v newCells false.

(** A run of attachments to one cell, each with its photo and its clock,
    and a run of removals from one cell. *)
Definition addPhotos (v : BoardView) (cellId : string)
    (shots : list (string * (nat → Z))) : BoardView :=
  foldl (λ v shot, addPhoto v cellId shot.1 shot.2) v shots.

Definition removePhotos (v : BoardView) (cellId : string)
    (photoIndices : list Z) : BoardView :=
  foldl (λ v i, removePhoto v cellId i) v photoIndices.

(** [validRemovals n is]: the indices [is] empty a list of [n] photos one
    by one, each a valid position in the list as it stands then. *)
Fixpoint validRemovals (n : nat) (photoIndices : list Z) : Prop :=
  match photoIndices with
  | [] => n = 0%nat
  | i :: rest => 0 ≤ i < Z.of_nat n ∧ validRemovals (Nat.pred n) rest
  end.

(** The invariant of the data model on [completedAt]: a cell without a
    photo has no completion time. *)
Definition completedAtCleared (c : BingoCell) : Prop :=
  hasPhotos c = false → Cell.completedAt c = None.

(** ** Platform functions

    [JSON.stringify], [JSON.parse], [encodeURIComponent],
    [decodeURIComponent], [btoa] and [atob] belong to the browser, not to
    the repository.  They are an interface here.  A function that can
    throw returns an [option]; [None] stands for the exception.
    [JSON.parse] yields an untyped value that the callers use at a type
    without checking it: [JSON_parse] is that call read as a board (the
    import of a share link), [JSON_parse_strings] as a list of strings
    (the answer of the suggestion provider). *)
Class Platform := {
  JSON_stringify : BingoGame → string;
  JSON_parse : string → option BingoGame;
  JSON_parse_strings : string → option (list string);
  encodeURIComponent : string → option string;
  decodeURIComponent : string → option string;
  btoa : string → option string;
  atob : string → option string
}.

(** What the share link relies on: a board survives [JSON.stringify] then
    [JSON.parse]; the JSON text of a board can be percent-encoded, and
    percent-encoded text can be base64-encoded; decoding undoes
    encoding. *)
Class PlatformLaws (P : Platform) : Prop := {
  JSON_parse_stringify : ∀ g, JSON_parse (JSON_stringify g) = Some g;
  encodeURIComponent_JSON : ∀ g, is_Some (encodeURIComponent (JSON_stringify g));
  decode_encodeURIComponent :
    ∀ s u, encodeURIComponent s = Some u → decodeURIComponent u = Some s;
  btoa_encoded :
    ∀ s u, encodeURIComponent s = Some u → is_Some (btoa u);
  atob_btoa : ∀ u t, btoa u = Some t → atob t = Some u
}.

(** ** Share links ([handleShare] in [BingoBoard.tsx], the import in
    [App.tsx]) *)

(** [gameTemplate]: the board with a new id and creation time, and every
    cell without photos and completion time.  [nowId] and [nowCreated] are
    the two readings of [Date.now()], in the order the object literal
    takes them. *)
Definition gameTemplate (g : BingoGame) (nowId nowCreated : Z) : BingoGame :=
  Game.mk (JS.toString nowId) (Game.title g) (Game.size g)
          ((λ c, Cell.mk (Cell.id c) (Cell.text c) (Some []) None)
             <$> Game.cells g)
          nowCreated (Game.theme g).

Section ShareLink.
Context `{P : Platform}.

(** The token [encoded] that [handleShare] puts after [?import=]. *)
Definition exportShareable (g : BingoGame) (nowId nowCreated : Z)
  : option string :=
  let gameString := JSON_stringify (gameTemplate g nowId nowCreated) in
  escaped ← encodeURIComponent gameString;
  btoa escaped.

(** [JSON.parse(decodeURIComponent(atob(importData)))] inside its
    [try]: [None] when any of the three throws. *)
Definition importShareable (importData : string) : option BingoGame :=
  decoded ← atob importData;
  json ← decodeURIComponent decoded;
  JSON_parse json.

(** Step 3 of the load effect: an imported board whose id is already in
    the collection is not added again. *)
Definition mergeImported (importedGame : option BingoGame)
    (loadedGames : list BingoGame) : list BingoGame :=
  match importedGame with
  | Some g =>
      if existsb (λ g', bool_decide (Game.id g' = Game.id g)) loadedGames
      then loadedGames
      else g :: loadedGames
  | None => loadedGames
  end.
End ShareLink.

(** ** Load-time migration ([App.tsx], the load effect) *)

(** A cell as the store holds it: the current shape, or the older one with
    a single [photoUrl]. *)
Module Stored.
Module Cell.
Record t := mk {
  id : string;
  text : string;
  photos : option (list string);
  photoUrl : option string;
  completedAt : option Z
}.
End Cell.
Module Game.
Record t := mk {
  id : string;
  title : string;
  size : Z;
  cells : list Cell.t;
  createdAt : Z;
  theme : option string
}.
End Game.
End Stored.

(** [cell.photos || (cell.photoUrl ? [cell.photoUrl] : [])]: an array is
    truthy even when empty, a string only when not empty. *)
Definition migratedPhotos (cell : Stored.Cell.t) : list string :=
  match Stored.Cell.photos cell with
  | Some ps => ps
  | None =>
      match Stored.Cell.photoUrl cell with
      | Some url => if JS.truthy url then [url] else []
      | None => []
      end
  end.

(** [{ ...cell, photos: ... }].  The spread also carries [photoUrl] along;
    no code reads it afterwards and [BingoCell] has no such field. *)
Definition migrateCell (cell : Stored.Cell.t) : BingoCell :=
  Cell.mk (Stored.Cell.id cell) (Stored.Cell.text cell)
          (Some (migratedPhotos cell)) (Stored.Cell.completedAt cell).

Definition migrateGame (g : Stored.Game.t) : BingoGame :=
  Game.mk (Stored.Game.id g) (Stored.Game.title g) (Stored.Game.size g)
          (migrateCell <$> Stored.Game.cells g) (Stored.Game.createdAt g)
          (Stored.Game.theme g).

Definition migrate (parsedGames : list Stored.Game.t) : list BingoGame :=
  migrateGame <$> parsedGames.

(** ** Suggestions ([geminiService.ts]) *)

(** What the request to the provider comes back with: a rejection, or a
    response whose [text] may be missing. *)
Inductive ProviderOutcome :=
  | RequestFailed
  | Response (text : option string).

Section Suggestions.
Context `{P : Platform}.

(** The body of the [try]; [None] when something in it throws. *)
Definition generateBingoItems_try (count : Z) (outcome : ProviderOutcome)
  : option (list string) :=
  match outcome with
  | RequestFailed => None
  | Response text =>
      match text with
      | None => None
      | Some jsonStr =>
          if negb (JS.truthy jsonStr) then None
          else
            items ← JSON_parse_strings jsonStr;
            let items :=
              if bool_decide (Z.of_nat (length items) < count) then
                let needed := count - Z.of_nat (length items) in
                (items ++ JS.arrayFrom needed
                   (λ i, "Bonus Item " +:+ JS.toString (i + 1)))%list
              else items in
            Some (JS.slice0 count items)
      end
  end.

(** The [catch] branch. *)
Definition fallbackItems (topic : string) (count : Z) : list string :=
  JS.arrayFrom count
    (λ i, "Task " +:+ JS.toString (i + 1) +:+ " (" +:+ topic +:+ ")").

Definition generateBingoItems (topic : string) (count : Z)
    (outcome : ProviderOutcome) : list string :=
  match generateBingoItems_try count outcome with
  | Some items => items
  | None => fallbackItems topic count
  end.
End Suggestions.

(** ** Creating a board ([CreateGame.tsx], [handleCreateGame] in
    [App.tsx]) *)

Definition HOLIDAY_TASKS : list string := [
  "Visit the Christmas Wonderland or Distillery District";
  "Build a gingerbread house";
  "Light a winter candle";
  "Dress up a pet in holiday costume";
  "Set up and decorate Christmas tree";
  "Go for lunch/dinner with colleagues";
  "Share a holiday tradition with a co-worker";
  "Visit the Scotia Plaza Christmas tree";
  "Set up a Christmas village / train";
  "Donate to charity (clothes, toy, etc.)";
  "Watch a holiday movie";
  "Drive/walk around to see holiday lights";
  "Wrap a holiday gift";
  "Bake holiday-themed cookies";
  "Write a letter to Santa";
  "Go all out on holiday lights";
  "Attend a holiday concert, play, or virtual event";
  "Go ice skating or sledding";
  "Write or make holiday cards";
  "Go for a run or walk outdoors";
  "Enjoy a hot chocolate or festive drink with colleagues";
  "Create and listen to a holiday playlist";
  "Take a festive photo";
  "Make or cook a holiday recipe";
  "Wear an ugly sweater"
].

(** The form of [CreateGame]: its three pieces of state. *)
Record CreateGameForm := mkForm {
  form_title : string;
  form_size : Z;
  form_topic : string
}.

Section CreateGame.
Context `{P : Platform}.

(** [handleSubmit]: the argument it passes to [onCreate], or [None] when
    it returns early on an empty title. *)
Definition handleSubmit (form : CreateGameForm) (outcome : ProviderOutcome)
  : option CreateGameParams :=
  let title := form_title form in
  let size := form_size form in
  let topic := form_topic form in
  if negb (JS.truthy title) then None
  else if JS.truthy topic then
    let totalItems := size * size in
    let items := generateBingoItems topic totalItems outcome in
    Some (Params.mk title size (Some topic) (Some items))
  else
    let items :=
      JS.arrayFrom (size * size) (λ i, "Task " +:+ JS.toString (i + 1)) in
    Some (Params.mk title size None (Some items)).
End CreateGame.

(** [loadHolidayTemplate]: the argument it passes to [onCreate]. *)
Definition loadHolidayTemplate : CreateGameParams :=
  Params.mk "Holiday Bingo Challenge" 5 (Some "Holiday Fun")
            (Some HOLIDAY_TASKS).

(** The state of [App]. *)
Record AppState := mkApp {
  games : list BingoGame;
  activeGameId : option string;
  isCreating : bool
}.

(** The object [newGame] that [handleCreateGame] builds.  [clock n] is the
    [n]-th reading of [Date.now()] during the call: reading 0 makes the
    id, reading 1 the creation time, reading [2 + idx] the id of the cell
    at index [idx]. *)
Definition newGame (params : CreateGameParams) (clock : nat → Z) : BingoGame :=
  Game.mk (JS.toString (clock 0%nat)) (Params.title params)
          (Params.size params)
          (imap (λ idx text,
                   Cell.mk ("cell-" +:+ JS.toString (clock (2 + idx)%nat)
                              +:+ "-" +:+ JS.toString (Z.of_nat idx))
                           text (Some []) None)
                (default [] (Params.customItems params)))
          (clock 1%nat) (Params.topic params).

Definition handleCreateGame (app : AppState) (params : CreateGameParams)
    (clock : nat → Z) : AppState :=
  let g := newGame params clock in
  mkApp (g :: games app) (Some (Game.id g)) false.

(** [handleUpdateGame] and [handleDeleteGame] *)
Definition handleUpdateGame (app : AppState) (updatedGame : BingoGame)
  : AppState :=
  mkApp ((λ g, if bool_decide (Game.id g = Game.id updatedGame)
               then updatedGame else g) <$> games app)
        (activeGameId app) (isCreating app).

Definition handleDeleteGame (app : AppState) : AppState :=
  match activeGameId app with
  | Some active =>
      if JS.truthy active
      then mkApp (filter (λ g, Game.id g ≠ active) (games app)) None
                 (isCreating app)
      else app
  | None => app
  end.

(** ** A reference platform

    One implementation of the platform interface, used to check that its
    laws can be met and to run the model on examples.  A board is written
    as the binary digits of its code as a countable value; percent and
    base64 encoding are the identity.  It is not the wire format of a
    browser. *)
Module ReferencePlatform.

Fixpoint encodePos (p : positive) : string :=
  match p with
  | xH => ""
  | xO p => String (Ascii.ascii_of_nat 48) (encodePos p)
  | xI p => String (Ascii.ascii_of_nat 49) (encodePos p)
  end.

Fixpoint decodePos (s : string) : option positive :=
  match s with
  | EmptyString => Some xH
  | String a s =>
      p ← decodePos s;
      if Ascii.eqb a (Ascii.ascii_of_nat 48) then Some (xO p)
      else if Ascii.eqb a (Ascii.ascii_of_nat 49) then Some (xI p)
      else None
  end.

#[local] Instance cell_eq_dec : EqDecision BingoCell.
Proof. solve_decision. Defined.

#[local] Instance cell_countable : Countable BingoCell :=
  inj_countable'
    (λ c, (Cell.id c, Cell.text c, Cell.photos c, Cell.completedAt c))
    (λ t, let '(i, t, p, a) := t in Cell.mk i t p a)
    (λ c, match c with Cell.mk _ _ _ _ => eq_refl end).

#[local] Instance game_eq_dec : EqDecision BingoGame.
Proof. solve_decision. Defined.

#[local] Instance game_countable : Countable BingoGame :=
  inj_countable'
    (λ g, (Game.id g, Game.title g, Game.size g, Game.cells g,
           Game.createdAt g, Game.theme g))
    (λ t, let '(i, t, n, cs, a, th) := t in Game.mk i t n cs a th)
    (λ g, match g with Game.mk _ _ _ _ _ _ => eq_refl end).

Definition platform : Platform := {|
  JSON_stringify g := encodePos (encode g);
  JSON_parse s := p ← decodePos s; decode p;
  JSON_parse_strings s := p ← decodePos s; decode p;
  encodeURIComponent := Some;
  decodeURIComponent := Some;
  btoa := Some;
  atob := Some
|}.

End ReferencePlatform.

(** ** Example boards *)
Module Examples.

(** Readings of [Date.now()], one millisecond apart. *)
Definition clock (n : nat) : Z := 1700000000000 + Z.of_nat n.

Definition snap : string := "data:image/jpeg;base64,/9j/4AAQSkZJRg==".

(** The id of the cell at index [k]. *)
Definition cellIdAt (g : BingoGame) (k : nat) : string :=
  default "" (Cell.id <$> Game.cells g !! k).

(** A photo on each of the listed cells, one call of [addPhoto] each. *)
Definition snapAll (g : BingoGame) (ks : list nat) : BoardView :=
  foldl (λ v k, addPhoto v (cellIdAt g k) snap (λ _, clock 100))
        (mkView g false) ks.

(** A 3×3 board made by hand, and the holiday board. *)
Definition form3 : CreateGameForm := mkForm "Team Offsite" 3 "".

Definition params3 : CreateGameParams :=
  Params.mk "Team Offsite" 3 None
    (Some (JS.arrayFrom 9 (λ i, "Task " +:+ JS.toString (i + 1)))).

Definition board3 : BingoGame := newGame params3 clock.
Definition holidayBoard : BingoGame := newGame loadHolidayTemplate clock.

Definition row0Board : BingoGame := game (snapAll board3 [0; 1; 2]%nat).
Definition diagBoard : BingoGame :=
  game (snapAll holidayBoard [0; 6; 12; 18; 24]%nat).
Definition fullBoard : BingoGame := game (snapAll board3 (seq 0 9)).

(** A board without cells, as [handleCreateGame] builds it when no items
    come with the request. *)
Definition emptyBoard : BingoGame :=
  newGame (Params.mk "Empty" 3 None None) clock.

(** A board with one cell that holds one photo. *)
Definition onePhotoCell : BingoCell :=
  Cell.mk "cell-1700000000002-0" "Task 1" (Some [snap]) (Some 1700000000100).
Definition onePhotoBoard : BingoGame :=
  Game.mk "1700000000000" "Solo" 1 [onePhotoCell] 1700000000001 None.

(** A cell of the older schema. *)
Definition legacyCell : Stored.Cell.t :=
  Stored.Cell.mk "cell-1650000000002-0" "Task 1" None (Some snap)
                (Some 1650000000100).

End Examples.

(** ** Rendering the grid ([BingoBoard.tsx], [getCellStyle] and the loop
    over the cells) *)

Record CellStyle := mkStyle {
  classes : string;
  iconColor : string
}.

(** [getCellStyle(hasPhotos, wins, isFullHouse)] *)
Definition getCellStyle (hasPhotos : bool) (wins : list string)
    (isFullHouse : bool) : CellStyle :=
  if negb hasPhotos then
    mkStyle "border-white bg-white hover:border-brand-300 hover:shadow-md"
            "text-gray-300"
  else if isFullHouse then
    mkStyle "border-yellow-400 bg-yellow-50 ring-2 ring-yellow-200 shadow-lg shadow-yellow-100/50"
            "text-yellow-600"
  else if bool_decide (1 < length wins)%nat then
    mkStyle "border-pink-500 bg-pink-50 ring-2 ring-pink-100 shadow-md"
            "text-pink-600"
  else if bool_decide ("diag" ∈ wins) then
    mkStyle "border-orange-500 bg-orange-50 shadow-sm" "text-orange-600"
  else if bool_decide ("col" ∈ wins) then
    mkStyle "border-purple-500 bg-purple-50 shadow-sm" "text-purple-600"
  else if bool_decide ("row" ∈ wins) then
    mkStyle "border-blue-500 bg-blue-50 shadow-sm" "text-blue-600"
  else
    mkStyle "border-green-500 bg-green-50" "text-green-600".

(** What the loop computes for the cell at [index]: the style, the
    thumbnail [lastPhoto] and [photoCount]. *)
Definition cellStyle (g : BingoGame) (index : nat) (cell : BingoCell)
  : CellStyle :=
  getCellStyle (hasPhotos cell) (winsAt g (Z.of_nat index)) (isFullHouse g).

Definition lastPhoto (cell : BingoCell) : option string :=
  if hasPhotos cell then last (default [] (Cell.photos cell)) else None.

Definition photoCount (cell : BingoCell) : nat :=
  length (default [] (Cell.photos cell)).

(** [activeCell]: the selected cell, looked up by id in the current
    board. *)
Definition activeCell (g : BingoGame) (selectedCellId : option string)
  : option BingoCell :=
  match selectedCellId with
  | Some sel =>
      if JS.truthy sel
      then List.find (λ c, bool_decide (Cell.id c = sel)) (Game.cells g)
      else None
  | None => None
  end.

(** ** The dashboard and the load effect ([App.tsx]) *)

(** [activeGame = games.find(g => g.id === activeGameId)] *)
Definition activeGame (app : AppState) : option BingoGame :=
  match activeGameId app with
  | Some active =>
      List.find (λ g, bool_decide (Game.id g = active)) (games app)
  | None => None
  end.

(** [completedCount] and [totalCount] of a board in the list of games. *)
Definition completedCount (g : BingoGame) : nat :=
  length (filter (λ c, hasPhotos c = true) (Game.cells g)).

Definition totalCount (g : BingoGame) : nat := length (Game.cells g).

(** The effect that runs on mount.  [stored] is what the store gives after
    [JSON.parse]: [None] when the key is missing or the [try] fails, so
    that [loadedGames] stays empty.  [importedGame] is what the share link
    decoded to.  The effect sets the games, and the active game when there
    is an import. *)
Definition loadEffect (stored : option (list Stored.Game.t))
    (importedGame : option BingoGame) : AppState :=
  let loadedGames :=
    match stored with
    | Some parsedGames => migrate parsedGames
    | None => []
    end in
  mkApp (mergeImported importedGame loadedGames)
        (Game.id <$> importedGame) false.

(** ** Predicates used to state the properties of the evaluator *)

(** The cell at index [j] exists and has a photo. *)
Definition completeAt (g : BingoGame) (j : Z) : Prop :=
  0 ≤ j ∧ ∃ c, Game.cells g !! Z.to_nat j = Some c ∧ hasPhotos c = true.

(** Every index of [line] is the index of a cell with a photo. *)
Definition lineComplete (g : BingoGame) (line : list Z) : Prop :=
  Forall (completeAt g) line.

(** The board has [n]×[n] cells for its size [n]. *)
Definition squareBoard (g : BingoGame) : Prop :=
  Z.of_nat (length (Game.cells g)) = Game.size g * Game.size g.

(** Every list the status map stores is non-empty and without repeats. *)
Definition tagsWellFormed (st : gmap Z (list string)) : Prop :=
  ∀ i wins, st !! i = Some wins → wins ≠ [] ∧ NoDup wins.

(** The completion time of a cell is set exactly when the cell has a
    photo. *)
Definition timestampConsistent (c : BingoCell) : Prop :=
  hasPhotos c = true ↔ is_Some (Cell.completedAt c).

(** ** Characters of a string, for the ids of cells *)

Fixpoint occurs (a : Ascii.ascii) (s : string) : Prop :=
  match s with
  | EmptyString => False
  | String b s => a = b ∨ occurs a s
  end.

(** ** The share link as a URL ([handleShare] in [BingoBoard.tsx], step 1
    of the load effect in [App.tsx]) *)

(** What the browser gives the two sides of a share link.  [origin] and
    [pathname] are [window.location.origin] and [window.location.pathname]
    of the page that shares.  [importParam url] is
    [new URLSearchParams(window.location.search).get('import')] on a page
    opened at [url]: [None] when the query has no such parameter. *)
Class Location := {
  origin : string;
  pathname : string;
  importParam : string → option string
}.

(** The plus sign, which a query string uses for a space. *)
Definition plus : Ascii.ascii := Ascii.ascii_of_nat 43.

(** What [URLSearchParams] makes of a value written in base64: every plus
    sign is read as a space, the other characters of base64 are kept. *)
Fixpoint plusToSpace (s : string) : string :=
  match s with
  | EmptyString => EmptyString
  | String a s =>
      String (if Ascii.eqb a plus then Ascii.ascii_of_nat 32 else a)
             (plusToSpace s)
  end.

(** What the link relies on.  A base64 text written after [?import=]
    comes back from the query string with its plus signs turned into
    spaces.  The token of a board is never the empty string. *)
Class LocationLaws (P : Platform) (L : Location) : Prop := {
  importParam_shareUrl :
    ∀ u t, btoa u = Some t →
           importParam (origin +:+ pathname +:+ "?import=" +:+ t)
           = Some (plusToSpace t);
  token_nonempty :
    ∀ g u t, encodeURIComponent (JSON_stringify g) = Some u →
             btoa u = Some t → t ≠ ""
}.

Section ShareUrl.
Context `{P : Platform} `{L : Location}.

(** [shareUrl] of [handleShare]: the link that is shared or copied. *)
Definition shareUrl (g : BingoGame) (nowId nowCreated : Z) : option string :=
  encoded ← exportShareable g nowId nowCreated;
  Some (origin +:+ pathname +:+ "?import=" +:+ encoded).

(** Step 1 of the load effect on a page opened at [url]: the value of
    [importedGame] once the step is over, [None] for [null]. *)
Definition importFromUrl (url : string) : option BingoGame :=
  match importParam url with
  | Some importData =>
      if JS.truthy importData then importShareable importData else None
  | None => None
  end.
End ShareUrl.

(** A location for the examples.  Its query parser returns what follows
    the first equals sign, with every plus sign read as a space. *)
Module ReferenceLocation.

Fixpoint afterEquals (s : string) : option string :=
  match s with
  | EmptyString => None
  | String a s =>
      if Ascii.eqb a (Ascii.ascii_of_nat 61) then Some (plusToSpace s)
      else afterEquals s
  end.

Definition location : Location := {|
  origin := "https://bingo.example";
  pathname := "/";
  importParam := afterEquals
|}.

End ReferenceLocation.

(** More example boards: both diagonals of the 3×3 board, and a cell with
    three photos. *)
Module MoreExamples.

Definition crossBoard : BingoGame :=
  game (Examples.snapAll Examples.board3 [0; 2; 4; 6; 8]%nat).

Definition threePhotoCell : BingoCell :=
  Cell.mk "cell-1700000000002-0" "Task 1" (Some ["a.jpg"; "b.jpg"; "c.jpg"])
          (Some 1700000000100).

Definition threePhotoBoard : BingoGame :=
  Game.mk "1700000000000" "Solo" 1 [threePhotoCell] 1700000000001 None.

End MoreExamples.

(** ** The photo normalizer ([compressImage] in [BingoBoard.tsx]) *)

(** JavaScript numbers as IEEE 754 binary64 values: [spec_float] with a
    precision of 53 bits.  [img.width] and [img.height] are whole numbers;
    the scaled sizes are not. *)
Module Float.

Definition prec : Z := 53.
Definition emax : Z := 1024.

(** A whole number as a double, rounded when it has more than 53 bits. *)
Definition ofZ (n : Z) : spec_float := binary_normalize prec emax n 0 false.

Definition mul : spec_float → spec_float → spec_float := SFmul prec emax.
Definition div : spec_float → spec_float → spec_float := SFdiv prec emax.

(** [x > y] and [x <= y]; both are false when an operand is NaN. *)
Definition gtb (x y : spec_float) : bool := SFltb y x.
Definition leb (x y : spec_float) : bool := SFleb x y.

(** What [canvas.width = x] stores: the conversion of a number to an
    [unsigned long], which drops the fractional part and wraps modulo
    2^32; NaN and the infinities give 0. *)
Definition toUint32 (x : spec_float) : Z :=
  match x with
  | S754_finite s m e =>
      let a := if bool_decide (0 ≤ e) then Z.pos m * 2 ^ e
               else Z.pos m `div` 2 ^ (- e) in
      (if s then - a else a) `mod` 2 ^ 32
  | _ => 0
  end.

End Float.

Definition MAX_WIDTH : spec_float := Float.ofZ 800.
Definition MAX_HEIGHT : spec_float := Float.ofZ 800.

(** The values of [width] and [height] after the resize logic, from their
    values before it.  [height *= MAX_WIDTH / width] computes the quotient
    first and then the product. *)
Definition scaledSize (width height : spec_float) : spec_float * spec_float :=
  if Float.gtb width height then
    if Float.gtb width MAX_WIDTH
    then (MAX_WIDTH, Float.mul height (Float.div MAX_WIDTH width))
    else (width, height)
  else
    if Float.gtb height MAX_HEIGHT
    then (Float.mul width (Float.div MAX_HEIGHT height), MAX_HEIGHT)
    else (width, height).

(** The size of the canvas for an image of [w] by [h] pixels:
    [canvas.width = width; canvas.height = height]. *)
Definition canvasSize (w h : Z) : Z * Z :=
  let '(width, height) := scaledSize (Float.ofZ w) (Float.ofZ h) in
  (Float.toUint32 width, Float.toUint32 height).

(** The double that follows 800: 800 + 2^-43, printed by JavaScript as
    800.0000000000001. *)
Definition next800 : spec_float := SFsucc Float.prec Float.emax (Float.ofZ 800).

(** ** Predicates used to state the properties of rounding *)

(** A positive double with a mantissa of 53 bits. *)
Definition normal (m : positive) (e : Z) : Prop :=
  2 ^ 52 ≤ Z.pos m < 2 ^ 53 ∧ -1074 ≤ e ≤ 971.

(** A shift record [mrs] stands for the fraction [A / B]: its mantissa is
    the integer part, its round bit says that the fractional part is at
    least one half, its sticky bit that the fractional part is neither
    zero nor one half. *)
Definition represents (A B : Z) (mrs : shr_record) : Prop :=
  shr_m mrs = A `div` B
  ∧ shr_r mrs = bool_decide (B ≤ 2 * (A `mod` B))
  ∧ shr_s mrs = bool_decide (A `mod` B ≠ 0 ∧ 2 * (A `mod` B) ≠ B).

(** Where the remainder [R] of a division by [D] lies. *)
Definition located (D R : Z) (l : location) : Prop :=
  match l with
  | loc_Exact => R = 0
  | loc_Inexact Lt => 0 < 2 * R < D
  | loc_Inexact Eq => 2 * R = D
  | loc_Inexact Gt => D < 2 * R
  end.

Module FloatValue.
Import Reals.
Local Open Scope R_scope.

(** The real number a positive finite double stands for. *)
Definition F2R (m : positive) (e : Z) : R := IZR (Z.pos m) * powerRZ 2 e.

(** Half a unit in the last place, as a fraction of the value. *)
Definition u : R := / IZR (2 ^ 53).

(** The double [x] is the quotient [a / b] up to two roundings: [x * b]
    lies between [a * (1 - u)²] and [a * (1 + u)²]. *)
Definition approximates (x : spec_float) (a b : Z) : Prop :=
  match x with
  | S754_finite false m e =>
      IZR a * (1 - u) * (1 - u) <= F2R m e * IZR b
      ∧ F2R m e * IZR b <= IZR a * (1 + u) * (1 + u)
  | _ => False
  end.

End FloatValue.
(** *** The evaluator reads the cells through their bitmap only *)

Lemma completedList_trueFrom_gen (k : nat) (cs : list BingoCell) :
  filter (λ i, i ≠ -1)
    (imap (λ i c, if hasPhotos c then Z.of_nat (k + i) else -1) cs)
  = Z.of_nat <$> trueFrom k (hasPhotos <$> cs).
Proof.
  revert k. induction cs as [|c cs IH]; intros k; [done|].
  rewrite imap_cons. cbn [fmap list_fmap trueFrom].
  replace (imap _ cs)
    with (imap (λ i c, if hasPhotos c then Z.of_nat (S k + i) else -1) cs).
  2:{ apply imap_ext. intros i x _. cbn. by replace (k + S i)%nat with (S (k + i)) by lia. }
  destruct (hasPhotos c).
  - rewrite filter_cons_True by lia. rewrite Nat.add_0_r. cbn. f_equal. apply (IH (S k)).
  - rewrite filter_cons_False by (intros H; apply H; reflexivity). apply (IH (S k)).
Qed.

Lemma completedList_trueFrom (cs : list BingoCell) :
  completedList cs = Z.of_nat <$> trueFrom 0 (hasPhotos <$> cs).
Proof. apply (completedList_trueFrom_gen 0). Qed.

Lemma trueFrom_ge k bs i : i ∈ trueFrom k bs → (k ≤ i)%nat.
Proof.
  revert k. induction bs as [|b bs IH]; intros k; cbn; [by intros ?%elem_of_nil|].
  destruct b.
  - intros [->|H]%elem_of_cons; [lia|]. apply IH in H. lia.
  - intros H. apply IH in H. lia.
Qed.

Lemma trueFrom_NoDup k bs : NoDup (trueFrom k bs).
Proof.
  revert k. induction bs as [|b bs IH]; intros k; cbn; [constructor|].
  destruct b; [|apply IH].
  constructor; [|apply IH]. intros H%trueFrom_ge. lia.
Qed.

Lemma trueFrom_length_le k bs : (length (trueFrom k bs) ≤ length bs)%nat.
Proof.
  revert k. induction bs as [|b bs IH]; intros k; cbn; [lia|].
  destruct b; cbn; specialize (IH (S k)); lia.
Qed.

Lemma trueFrom_length_full k bs :
  length (trueFrom k bs) = length bs ↔ Forall (λ b, b = true) bs.
Proof.
  revert k. induction bs as [|b bs IH]; intros k; cbn.
  - split; [constructor|done].
  - destruct b; cbn.
    + rewrite Forall_cons, <- (IH (S k)). split; [intros; split; [done|lia]|intros [_ ?]; lia].
    + pose proof (trueFrom_length_le (S k) bs). split; [lia|].
      intros [? _]%Forall_cons. discriminate.
Qed.

Lemma completedIndices_size (cs : list BingoCell) :
  size (completedIndices cs) = length (trueFrom 0 (hasPhotos <$> cs)).
Proof.
  unfold completedIndices. rewrite completedList_trueFrom.
  rewrite size_list_to_set, length_fmap; [done|].
  apply NoDup_fmap; [apply _|apply trueFrom_NoDup].
Qed.

(** Full house, characterised: the board has a cell and every cell has a
    photo. *)
Lemma isFull_spec (cs : list BingoCell) :
  isFull cs = true ↔ cs ≠ [] ∧ Forall (λ c, hasPhotos c = true) cs.
Proof.
  unfold isFull. rewrite andb_true_iff, !bool_decide_eq_true.
  rewrite completedIndices_size.
  rewrite <- (length_fmap hasPhotos cs) at 2.
  rewrite trueFrom_length_full, Forall_fmap.
  assert ((0 < length cs)%nat ↔ cs ≠ []) as ->; [|done].
  destruct cs; cbn; split; (done || lia).
Qed.

(** The full-house flag, too, is a function of the bitmap. *)
Lemma isFull_bitmap (cs cs' : list BingoCell) :
  hasPhotos <$> cs = hasPhotos <$> cs' → isFull cs = isFull cs'.
Proof.
  intros Hb. unfold isFull. rewrite !completedIndices_size, Hb.
  by rewrite <- (length_fmap hasPhotos cs), <- (length_fmap hasPhotos cs'), Hb.
Qed.

(** Boards with the same size and the same bitmap get the same lines. *)
Lemma winStatus_bitmap (g : BingoGame) (bs : list bool) :
  completionBitmap g = bs →
  winStatus g = linesOf (Game.size g) (list_to_set (Z.of_nat <$> trueFrom 0 bs)).
Proof.
  intros <-. unfold winStatus, completedIndices.
  by rewrite completedList_trueFrom.
Qed.

(** *** Claims about the evaluator *)

(** C1 (as amended).  On a 3×3 board whose completion bitmap marks exactly
    row 0, the status map is exactly: the three indices of row 0, each
    tagged ["row"] and nothing else.  On a 5×5 board whose bitmap marks
    exactly the main diagonal, the map is exactly: the five indices
    [i*5+i], each tagged ["diag"].  And a board that has at least one
    cell and whose cells all have a photo is a full house, whatever its
    line tags are. *)
Theorem evaluator_classification (g3 g5 g : BingoGame) :
  Game.size g3 = 3 →
  completionBitmap g3 = bitmapOf 3 (rowIndices 3 0) →
  Game.size g5 = 5 →
  completionBitmap g5 = bitmapOf 5 (d1 5) →
  Game.cells g ≠ [] →
  Forall (λ c, hasPhotos c = true) (Game.cells g) →
  winStatus g3 = list_to_map ((λ i, (i, ["row"])) <$> rowIndices 3 0)
  ∧ (∀ i, i ∉ rowIndices 3 0 → winStatus g3 !! i = None)
  ∧ winStatus g5 = list_to_map ((λ i, (i * 5 + i, ["diag"])) <$> seqZ 0 5)
  ∧ isFullHouse g = true.
Proof.
  intros Hn3 Hb3 Hn5 Hb5 Hne Hall.
  assert (winStatus g3 = list_to_map ((λ i, (i, ["row"])) <$> rowIndices 3 0))
    as H3.
  { rewrite (winStatus_bitmap g3 _ Hb3), Hn3. by vm_compute. }
  split_and!.
  - exact H3.
  - intros i Hi. rewrite H3. apply not_elem_of_list_to_map_1.
    by rewrite <- list_fmap_compose, list_fmap_id.
  - rewrite (winStatus_bitmap g5 _ Hb5), Hn5. by vm_compute.
  - apply isFull_spec. by split.
Qed.

(** C1, as first stated (without the requirement that the board has a
    cell), fails on its last part: a board without cells has every cell
    complete, and is not a full house. *)
Lemma evaluator_classification_counterexample :
  ¬ (∀ g3 g5 g : BingoGame,
       Game.size g3 = 3 →
       completionBitmap g3 = bitmapOf 3 (rowIndices 3 0) →
       Game.size g5 = 5 →
       completionBitmap g5 = bitmapOf 5 (d1 5) →
       Forall (λ c, hasPhotos c = true) (Game.cells g) →
       winStatus g3 = list_to_map ((λ i, (i, ["row"])) <$> rowIndices 3 0)
       ∧ (∀ i, i ∉ rowIndices 3 0 → winStatus g3 !! i = None)
       ∧ winStatus g5 = list_to_map ((λ i, (i * 5 + i, ["diag"])) <$> seqZ 0 5)
       ∧ isFullHouse g = true).
Proof.
  intros H.
  destruct (H Examples.row0Board Examples.diagBoard Examples.emptyBoard
              eq_refl eq_refl eq_refl eq_refl (Forall_nil_2 _))
    as (_ & _ & _ & Hfull).
  discriminate Hfull.
Qed.

(** C10.  A board whose list of cells is empty is not a full house, although
    each of its cells is complete; in general the flag says that the board
    has a cell and every cell is complete. *)
Theorem full_house_needs_a_cell (g : BingoGame) :
  Game.cells g = [] →
  Forall (λ c, hasPhotos c = true) (Game.cells g)
  ∧ isFullHouse g = false
  ∧ ∀ g' : BingoGame,
      isFullHouse g' = true ↔
      (0 < length (Game.cells g'))%nat
      ∧ Forall (λ c, hasPhotos c = true) (Game.cells g').
Proof.
  intros Hnil. unfold isFullHouse. rewrite Hnil. split_and!; [constructor|done|].
  intros g'. rewrite isFull_spec.
  destruct (Game.cells g'); cbn; split; intros [? ?]; split; (done || lia).
Qed.

(** *** Attaching and removing photos *)

Lemma addPhoto_cells_lookup v cellId photoUrl now k :
  Game.cells (game (addPhoto v cellId photoUrl now)) !! k
  = (λ c, if bool_decide (Cell.id c = cellId)
          then addPhotoCell photoUrl (now k) c else c)
    <$> Game.cells (game v) !! k.
Proof. cbn. by rewrite list_lookup_imap. Qed.

Lemma removePhoto_cells_lookup v cellId photoIndex k :
  Game.cells (game (removePhoto v cellId photoIndex)) !! k
  = (λ c, if bool_decide (Cell.id c = cellId)
          then removePhotoCell photoIndex c else c)
    <$> Game.cells (game v) !! k.
Proof. cbn. by rewrite list_lookup_fmap. Qed.

Lemma hasPhotos_spec (c : BingoCell) :
  hasPhotos c = true ↔ ∃ p ps, Cell.photos c = Some (p :: ps).
Proof.
  unfold hasPhotos. destruct (Cell.photos c) as [[|p ps]|]; split;
    try done; try (intros (? & ? & ?); done). by exists p, ps.
Qed.

Lemma hasPhotos_app (c : BingoCell) (ps qs : list string) :
  Cell.photos c = Some (ps ++ qs)%list → qs ≠ [] → hasPhotos c = true.
Proof.
  intros H Hq. unfold hasPhotos. rewrite H.
  destruct ps; [|done]. by destruct qs.
Qed.

(** The cell at position [k] after a run of attachments to its id. *)
Lemma addPhotos_cell v cellId shots k c :
  Game.cells (game v) !! k = Some c →
  Cell.id c = cellId →
  ∃ c', Game.cells (game (addPhotos v cellId shots)) !! k = Some c'
        ∧ Cell.id c' = cellId
        ∧ (shots = [] → c' = c)
        ∧ (shots ≠ [] →
           Cell.photos c' = Some (default [] (Cell.photos c) ++ shots.*1)%list).
Proof.
  revert v c. induction shots as [|[p now] shots IH]; intros v c Hk Hid.
  - exists c. by split_and!.
  - cbn [addPhotos foldl]. 
    assert (Game.cells (game (addPhoto v cellId p now)) !! k
            = Some (addPhotoCell p (now k) c)) as Hk1.
    { rewrite addPhoto_cells_lookup, Hk. cbn [fmap option_fmap option_map].
      by rewrite bool_decide_eq_true_2. }
    destruct (IH _ _ Hk1 Hid) as (c' & Hk' & Hid' & Hnil & Hcons).
    exists c'. split_and!; [exact Hk'|done|done|]. intros _.
    destruct shots as [|s shots].
    + rewrite (Hnil eq_refl). done.
    + rewrite Hcons by done. cbn. by rewrite <- app_assoc.
Qed.

Lemma splice1_valid {A} (i : Z) (ps : list A) :
  0 ≤ i < Z.of_nat (length ps) →
  length (JS.splice1 i ps) = Nat.pred (length ps).
Proof.
  intros Hi. unfold JS.splice1, JS.relIndex.
  rewrite bool_decide_eq_false_2 by lia.
  rewrite length_delete; [lia|]. apply lookup_lt_is_Some. lia.
Qed.

(** The cell at position [k] after a run of removals that empties it. *)
Lemma removePhotos_cell v cellId photoIndices k c ps :
  Game.cells (game v) !! k = Some c →
  Cell.id c = cellId →
  Cell.photos c = Some ps →
  validRemovals (length ps) photoIndices →
  ∃ c', Game.cells (game (removePhotos v cellId photoIndices)) !! k = Some c'
        ∧ Cell.photos c' = Some []
        ∧ (photoIndices = [] → c' = c)
        ∧ (photoIndices ≠ [] → Cell.completedAt c' = None).
Proof.
  revert v c ps. induction photoIndices as [|i rest IH]; intros v c ps Hk Hid Hps Hval.
  - cbn in Hval. apply nil_length_inv in Hval as ->. exists c. by split_and!.
  - destruct Hval as [Hi Hval]. cbn [removePhotos foldl].
    assert (Game.cells (game (removePhoto v cellId i)) !! k
            = Some (Cell.mk (Cell.id c) (Cell.text c) (Some (JS.splice1 i ps))
                      (if bool_decide (0 < length (JS.splice1 i ps))%nat
                       then Cell.completedAt c else None))) as Hk1.
    { rewrite removePhoto_cells_lookup, Hk. cbn [fmap option_fmap option_map].
      rewrite bool_decide_eq_true_2 by done. unfold removePhotoCell.
      by rewrite Hps. }
    rewrite <- (splice1_valid i ps Hi) in Hval.
    edestruct (IH _ _ _ Hk1 Hid eq_refl Hval) as (c' & Hk' & Hp' & Hnil & Hcons).
    exists c'. split_and!; [exact Hk'|done|done|]. intros _.
    destruct rest as [|j rest].
    + rewrite (Hnil eq_refl). cbn. cbn in Hval. by rewrite Hval.
    + by apply Hcons.
Qed.

(** C3.  A cell counts as complete exactly when its photo list is not
    empty, and nothing but the photo list enters the classification: the
    evaluator gives boards of one size and one completion bitmap the same
    line tags and the same full-house flag.
    Attaching photos to a cell (at least one, or any number when the cell
    starts with [completedAt] cleared as the data model has it) and then
    removing every photo of the cell, one valid index at a time, leaves
    the cell incomplete and its [completedAt] unset. *)
Theorem completion_is_having_photos (v : BoardView) (cellId : string)
    (k : nat) (c : BingoCell) (shots : list (string * (nat → Z)))
    (photoIndices : list Z) :
  Game.cells (game v) !! k = Some c →
  Cell.id c = cellId →
  shots ≠ [] ∨ completedAtCleared c →
  validRemovals (length (default [] (Cell.photos c)) + length shots)
                photoIndices →
  (∀ c0, hasPhotos c0 = true ↔ ∃ p ps, Cell.photos c0 = Some (p :: ps))
  ∧ (∀ c1 c2, Cell.photos c1 = Cell.photos c2 → hasPhotos c1 = hasPhotos c2)
  ∧ (∀ g1 g2, Game.size g1 = Game.size g2 →
              completionBitmap g1 = completionBitmap g2 →
              winStatus g1 = winStatus g2 ∧ isFullHouse g1 = isFullHouse g2)
  ∧ ∃ c',
      Game.cells (game (removePhotos (addPhotos v cellId shots)
                                     cellId photoIndices)) !! k = Some c'
      ∧ hasPhotos c' = false
      ∧ Cell.completedAt c' = None.
Proof.
  intros Hk Hid Hsome Hval. split_and!.
  - apply hasPhotos_spec.
  - intros c1 c2 H. unfold hasPhotos. by rewrite H.
  - intros g1 g2 Hn Hb. split; [|by apply isFull_bitmap].
    by rewrite (winStatus_bitmap g1 _ eq_refl), (winStatus_bitmap g2 _ eq_refl),
      Hn, Hb.
  - destruct (addPhotos_cell v cellId shots k c Hk Hid)
      as (c1 & Hk1 & Hid1 & Hnil & Hcons).
    destruct (Cell.photos c1) as [ps1|] eqn:Hp1.
    + assert (length ps1 = (length (default [] (Cell.photos c)) + length shots)%nat)
        as Hlen.
      { destruct shots as [|s shots].
        - rewrite (Hnil eq_refl) in Hp1. rewrite Hp1. cbn. lia.
        - specialize (Hcons ltac:(done)). injection Hcons as ->.
          rewrite length_app. f_equal. cbn. f_equal. apply length_fmap. }
      rewrite <- Hlen in Hval.
      destruct (removePhotos_cell _ cellId photoIndices k c1 ps1 Hk1 Hid1 Hp1 Hval)
        as (c' & Hk' & Hp' & Hnil' & Hcons').
      exists c'. split; [exact Hk'|]. split; [unfold hasPhotos; by rewrite Hp'|].
      destruct photoIndices as [|i rest]; [|by apply Hcons'].
      rewrite (Hnil' eq_refl). cbn in Hval. apply nil_length_inv in Hval.
      subst ps1. destruct shots as [|s shots].
      * rewrite (Hnil eq_refl) in Hp1 |- *.
        destruct Hsome as [?|Hinv]; [done|]. apply Hinv.
        unfold hasPhotos. by rewrite Hp1.
      * specialize (Hcons ltac:(done)). injection Hcons as Hcons.
        symmetry in Hcons. apply app_eq_nil in Hcons as [_ ?]. done.
    + destruct shots as [|s shots]; [|by specialize (Hcons ltac:(done))].
      rewrite (Hnil eq_refl) in Hp1, Hk1. rewrite Hp1 in Hval. cbn in Hval.
      destruct photoIndices as [|i rest]; [|cbn in Hval; lia].
      exists c. split; [exact Hk1|].
      assert (hasPhotos c = false) as Hno by (unfold hasPhotos; by rewrite Hp1).
      split; [done|]. destruct Hsome as [?|Hinv]; [done|]. by apply Hinv.
Qed.

Lemma splice1_beyond {A} (i : Z) (ps : list A) :
  Z.of_nat (length ps) ≤ i → JS.splice1 i ps = ps.
Proof.
  intros Hi. unfold JS.splice1, JS.relIndex.
  rewrite bool_decide_eq_false_2 by lia.
  rewrite delete_take_drop, take_ge, drop_ge by lia. apply app_nil_r.
Qed.

(** C7 (as amended).  For every board, cell id and index, [removePhoto]
    returns a board with the same cells in number and leaves the confetti
    flag untouched: it never fails and never celebrates.  When the index
    is at or beyond the end of the photo list of a cell, that photo list
    stays as it is, and the whole cell stays as it is when the cell has a
    photo or has [completedAt] cleared already. *)
Theorem removePhoto_beyond_end (v : BoardView) (cellId : string)
    (photoIndex : Z) :
  length (Game.cells (game (removePhoto v cellId photoIndex)))
  = length (Game.cells (game v))
  ∧ showConfetti (removePhoto v cellId photoIndex) = showConfetti v
  ∧ ∀ (k : nat) (c : BingoCell),
      Game.cells (game v) !! k = Some c →
      Z.of_nat (length (default [] (Cell.photos c))) ≤ photoIndex →
      ∃ c', Game.cells (game (removePhoto v cellId photoIndex)) !! k = Some c'
            ∧ Cell.photos c' = Cell.photos c
            ∧ (completedAtCleared c → c' = c).
Proof.
  split_and!; [cbn; by rewrite length_fmap|done|]. intros k c Hk Hi.
  rewrite removePhoto_cells_lookup, Hk. cbn [fmap option_fmap option_map].
  case_bool_decide as Hid; [|by exists c].
  unfold removePhotoCell. destruct (Cell.photos c) as [ps|] eqn:Hps; [|by exists c].
  cbn in Hi. rewrite (splice1_beyond _ _ Hi).
  eexists. split; [reflexivity|]. split; [done|].
  intros Hinv. destruct c as [i0 t0 p0 a0]. cbn in *. subst p0.
  f_equal. case_bool_decide as Hlen; [done|].
  symmetry. apply Hinv. unfold hasPhotos. cbn.
  destruct ps; [done|cbn in Hlen; lia].
Qed.

(** C4 (as amended).  [addPhoto] raises the confetti flag on every call,
    whatever the board looks like before and after; [removePhoto] never
    touches the flag. *)
Theorem addPhoto_always_celebrates (v : BoardView) (cellId photoUrl : string)
    (now : nat → Z) (photoIndex : Z) :
  showConfetti (addPhoto v cellId photoUrl now) = true
  ∧ showConfetti (removePhoto v cellId photoIndex) = showConfetti v.
Proof. done. Qed.

(** *** Suggestions and board creation *)

Lemma arrayFrom_length {A} (n : Z) (f : Z → A) :
  length (JS.arrayFrom n f) = Z.to_nat n.
Proof. unfold JS.arrayFrom. by rewrite length_fmap, length_seqZ. Qed.

Lemma slice0_take {A} (n : Z) (arr : list A) :
  0 ≤ n → JS.slice0 n arr = take (Z.to_nat n) arr.
Proof.
  intros Hn. unfold JS.slice0, JS.relIndex.
  rewrite bool_decide_eq_false_2 by lia.
  destruct (decide (n ≤ Z.of_nat (length arr))).
  - by rewrite Z.min_l.
  - rewrite Z.min_r by lia. rewrite Nat2Z.id.
    by rewrite !take_ge by lia.
Qed.

Section SuggestionFacts.
Context `{P : Platform}.

(** The result of the [try] branch on a parsed list. *)
Lemma generateBingoItems_parsed topic count jsonStr items :
  0 ≤ count →
  JS.truthy jsonStr = true →
  JSON_parse_strings jsonStr = Some items →
  generateBingoItems topic count (Response (Some jsonStr))
  = if bool_decide (Z.of_nat (length items) < count)
    then (items ++ JS.arrayFrom (count - Z.of_nat (length items))
                    (λ i, "Bonus Item " +:+ JS.toString (i + 1)))%list
    else take (Z.to_nat count) items.
Proof.
  intros Hc Ht Hp. unfold generateBingoItems, generateBingoItems_try.
  rewrite Ht, Hp. cbn [negb mbind option_bind].
  rewrite slice0_take by done.
  case_bool_decide; [|done].
  apply take_ge. rewrite length_app, arrayFrom_length. lia.
Qed.

Lemma generateBingoItems_length topic count outcome :
  0 ≤ count →
  Z.of_nat (length (generateBingoItems topic count outcome)) = count.
Proof.
  intros Hc. unfold generateBingoItems.
  destruct (generateBingoItems_try count outcome) as [items|] eqn:Htry.
  - destruct outcome as [|[jsonStr|]]; cbn in Htry; try done.
    destruct (JS.truthy jsonStr); cbn [negb] in Htry; [|done].
    destruct (JSON_parse_strings jsonStr) as [parsed|];
      cbn [mbind option_bind] in Htry; [|done].
    injection Htry as <-. rewrite slice0_take, length_take by done.
    case_bool_decide.
    + rewrite length_app, arrayFrom_length. lia.
    + lia.
  - unfold fallbackItems. rewrite arrayFrom_length. lia.
Qed.

(** C8.  For a count [N >= 0], [generateBingoItems] returns exactly [N]
    items on every outcome of the provider.  When the request fails, the
    response has no text or the text does not parse, they are the
    placeholders "Task i (topic)" for i = 1..N.  When the text parses to
    a list shorter than [N], they are that list followed by "Bonus Item
    i" for i = 1..shortfall; when the list has [N] items or more, its
    first [N]. *)
Theorem suggestions_exact_count (topic : string) (count : Z)
    (outcome : ProviderOutcome) :
  0 ≤ count →
  Z.of_nat (length (generateBingoItems topic count outcome)) = count
  ∧ (outcome = RequestFailed
     ∨ outcome = Response None
     ∨ outcome = Response (Some "")
     ∨ (∃ jsonStr, outcome = Response (Some jsonStr)
                   ∧ JSON_parse_strings jsonStr = None) →
     generateBingoItems topic count outcome
     = (λ i, "Task " +:+ JS.toString (i + 1) +:+ " (" +:+ topic +:+ ")")
         <$> seqZ 0 count)
  ∧ (∀ jsonStr items,
       outcome = Response (Some jsonStr) →
       jsonStr ≠ "" →
       JSON_parse_strings jsonStr = Some items →
       (Z.of_nat (length items) < count →
        generateBingoItems topic count outcome
        = (items ++ ((λ i, "Bonus Item " +:+ JS.toString (i + 1))
                       <$> seqZ 0 (count - Z.of_nat (length items))))%list)
       ∧ (count ≤ Z.of_nat (length items) →
          generateBingoItems topic count outcome
          = take (Z.to_nat count) items)).
Proof.
  intros Hc. split_and!.
  - by apply generateBingoItems_length.
  - intros [->|[->|[->|(jsonStr & -> & Hp)]]]; try done.
    unfold generateBingoItems, generateBingoItems_try.
    destruct (JS.truthy jsonStr); cbn; [by rewrite Hp|done].
  - intros jsonStr items -> Hne Hp.
    assert (JS.truthy jsonStr = true) as Ht by (by destruct jsonStr).
    rewrite (generateBingoItems_parsed _ _ _ _ Hc Ht Hp).
    split; intros Hlen.
    + by rewrite bool_decide_eq_true_2.
    + by rewrite bool_decide_eq_false_2 by lia.
Qed.

(** Every submitted form with a title produces an argument for
    [onCreate]. *)
Lemma handleSubmit_creates form outcome :
  form_title form ≠ "" → is_Some (handleSubmit form outcome).
Proof.
  intros Ht. unfold handleSubmit.
  assert (JS.truthy (form_title form) = true) as -> by (by destruct (form_title form)).
  cbn. by destruct (JS.truthy (form_topic form)).
Qed.

(** C5.  The board that [handleCreateGame] builds from what the form
    submits (the manual path, and the assisted path on every outcome of
    the provider) or from the holiday template has exactly size × size
    cells; it is the board placed at the head of the collection. *)
Theorem creation_fills_the_grid (form : CreateGameForm)
    (outcome : ProviderOutcome) (params : CreateGameParams)
    (clock : nat → Z) (app : AppState) :
  handleSubmit form outcome = Some params ∨ params = loadHolidayTemplate →
  Z.of_nat (length (Game.cells (newGame params clock)))
  = Game.size (newGame params clock) * Game.size (newGame params clock)
  ∧ games (handleCreateGame app params clock)
    = newGame params clock :: games app.
Proof.
  intros Hpath. split; [|done]. cbn. rewrite length_imap.
  destruct Hpath as [Hsub| ->]; [|done].
  unfold handleSubmit in Hsub.
  destruct (JS.truthy (form_title form)); cbn in Hsub; [|done].
  pose proof (Z.square_nonneg (form_size form)) as Hsq.
  destruct (JS.truthy (form_topic form)); injection Hsub as <-; cbn.
  - by apply generateBingoItems_length.
  - rewrite arrayFrom_length. lia.
Qed.
End SuggestionFacts.

(** *** Migration *)

(** C6 (as amended).  A stored cell that has a [photos] list keeps it.  A
    stored cell without [photos] that has a non-empty [photoUrl] loads
    with exactly that one photo.  A stored cell without [photos] and
    without [photoUrl] loads with no photo. *)
Theorem migration_upgrades_photoUrl (cell : Stored.Cell.t) (url : string) :
  url ≠ "" →
  (∀ ps, Stored.Cell.photos cell = Some ps →
         Cell.photos (migrateCell cell) = Some ps)
  ∧ (Stored.Cell.photos cell = None → Stored.Cell.photoUrl cell = Some url →
     Cell.photos (migrateCell cell) = Some [url])
  ∧ (Stored.Cell.photos cell = None → Stored.Cell.photoUrl cell = None →
     Cell.photos (migrateCell cell) = Some [])
  ∧ Cell.id (migrateCell cell) = Stored.Cell.id cell
  ∧ Cell.text (migrateCell cell) = Stored.Cell.text cell
  ∧ Cell.completedAt (migrateCell cell) = Stored.Cell.completedAt cell.
Proof.
  intros Hurl. unfold migrateCell, migratedPhotos; cbn. split_and!; try done.
  - by intros ps ->.
  - intros -> ->. by destruct url.
  - by intros -> ->.
Qed.

(** C6, as first stated, fails for a legacy cell whose [photoUrl] is the
    empty string: it loads with no photo, not with the one-element list. *)
Lemma migration_upgrades_photoUrl_counterexample :
  ¬ (∀ (cell : Stored.Cell.t) (url : string),
       (∀ ps, Stored.Cell.photos cell = Some ps →
              Cell.photos (migrateCell cell) = Some ps)
       ∧ (Stored.Cell.photos cell = None → Stored.Cell.photoUrl cell = Some url →
          Cell.photos (migrateCell cell) = Some [url])
       ∧ (Stored.Cell.photos cell = None → Stored.Cell.photoUrl cell = None →
          Cell.photos (migrateCell cell) = Some [])).
Proof.
  intros H.
  destruct (H (Stored.Cell.mk "cell-1650000000003-1" "Task 2" None (Some "") None)
              "") as (_ & Hurl & _).
  specialize (Hurl eq_refl eq_refl). discriminate Hurl.
Qed.

(** *** Share links *)

Section ShareLinkFacts.
Context `{P : Platform} {L : PlatformLaws P}.

(** Importing what was exported gives the template back. *)
Lemma export_import (g : BingoGame) (nowId nowCreated : Z) :
  ∃ token, exportShareable g nowId nowCreated = Some token
           ∧ importShareable token = Some (gameTemplate g nowId nowCreated).
Proof.
  unfold exportShareable, importShareable.
  destruct (encodeURIComponent_JSON (gameTemplate g nowId nowCreated))
    as [escaped Hesc].
  destruct (btoa_encoded _ _ Hesc) as [token Htok].
  exists token. rewrite Hesc. cbn. split; [done|].
  rewrite (atob_btoa _ _ Htok). cbn.
  rewrite (decode_encodeURIComponent _ _ Hesc). cbn.
  apply JSON_parse_stringify.
Qed.
End ShareLinkFacts.

Lemma plusToSpace_plus_free (s : string) :
  ¬ occurs plus s → plusToSpace s = s.
Proof.
  induction s as [|a s IH]; [done|]. cbn. intros Hno.
  rewrite IH by tauto.
  destruct (Ascii.eqb_spec a plus) as [->|]; [|done].
  exfalso. apply Hno. by left.
Qed.

Lemma plusToSpace_truthy (s : string) :
  JS.truthy (plusToSpace s) = JS.truthy s.
Proof. by destruct s. Qed.

(** C2 (as amended).  On a platform whose codecs obey their laws, every
    board exports to a token, and the token imports as a board with the
    same title, the same size and the same sequence of cell texts, in
    which every cell has an empty photo list and no completion time.  Its
    id is the decimal text of the clock reading taken for the id and its
    creation time is the clock reading taken for it; so each differs from
    the board's when that reading differs from what the board carries.
    The link that is shared is the page address followed by [?import=] and
    the token.  A page opened at the link decodes the token with its plus
    signs turned into spaces; so it imports the same board when the token
    has no plus sign in it. *)
Theorem share_link_roundtrip (P : Platform) (L : Location) (b : BingoGame)
    (nowId nowCreated : Z) :
  PlatformLaws P →
  LocationLaws P L →
  ∃ token b',
    exportShareable b nowId nowCreated = Some token
    ∧ importShareable token = Some b'
    ∧ Game.title b' = Game.title b
    ∧ Game.size b' = Game.size b
    ∧ Cell.text <$> Game.cells b' = Cell.text <$> Game.cells b
    ∧ Forall (λ c, Cell.photos c = Some [] ∧ Cell.completedAt c = None)
             (Game.cells b')
    ∧ Game.id b' = JS.toString nowId
    ∧ Game.createdAt b' = nowCreated
    ∧ (JS.toString nowId ≠ Game.id b → Game.id b' ≠ Game.id b)
    ∧ (nowCreated ≠ Game.createdAt b → Game.createdAt b' ≠ Game.createdAt b)
    ∧ shareUrl b nowId nowCreated
      = Some (origin +:+ pathname +:+ "?import=" +:+ token)
    ∧ importFromUrl (origin +:+ pathname +:+ "?import=" +:+ token)
      = importShareable (plusToSpace token)
    ∧ (¬ occurs plus token →
       importFromUrl (origin +:+ pathname +:+ "?import=" +:+ token) = Some b').
Proof.
  intros HP HL.
  destruct (export_import b nowId nowCreated) as (token & Hexp & Himp).
  exists token, (gameTemplate b nowId nowCreated).
  assert (shareUrl b nowId nowCreated
          = Some (origin +:+ pathname +:+ "?import=" +:+ token)) as Hurl
    by (unfold shareUrl; by rewrite Hexp).
  assert (importFromUrl (origin +:+ pathname +:+ "?import=" +:+ token)
          = importShareable (plusToSpace token)) as Hlink.
  { unfold exportShareable in Hexp.
    destruct (encodeURIComponent
                (JSON_stringify (gameTemplate b nowId nowCreated)))
      as [u|] eqn:Hu; [|done].
    cbn in Hexp. unfold importFromUrl.
    rewrite (importParam_shareUrl u token Hexp), plusToSpace_truthy.
    assert (token ≠ "") as Hne by exact (token_nonempty _ _ _ Hu Hexp).
    by destruct token. }
  split_and!; try done.
  - cbn. rewrite <- list_fmap_compose. by apply list_fmap_ext.
  - cbn. apply Forall_fmap, Forall_true. by intros c.
  - intros Hplus. by rewrite Hlink, plusToSpace_plus_free.
Qed.

Lemma decode_encodePos (p : positive) :
  ReferencePlatform.decodePos (ReferencePlatform.encodePos p) = Some p.
Proof. induction p as [p IH|p IH|]; cbn; [by rewrite IH..|done]. Qed.

(** The reference platform obeys the laws. *)
Lemma reference_platform_laws : PlatformLaws ReferencePlatform.platform.
Proof.
  split; cbn.
  - intros g. rewrite decode_encodePos. cbn. apply decode_encode.
  - by eexists.
  - by intros s u [= ->].
  - by eexists.
  - by intros s u [= ->].
Qed.

Lemma encodePos_plus_free (p : positive) :
  ¬ occurs plus (ReferencePlatform.encodePos p).
Proof.
  induction p as [p IH|p IH|]; cbn; [| |tauto];
    intros [Heq|Hin]; first [discriminate Heq|by apply IH].
Qed.

Lemma reference_token_plus_free (g : BingoGame) (nowId nowCreated : Z)
    (token : string) :
  exportShareable (P:=ReferencePlatform.platform) g nowId nowCreated
  = Some token →
  ¬ occurs plus token.
Proof. intros [= <-]. apply encodePos_plus_free. Qed.

Lemma encodePos_prod_nonempty (p q : positive) :
  ReferencePlatform.encodePos (prod_encode p q) ≠ "".
Proof. destruct p, q; discriminate. Qed.

(** The reference location obeys the laws, with the reference platform. *)
Lemma reference_location_laws :
  LocationLaws ReferencePlatform.platform ReferenceLocation.location.
Proof.
  split.
  - by intros u t _.
  - intros g u t [= <-] [= <-]. apply encodePos_prod_nonempty.
Qed.

(** C2, as first stated, fails when the clock readings at export are the
    ones the board was created with: the imported board then carries the
    same id and creation time. *)
Lemma share_link_roundtrip_counterexample :
  ¬ (∀ (P : Platform), PlatformLaws P →
     ∀ (b : BingoGame) (nowId nowCreated : Z),
     ∃ token b',
       exportShareable b nowId nowCreated = Some token
       ∧ importShareable token = Some b'
       ∧ Game.title b' = Game.title b
       ∧ Game.size b' = Game.size b
       ∧ Cell.text <$> Game.cells b' = Cell.text <$> Game.cells b
       ∧ Forall (λ c, Cell.photos c = Some [] ∧ Cell.completedAt c = None)
                (Game.cells b')
       ∧ Game.id b' ≠ Game.id b
       ∧ Game.createdAt b' ≠ Game.createdAt b).
Proof.
  intros H.
  pose (b := Examples.board3).
  destruct (H _ reference_platform_laws b 1700000000000 1700000000001)
    as (token & b' & Hexp & Himp & _ & _ & _ & _ & Hid & _).
  destruct (@export_import _ reference_platform_laws b 1700000000000 1700000000001)
    as (token' & Hexp' & Himp').
  rewrite Hexp in Hexp'. injection Hexp' as <-.
  rewrite Himp in Himp'. injection Himp' as ->.
  apply Hid. by vm_compute.
Qed.

(** *** Counterexamples to the claims as first stated *)

(** C7, as first stated, fails for a negative index: [splice] counts it
    from the end, so index -1 removes the only photo of the cell and
    clears its completion time. *)
Lemma removePhoto_beyond_end_counterexample :
  ¬ (∀ (v : BoardView) (cellId : string) (photoIndex : Z) (k : nat)
       (c : BingoCell),
       Game.cells (game v) !! k = Some c →
       photoIndex < 0
       ∨ Z.of_nat (length (default [] (Cell.photos c))) ≤ photoIndex →
       ∃ c', Game.cells (game (removePhoto v cellId photoIndex)) !! k = Some c'
             ∧ Cell.photos c' = Cell.photos c
             ∧ Cell.completedAt c' = Cell.completedAt c).
Proof.
  intros H.
  destruct (H (mkView Examples.onePhotoBoard false) "cell-1700000000002-0"
              (-1) 0%nat Examples.onePhotoCell eq_refl (or_introl eq_refl))
    as (c' & Hc' & Hphotos & _).
  vm_compute in Hc'. injection Hc' as <-. discriminate Hphotos.
Qed.

(** C4, as first stated, fails on the first photo of a 3×3 board: the
    confetti flag goes up although the board is not a full house after
    the call. *)
Lemma addPhoto_always_celebrates_counterexample :
  ¬ (∀ (v : BoardView) (cellId photoUrl : string) (now : nat → Z),
       showConfetti v = false →
       (showConfetti (addPhoto v cellId photoUrl now) = true
        ↔ isFullHouse (game v) = false
          ∧ isFullHouse (game (addPhoto v cellId photoUrl now)) = true)).
Proof.
  intros H.
  destruct (H (mkView Examples.board3 false)
              (Examples.cellIdAt Examples.board3 0) Examples.snap
              (λ _, Examples.clock 100) eq_refl) as [Hfire _].
  destruct (Hfire eq_refl) as [_ Hfull].
  vm_compute in Hfull. discriminate Hfull.
Qed.

(** *** The theorems at work on the example boards *)

Lemma evaluator_classification_witness :
  (Game.size Examples.row0Board = 3
   ∧ completionBitmap Examples.row0Board = bitmapOf 3 (rowIndices 3 0)
   ∧ Game.size Examples.diagBoard = 5
   ∧ completionBitmap Examples.diagBoard = bitmapOf 5 (d1 5)
   ∧ Game.cells Examples.fullBoard ≠ []
   ∧ Forall (λ c, hasPhotos c = true) (Game.cells Examples.fullBoard))
  ∧ winStatus Examples.row0Board
    = list_to_map ((λ i, (i, ["row"])) <$> rowIndices 3 0)
  ∧ (∀ i, i ∉ rowIndices 3 0 → winStatus Examples.row0Board !! i = None)
  ∧ winStatus Examples.diagBoard
    = list_to_map ((λ i, (i * 5 + i, ["diag"])) <$> seqZ 0 5)
  ∧ isFullHouse Examples.fullBoard = true.
Proof.
  assert (Forall (λ c, hasPhotos c = true) (Game.cells Examples.fullBoard))
    as Hall by (vm_compute; repeat constructor).
  split.
  - split_and!; [reflexivity|reflexivity|reflexivity|reflexivity|discriminate|exact Hall].
  - apply (evaluator_classification Examples.row0Board Examples.diagBoard
             Examples.fullBoard);
      [reflexivity|reflexivity|reflexivity|reflexivity|discriminate|exact Hall].
Defined.

Lemma full_house_needs_a_cell_witness :
  Game.cells Examples.emptyBoard = []
  ∧ Forall (λ c, hasPhotos c = true) (Game.cells Examples.emptyBoard)
  ∧ isFullHouse Examples.emptyBoard = false.
Proof.
  split; [reflexivity|].
  pose proof (full_house_needs_a_cell Examples.emptyBoard eq_refl) as (H1 & H2 & _).
  exact (conj H1 H2).
Defined.

Lemma completion_is_having_photos_witness :
  let v := mkView Examples.board3 false in
  let c := Cell.mk "cell-1700000000006-4" "Task 5" (Some []) None in
  let shots := [(Examples.snap, Examples.clock); (Examples.snap, Examples.clock)] in
  (Game.cells (game v) !! 4%nat = Some c
   ∧ Cell.id c = "cell-1700000000006-4"
   ∧ (shots ≠ [] ∨ completedAtCleared c)
   ∧ validRemovals (length (default [] (Cell.photos c)) + length shots) [1; 0])
  ∧ ∃ c', Game.cells (game (removePhotos
                              (addPhotos v "cell-1700000000006-4" shots)
                              "cell-1700000000006-4" [1; 0])) !! 4%nat = Some c'
          ∧ hasPhotos c' = false
          ∧ Cell.completedAt c' = None.
Proof.
  intros v c shots.
  assert (validRemovals (length (default [] (Cell.photos c)) + length shots) [1; 0])
    as Hval by (cbn; lia).
  split.
  - split_and!; [reflexivity|reflexivity|left; discriminate|exact Hval].
  - exact (proj2 (proj2 (proj2 (completion_is_having_photos v "cell-1700000000006-4"
                           4%nat c shots [1; 0] eq_refl eq_refl
                           (or_introl (λ H, eq_ind [] (λ l, match l with
                                                            | [] => True
                                                            | _ :: _ => False
                                                            end) I _ (eq_sym H)))
                           Hval)))).
Defined.

Lemma removePhoto_beyond_end_witness :
  let v := mkView Examples.onePhotoBoard false in
  (Game.cells (game v) !! 0%nat = Some Examples.onePhotoCell
   ∧ Z.of_nat (length (default [] (Cell.photos Examples.onePhotoCell))) ≤ 1)
  ∧ Game.cells (game (removePhoto v "cell-1700000000002-0" 1)) !! 0%nat
    = Some Examples.onePhotoCell.
Proof.
  intros v.
  assert (Z.of_nat (length (default [] (Cell.photos Examples.onePhotoCell))) ≤ 1)
    as Hi by (cbn; lia).
  split; [split; [reflexivity|exact Hi]|].
  destruct (proj2 (proj2 (removePhoto_beyond_end v "cell-1700000000002-0" 1))
              0%nat Examples.onePhotoCell eq_refl Hi) as (c' & Hc' & _ & Hsame).
  rewrite Hc'. f_equal. apply Hsame. intros Hno. discriminate Hno.
Defined.

Lemma suggestions_exact_count_witness :
  0 ≤ 9
  ∧ Z.of_nat (length (generateBingoItems (P:=ReferencePlatform.platform)
                        "Road Trip" 9 RequestFailed)) = 9.
Proof.
  assert (0 ≤ 9) as H9 by lia.
  split; [exact H9|].
  exact (proj1 (@suggestions_exact_count ReferencePlatform.platform
                  "Road Trip" 9 RequestFailed H9)).
Defined.

Lemma creation_fills_the_grid_witness :
  (handleSubmit (P:=ReferencePlatform.platform) Examples.form3 RequestFailed
   = Some Examples.params3
   ∨ Examples.params3 = loadHolidayTemplate)
  ∧ Z.of_nat (length (Game.cells Examples.board3))
    = Game.size Examples.board3 * Game.size Examples.board3.
Proof.
  assert (handleSubmit (P:=ReferencePlatform.platform) Examples.form3 RequestFailed
          = Some Examples.params3) as Hsub by reflexivity.
  split; [left; exact Hsub|].
  exact (proj1 (@creation_fills_the_grid ReferencePlatform.platform
                  Examples.form3 RequestFailed Examples.params3 Examples.clock
                  (mkApp [] None true) (or_introl Hsub))).
Defined.

Lemma migration_upgrades_photoUrl_witness :
  Examples.snap ≠ ""
  ∧ Cell.photos (migrateCell Examples.legacyCell) = Some [Examples.snap].
Proof.
  assert (Examples.snap ≠ "") as Hne by discriminate.
  split; [exact Hne|].
  exact (proj1 (proj2 (migration_upgrades_photoUrl Examples.legacyCell
                         Examples.snap Hne)) eq_refl eq_refl).
Defined.

Lemma share_link_roundtrip_witness :
  (PlatformLaws ReferencePlatform.platform
   ∧ LocationLaws ReferencePlatform.platform ReferenceLocation.location)
  ∧ ∃ token b',
      exportShareable (P:=ReferencePlatform.platform) Examples.row0Board
                      1700000360000 1700000360001 = Some token
      ∧ importShareable (P:=ReferencePlatform.platform) token = Some b'
      ∧ Game.title b' = "Team Offsite"
      ∧ Game.id b' = "1700000360000"
      ∧ shareUrl (P:=ReferencePlatform.platform)
                 (L:=ReferenceLocation.location) Examples.row0Board
                 1700000360000 1700000360001
        = Some ("https://bingo.example/?import=" +:+ token)
      ∧ Game.id b' ≠ Game.id Examples.row0Board
      ∧ importFromUrl (P:=ReferencePlatform.platform)
                      (L:=ReferenceLocation.location)
                      ("https://bingo.example/?import=" +:+ token)
        = Some b'.
Proof.
  split; [split; [exact reference_platform_laws|exact reference_location_laws]|].
  destruct (share_link_roundtrip ReferencePlatform.platform
              ReferenceLocation.location Examples.row0Board
              1700000360000 1700000360001 reference_platform_laws
              reference_location_laws)
    as (token & b' & Hexp & Himp & Htitle & _ & _ & _ & Hid & _ & Hne & _
        & Hurl & _ & Hlink).
  exists token, b'.
  split_and!; [exact Hexp|exact Himp|exact Htitle|exact Hid|exact Hurl| |].
  - apply Hne. vm_compute. discriminate.
  - apply Hlink. exact (reference_token_plus_free _ _ _ _ Hexp).
Defined.

(** *** The photo normalizer *)

(** **** Binary digits *)

Lemma digits2_pos_size (p : positive) : digits2_pos p = Pos.size p.
Proof. induction p as [p IH|p IH|]; cbn; by rewrite ?IH. Qed.

Lemma Zdigits2_bounds (p : positive) :
  2 ^ (Z.pos (digits2_pos p) - 1) ≤ Z.pos p < 2 ^ Z.pos (digits2_pos p).
Proof.
  rewrite digits2_pos_size. split.
  - pose proof (Pos.size_le p) as H.
    apply (Pos2Z.pos_le_pos) in H. rewrite Pos2Z.inj_pow in H.
    replace (Z.pos (Pos.size p)) with (Z.succ (Z.pos (Pos.size p) - 1)) in H by lia.
    rewrite Z.pow_succ_r in H by lia. lia.
  - pose proof (Pos.size_gt p) as H.
    apply (Pos2Z.pos_lt_pos) in H. by rewrite Pos2Z.inj_pow in H.
Qed.

Lemma Zdigits2_unique (p : positive) (d : Z) :
  2 ^ (d - 1) ≤ Z.pos p < 2 ^ d → Z.pos (digits2_pos p) = d.
Proof.
  intros [Hlo Hhi]. pose proof (Zdigits2_bounds p) as [Hlo' Hhi'].
  assert (0 < d) as Hd.
  { destruct (decide (0 < d)) as [|Hn]; [done|].
    assert (d = 0 ∨ d < 0) as [->|Hneg] by lia; [cbn in Hhi; lia|].
    rewrite Z.pow_neg_r in Hhi by lia. lia. }
  destruct (Z.lt_trichotomy (Z.pos (digits2_pos p)) d) as [Hlt|[Heq|Hgt]]; [|done|].
  - assert (2 ^ Z.pos (digits2_pos p) ≤ 2 ^ (d - 1)) by (apply Z.pow_le_mono_r; lia).
    lia.
  - assert (2 ^ d ≤ 2 ^ (Z.pos (digits2_pos p) - 1)) by (apply Z.pow_le_mono_r; lia).
    lia.
Qed.

Lemma shr_1_represents (A B : Z) (mrs : shr_record) :
  0 ≤ A → 0 < B → represents A B mrs → represents A (2 * B) (shr_1 mrs).
Proof.
  intros HA HB (Hm & Hr & Hs). destruct mrs as [m r s]. cbn in Hm, Hr, Hs.
  pose proof (Z.div_mod A B ltac:(lia)) as Hdm.
  pose proof (Z.mod_pos_bound A B HB) as Hmod.
  assert (0 ≤ A `div` B) as Hq by (apply Z.div_pos; lia).
  assert (A `div` (2 * B) = m `div` 2) as Hdiv.
  { rewrite Hm, (Z.mul_comm 2 B), <- Z.div_div by lia. done. }
  assert (A `mod` (2 * B) = (m `mod` 2) * B + A `mod` B) as Hmod2.
  { pose proof (Z.div_mod A (2 * B) ltac:(lia)) as Hdm2.
    pose proof (Z.div_mod m 2 ltac:(lia)) as Hdm3.
    rewrite Hdiv in Hdm2. nia. }
  pose proof (Z.mod_pos_bound m 2 ltac:(lia)) as Hm2.
  assert (orb r s = bool_decide (A `mod` B ≠ 0)) as Hrs.
  { rewrite Hr, Hs. repeat case_bool_decide; cbn; try done; lia. }
  assert (shr_1 {| shr_m := m; shr_r := r; shr_s := s |}
          = {| shr_m := m `div` 2; shr_r := bool_decide (m `mod` 2 = 1);
               shr_s := orb r s |}) as ->.
  { clear -Hq Hm. subst m. destruct (A `div` B) as [|p|p]; [done| |lia].
    destruct p as [p|p|]; cbn [shr_1].
    - f_equal; [by rewrite Pos2Z.pos_xI, Z.mul_comm, Z.div_add_l|].
      rewrite Pos2Z.pos_xI, Z.add_comm, Z.mul_comm, Z.mod_add by lia. done.
    - f_equal; [by rewrite Pos2Z.pos_xO, Z.mul_comm, Z.div_mul|].
      rewrite Pos2Z.pos_xO, Z.mul_comm, Z.mod_mul by lia. done.
    - done. }
  split_and!; cbn.
  - done.
  - rewrite Hmod2.
    assert (m `mod` 2 = 0 ∨ m `mod` 2 = 1) as [->| ->] by lia;
      repeat case_bool_decide; try done; lia.
  - rewrite Hrs, Hmod2.
    assert (m `mod` 2 = 0 ∨ m `mod` 2 = 1) as [->| ->] by lia;
      repeat case_bool_decide; try done; lia.
Qed.

Lemma iter_pos_shr_1_represents (p : positive) (A B : Z) (mrs : shr_record) :
  0 ≤ A → 0 < B → represents A B mrs →
  represents A (B * 2 ^ Z.pos p) (iter_pos shr_1 p mrs).
Proof.
  intros HA. revert B mrs.
  induction p as [p IH|p IH|]; intros B mrs HB Hrep; cbn [iter_pos].
  - replace (B * 2 ^ Z.pos p~1) with (2 * B * 2 ^ Z.pos p * 2 ^ Z.pos p).
    + apply IH; [lia|]. apply IH; [lia|]. by apply shr_1_represents.
    + replace (Z.pos p~1) with (Z.pos p + Z.pos p + 1) by lia.
      rewrite !Z.pow_add_r by lia. lia.
  - replace (B * 2 ^ Z.pos p~0) with (B * 2 ^ Z.pos p * 2 ^ Z.pos p).
    + apply IH; [lia|]. by apply IH.
    + replace (Z.pos p~0) with (Z.pos p + Z.pos p) by lia.
      rewrite !Z.pow_add_r by lia. lia.
  - replace (B * 2 ^ 1) with (2 * B) by lia. by apply shr_1_represents.
Qed.

Lemma shr_represents (A B : Z) (mrs : shr_record) (e k : Z) :
  0 ≤ A → 0 < B → 0 ≤ k → represents A B mrs →
  represents A (B * 2 ^ k) (shr mrs e k).1 ∧ (shr mrs e k).2 = e + k.
Proof.
  intros HA HB Hk Hrep. destruct k as [|p|p]; [| |lia]; cbn [shr fst snd].
  - rewrite Z.mul_1_r. split; [done|lia].
  - split; [|done]. by apply iter_pos_shr_1_represents.
Qed.

Lemma shr_record_of_loc_represents (m D R : Z) (l : location) :
  0 < D → 0 ≤ R < D → located D R l →
  represents (m * D + R) D (shr_record_of_loc m l).
Proof.
  intros HD HR Hl.
  assert ((m * D + R) `div` D = m) as Hdiv.
  { rewrite Z.add_comm, Z.div_add by lia. rewrite Z.div_small by lia. lia. }
  assert ((m * D + R) `mod` D = R) as Hmod.
  { rewrite Z.add_comm, Z.mod_add by lia. by apply Z.mod_small. }
  unfold represents. rewrite Hdiv, Hmod.
  destruct l as [|[]]; cbn in Hl |- *;
    (split; [done|]); split; symmetry;
    first [apply bool_decide_eq_true_2|apply bool_decide_eq_false_2]; lia.
Qed.

Lemma round_nearest_even_represents (A B : Z) (mrs : shr_record) :
  0 ≤ A → 0 < B → represents A B mrs →
  let N := round_nearest_even (shr_m mrs) (loc_of_shr_record mrs) in
  A `div` B ≤ N ≤ A `div` B + 1
  ∧ 2 * N * B ≤ 2 * A + B ∧ 2 * A ≤ 2 * N * B + B
  ∧ (A `mod` B = 0 → N = A `div` B).
Proof.
  intros HA HB (Hm & Hr & Hs). destruct mrs as [m r s]. cbn in Hm, Hr, Hs.
  pose proof (Z.div_mod A B ltac:(lia)) as Hdm.
  pose proof (Z.mod_pos_bound A B HB) as Hmod.
  cbn [shr_m]. rewrite <- Hm in *.
  destruct r, s; cbn [loc_of_shr_record round_nearest_even];
    symmetry in Hr, Hs;
    first [apply bool_decide_eq_true_1 in Hr|apply bool_decide_eq_false_1 in Hr];
    first [apply bool_decide_eq_true_1 in Hs|apply bool_decide_eq_false_1 in Hs];
    try destruct (Z.even m); split_and!; nia.
Qed.

(** **** Rounding to a double *)

(** Rounding to binary64 of the positive value [(mx + R / D) * 2 ^ ex],
    whose integer part [mx] has [53 + k] binary digits, away from the
    subnormal range and from overflow: the mantissa is a nearest integer
    [N] to the value scaled by [2 ^ k]. *)
Lemma binary_round_aux_normal (mx ex : Z) (lx : location) (D R k : Z) :
  0 < D → 0 ≤ R < D → located D R lx →
  0 ≤ k → 2 ^ (52 + k) ≤ mx < 2 ^ (53 + k) →
  -1074 ≤ ex + k → ex + k < 971 →
  ∃ N, 2 ^ 52 ≤ N ≤ 2 ^ 53
       ∧ 2 * (N * 2 ^ k * D) ≤ 2 * (mx * D + R) + D * 2 ^ k
       ∧ 2 * (mx * D + R) ≤ 2 * (N * 2 ^ k * D) + D * 2 ^ k
       ∧ (R = 0 → k = 0 → N = mx)
       ∧ binary_round_aux 53 1024 false mx ex lx
         = if bool_decide (N < 2 ^ 53)
           then S754_finite false (Z.to_pos N) (ex + k)
           else S754_finite false (Z.to_pos (2 ^ 52)) (ex + k + 1).
Proof.
  intros HD HR Hl Hk Hmx Hlo Hhi.
  assert (0 < 2 ^ k) as Hpk by (apply Z.pow_pos_nonneg; lia).
  assert (0 < 2 ^ (52 + k)) as Hp52 by (apply Z.pow_pos_nonneg; lia).
  assert (Zdigits2 mx = 53 + k) as Hdig.
  { destruct mx as [|p|p]; [lia| |lia]. cbn [Zdigits2].
    apply Zdigits2_unique. by replace (53 + k - 1) with (52 + k) by lia. }
  unfold binary_round_aux, shr_fexp at 1.
  assert (fexp 53 1024 (Zdigits2 mx + ex) - ex = k) as ->.
  { rewrite Hdig. unfold fexp, emin. lia. }
  assert (0 ≤ mx * D + R) as HA
    by (apply Z.add_nonneg_nonneg; [apply Z.mul_nonneg_nonneg|]; lia).
  assert (0 < D * 2 ^ k) as HB by (apply Z.mul_pos_pos; lia).
  pose proof (shr_record_of_loc_represents mx D R lx HD HR Hl) as Hrep0.
  destruct (shr_represents (mx * D + R) D (shr_record_of_loc mx lx) ex k
              HA HD Hk Hrep0) as [Hrep He'].
  destruct (shr (shr_record_of_loc mx lx) ex k) as [mrs' e'].
  cbn [fst snd] in Hrep, He'. subst e'.
  pose proof (round_nearest_even_represents _ _ _ HA HB Hrep)
    as (HN & Hup & Hdown & Hex).
  set (N := round_nearest_even (shr_m mrs') (loc_of_shr_record mrs')) in *.
  assert ((mx * D + R) `div` (D * 2 ^ k) = mx `div` 2 ^ k) as Hfloor.
  { rewrite <- Z.div_div by lia.
    rewrite Z.add_comm, Z.div_add by lia. by rewrite (Z.div_small R D), Z.add_0_l by lia. }
  rewrite Hfloor in HN.
  assert (2 ^ 52 ≤ mx `div` 2 ^ k < 2 ^ 53) as Hq.
  { rewrite !Z.pow_add_r in Hmx by lia. split.
    - apply Z.div_le_lower_bound; lia.
    - apply Z.div_lt_upper_bound; lia. }
  exists N. split; [lia|]. split; [lia|]. split; [lia|]. split.
  { intros -> ->. rewrite Z.add_0_r, Z.pow_0_r, Z.mul_1_r in Hex.
    rewrite Z.mod_mul, Z.div_mul in Hex by lia. by apply Hex. }
  unfold shr_fexp.
  case_bool_decide as HN53.
  - assert (Zdigits2 N = 53) as ->.
    { destruct N as [|p|p]; [lia| |lia]. cbn [Zdigits2].
      apply Zdigits2_unique. lia. }
    assert (fexp 53 1024 (53 + (ex + k)) - (ex + k) = 0) as ->
      by (unfold fexp, emin; lia).
    cbn [shr shr_record_of_loc shr_m].
    destruct N as [|p|p]; [lia| |lia].
    rewrite (proj2 (Z.leb_le _ _)) by lia. done.
  - assert (N = 2 ^ 53) as HN' by lia. rewrite HN'.
    change (Zdigits2 (2 ^ 53)) with 54.
    assert (fexp 53 1024 (54 + (ex + k)) - (ex + k) = 1) as ->
      by (unfold fexp, emin; lia).
    change (shr (shr_record_of_loc (2 ^ 53) loc_Exact) (ex + k) 1)
      with ({| shr_m := 2 ^ 52; shr_r := false; shr_s := false |}, ex + k + 1).
    change (shr_m {| shr_m := 2 ^ 52; shr_r := false; shr_s := false |})
      with (Z.pos (Z.to_pos (2 ^ 52))). cbv iota beta.
    rewrite (proj2 (Z.leb_le _ _)) by lia. done.
Qed.

(** The same, with the two shapes of the result folded into one: a
    mantissa of 53 digits and an error of at most half a unit in the last
    place. *)
Lemma binary_round_aux_half_ulp (mx ex : Z) (lx : location) (D R k : Z) :
  0 < D → 0 ≤ R < D → located D R lx →
  0 ≤ k → 2 ^ (52 + k) ≤ mx < 2 ^ (53 + k) →
  -1074 ≤ ex + k → ex + k < 971 →
  ∃ m j, binary_round_aux 53 1024 false mx ex lx = S754_finite false m (ex + j)
         ∧ 2 ^ 52 ≤ Z.pos m < 2 ^ 53
         ∧ k ≤ j ≤ k + 1
         ∧ 2 * (Z.pos m * 2 ^ j * D) ≤ 2 * (mx * D + R) + D * 2 ^ k
         ∧ 2 * (mx * D + R) ≤ 2 * (Z.pos m * 2 ^ j * D) + D * 2 ^ k.
Proof.
  intros HD HR Hl Hk Hmx Hlo Hhi.
  destruct (binary_round_aux_normal mx ex lx D R k HD HR Hl Hk Hmx Hlo Hhi)
    as (N & HN & Hup & Hdown & _ & Hres).
  rewrite Hres. case_bool_decide as HN53.
  - exists (Z.to_pos N), k. rewrite Z2Pos.id by lia.
    split; [done|]. split; [lia|]. split; [lia|]. split; lia.
  - assert (N = 2 ^ 53) as -> by lia.
    exists (Z.to_pos (2 ^ 52)), (k + 1).
    split; [f_equal; lia|]. split; [done|]. split; [lia|].
    rewrite Z.pow_add_r by lia.
    change (Z.pos (Z.to_pos (2 ^ 52)) * (2 ^ k * 2 ^ 1)) with (2 ^ 52 * (2 ^ k * 2)).
    split; lia.
Qed.

Lemma new_location_located (D R : Z) :
  0 < D → 0 ≤ R < D → located D R (new_location D R).
Proof.
  intros HD HR. unfold new_location, new_location_even, new_location_odd.
  destruct (Z.even D) eqn:Hev.
  - destruct (Z.eqb_spec R 0) as [->|Hne]; [done|].
    destruct (Z.compare_spec (2 * R) D); cbn; lia.
  - destruct (Z.eqb_spec R 0) as [->|Hne]; [done|].
    assert (Z.odd D = true) as Hodd by (by rewrite <- Z.negb_even, Hev).
    apply Z.odd_spec in Hodd as [x Hx].
    destruct (Z.compare_spec (2 * R + 1) D); cbn; lia.
Qed.

Lemma iter_xO (p q : positive) :
  Z.pos (Pos.iter xO p q) = Z.pos p * 2 ^ Z.pos q.
Proof.
  induction q as [|q IH] using Pos.peano_ind.
  - cbn. lia.
  - rewrite Pos.iter_succ, Pos2Z.inj_xO, IH, Pos2Z.inj_succ, Z.pow_succ_r; lia.
Qed.

(** **** Whole numbers as doubles *)

Lemma ofZ_normal (n d : Z) :
  1 ≤ d ≤ 53 → 2 ^ (d - 1) ≤ n < 2 ^ d →
  Float.ofZ n = S754_finite false (Z.to_pos (n * 2 ^ (53 - d))) (d - 53).
Proof.
  intros Hd Hn.
  assert (0 < 2 ^ (d - 1)) as Hp by (apply Z.pow_pos_nonneg; lia).
  destruct n as [|p|p]; [lia| |lia].
  pose proof (Zdigits2_unique p d Hn) as Hdig.
  unfold Float.ofZ, binary_normalize, binary_round.
  assert (fexp Float.prec Float.emax (Z.pos (digits2_pos p) + 0) = d - 53) as ->
    by (rewrite Hdig; unfold fexp, emin, Float.prec, Float.emax; lia).
  assert (∃ mz, shl_align p 0 (d - 53) = (mz, d - 53)
                ∧ Z.pos mz = Z.pos p * 2 ^ (53 - d)) as (mz & -> & Hmz).
  { unfold shl_align. destruct (d - 53 - 0) as [|q|q] eqn:Hs; [|lia|].
    - exists p. replace (d - 53) with 0 by lia.
      replace (53 - d) with 0 by lia. split; [done|]. lia.
    - exists (Pos.iter xO p q). split; [done|].
      rewrite iter_xO. f_equal. f_equal. lia. }
  assert (2 ^ (52 + 0) ≤ Z.pos mz < 2 ^ (53 + 0)) as Hmzb.
  { rewrite Hmz. replace (52 + 0) with ((d - 1) + (53 - d)) by lia.
    replace (53 + 0) with (d + (53 - d)) by lia.
    rewrite !Z.pow_add_r by lia.
    assert (0 < 2 ^ (53 - d)) by (apply Z.pow_pos_nonneg; lia). nia. }
  destruct (binary_round_aux_normal (Z.pos mz) (d - 53) loc_Exact 1 0 0)
    as (N & HN & _ & _ & Hex & Hres); [lia|lia|done|lia|done|lia|lia|].
  rewrite (Hex eq_refl eq_refl) in Hres. unfold Float.prec, Float.emax.
  rewrite Hres, bool_decide_eq_true_2 by (cbn in Hmzb; lia).
  f_equal; [|lia]. rewrite <- Hmz. done.
Qed.

(** The number of binary digits of a positive integer. *)
Lemma digits_exist (n : Z) :
  0 < n → ∃ d, 1 ≤ d ∧ 2 ^ (d - 1) ≤ n < 2 ^ d.
Proof.
  intros Hn. destruct n as [|p|p]; [lia| |lia].
  exists (Z.pos (digits2_pos p)). split; [lia|]. apply Zdigits2_bounds.
Qed.

Lemma digits_le (n d b : Z) :
  0 ≤ b → 2 ^ (d - 1) ≤ n < 2 ^ d → n < 2 ^ b → d ≤ b.
Proof.
  intros Hb [Hlo _] Hn.
  destruct (decide (d ≤ b)) as [|Hgt]; [done|].
  assert (2 ^ b ≤ 2 ^ (d - 1)) by (apply Z.pow_le_mono_r; lia). lia.
Qed.

Lemma ofZ_ltb (a b : Z) :
  0 < a < 2 ^ 53 → 0 < b < 2 ^ 53 →
  SFltb (Float.ofZ a) (Float.ofZ b) = bool_decide (a < b).
Proof.
  intros Ha Hb.
  destruct (digits_exist a) as (da & Hda & Hab); [lia|].
  destruct (digits_exist b) as (db & Hdb & Hbb); [lia|].
  pose proof (digits_le a da 53 ltac:(lia) Hab ltac:(lia)).
  pose proof (digits_le b db 53 ltac:(lia) Hbb ltac:(lia)).
  rewrite (ofZ_normal a da), (ofZ_normal b db) by (done || lia).
  unfold SFltb, SFcompare.
  destruct (Z.compare_spec (da - 53) (db - 53)) as [Heq|Hlt|Hgt].
  - assert (da = db) as -> by lia.
    assert (0 < 2 ^ (53 - db)) by (apply Z.pow_pos_nonneg; lia).
    rewrite Pos.compare_cont_spec. cbn [Pos.switch_Eq].
    rewrite <- Z2Pos.inj_compare by nia.
    destruct (Z.compare_spec (a * 2 ^ (53 - db)) (b * 2 ^ (53 - db)));
      symmetry; first [apply bool_decide_eq_true_2|apply bool_decide_eq_false_2]; nia.
  - assert (2 ^ da ≤ 2 ^ (db - 1)) by (apply Z.pow_le_mono_r; lia).
    symmetry; apply bool_decide_eq_true_2; lia.
  - assert (2 ^ db ≤ 2 ^ (da - 1)) by (apply Z.pow_le_mono_r; lia).
    symmetry; apply bool_decide_eq_false_2; lia.
Qed.

Lemma scaledSize_cases (w h : Z) :
  0 < w < 2 ^ 32 → 0 < h < 2 ^ 32 →
  scaledSize (Float.ofZ w) (Float.ofZ h)
  = if bool_decide (h < w) then
      if bool_decide (800 < w)
      then (Float.ofZ 800,
            Float.mul (Float.ofZ h) (Float.div (Float.ofZ 800) (Float.ofZ w)))
      else (Float.ofZ w, Float.ofZ h)
    else
      if bool_decide (800 < h)
      then (Float.mul (Float.ofZ w) (Float.div (Float.ofZ 800) (Float.ofZ h)),
            Float.ofZ 800)
      else (Float.ofZ w, Float.ofZ h).
Proof.
  intros Hw Hh. unfold scaledSize, Float.gtb, MAX_WIDTH, MAX_HEIGHT.
  rewrite !ofZ_ltb by lia. done.
Qed.

Lemma toUint32_ofZ (n : Z) : 0 < n < 2 ^ 32 → Float.toUint32 (Float.ofZ n) = n.
Proof.
  intros Hn.
  destruct (digits_exist n) as (d & Hd & Hnd); [lia|].
  pose proof (digits_le n d 32 ltac:(lia) Hnd ltac:(lia)) as Hd32.
  rewrite (ofZ_normal n d) by (done || lia).
  assert (0 < 2 ^ (53 - d)) as Hp by (apply Z.pow_pos_nonneg; lia).
  unfold Float.toUint32. rewrite bool_decide_eq_false_2 by lia.
  rewrite Z2Pos.id by nia. replace (- (d - 53)) with (53 - d) by lia.
  rewrite Z.div_mul by lia. apply Z.mod_small. lia.
Qed.

(** **** Values of doubles as real numbers *)

Module FloatFacts.
Import Reals Lra FloatValue.
Local Open Scope R_scope.

Lemma bpow_pos (e : Z) : 0 < powerRZ 2 e.
Proof. apply powerRZ_lt. lra. Qed.

Lemma bpow_add (a b : Z) : powerRZ 2 (a + b) = powerRZ 2 a * powerRZ 2 b.
Proof. apply powerRZ_add. lra. Qed.

Lemma bpow_IZR (k : Z) : (0 ≤ k)%Z → IZR (2 ^ k) = powerRZ 2 k.
Proof.
  intros Hk. rewrite <- (Z2Nat.id k) by done.
  rewrite <- pow_IZR, <- pow_powerRZ. done.
Qed.

Lemma F2R_pos (m : positive) (e : Z) : 0 < F2R m e.
Proof.
  unfold F2R. apply Rmult_lt_0_compat; [|apply bpow_pos].
  apply IZR_lt. lia.
Qed.

Lemma u_pos : 0 < u.
Proof. unfold u. apply Rinv_0_lt_compat, IZR_lt. lia. Qed.

(** A relative error bound between integers, moved to the reals and
    scaled by a power of two. *)
Lemma rel_error_IZR (a b : Z) (e : Z) :
  (2 ^ 53 * (a - b) ≤ b)%Z → (2 ^ 53 * (b - a) ≤ b)%Z →
  IZR b * powerRZ 2 e * (1 - u) <= IZR a * powerRZ 2 e
  ∧ IZR a * powerRZ 2 e <= IZR b * powerRZ 2 e * (1 + u).
Proof.
  intros H1 H2. apply IZR_le in H1, H2.
  rewrite mult_IZR, minus_IZR in H1, H2.
  pose proof (bpow_pos e) as He.
  assert (0 < IZR (2 ^ 53)) as H53 by (apply IZR_lt; lia).
  assert (u * IZR (2 ^ 53) = 1) as Hu by (unfold u; field; lra).
  set (U := IZR (2 ^ 53)) in *. set (t := powerRZ 2 e) in *.
  assert (IZR a - IZR b <= IZR b * u) as Ha.
  { apply (Rmult_le_reg_l U); [done|].
    replace (U * (IZR b * u)) with (IZR b * (u * U)) by ring. rewrite Hu. lra. }
  assert (IZR b - IZR a <= IZR b * u) as Hb.
  { apply (Rmult_le_reg_l U); [done|].
    replace (U * (IZR b * u)) with (IZR b * (u * U)) by ring. rewrite Hu. lra. }
  split.
  - replace (IZR b * t * (1 - u)) with ((IZR b - IZR b * u) * t) by ring.
    apply Rmult_le_compat_r; lra.
  - replace (IZR b * t * (1 + u)) with ((IZR b + IZR b * u) * t) by ring.
    apply Rmult_le_compat_r; lra.
Qed.

(** Multiplication and division of normal doubles: the result is normal
    and within a factor [1 ± u] of the exact product or quotient. *)

Lemma mul_normal (m1 m2 : positive) (e1 e2 : Z) :
  normal m1 e1 → normal m2 e2 →
  (-1074 ≤ e1 + e2 + 52)%Z → (e1 + e2 + 53 < 971)%Z →
  ∃ m e, Float.mul (S754_finite false m1 e1) (S754_finite false m2 e2)
         = S754_finite false m e
         ∧ normal m e
         ∧ (e1 + e2 + 52 ≤ e ≤ e1 + e2 + 54)%Z
         ∧ F2R m1 e1 * F2R m2 e2 * (1 - u) <= F2R m e
         ∧ F2R m e <= F2R m1 e1 * F2R m2 e2 * (1 + u).
Proof.
  intros [Hm1 He1] [Hm2 He2] Hlo Hhi.
  unfold Float.mul, SFmul, Float.prec, Float.emax. cbn [xorb].
  rewrite Pos2Z.inj_mul.
  set (P := (Z.pos m1 * Z.pos m2)%Z).
  assert (2 ^ 104 ≤ P < 2 ^ 106)%Z as HP by (unfold P; nia).
  assert (∃ k, (52 ≤ k ≤ 53 ∧ 2 ^ (52 + k) ≤ P < 2 ^ (53 + k))%Z) as (k & Hk & HPk).
  { destruct (decide (P < 2 ^ 105)%Z); [exists 52%Z|exists 53%Z]; cbn; lia. }
  destruct (binary_round_aux_half_ulp P (e1 + e2) loc_Exact 1 0 k)
    as (m & j & Hres & Hm & Hj & Hup & Hdown);
    [lia|lia|done|lia|done|lia|lia|].
  exists m, (e1 + e2 + j)%Z. split; [done|].
  split; [split; [done|lia]|]. split; [lia|].
  assert (0 < 2 ^ k)%Z as Hpk by (apply Z.pow_pos_nonneg; lia).
  assert (2 ^ (52 + k) = 2 ^ 52 * 2 ^ k)%Z as Hsplit
    by (apply Z.pow_add_r; lia).
  destruct (rel_error_IZR (Z.pos m * 2 ^ j) P (e1 + e2)) as [Hl Hu];
    [lia|lia|].
  assert (F2R m (e1 + e2 + j) = IZR (Z.pos m * 2 ^ j) * powerRZ 2 (e1 + e2)) as ->.
  { unfold F2R. rewrite mult_IZR, bpow_IZR by lia.
    replace (e1 + e2 + j)%Z with (j + (e1 + e2))%Z by lia.
    rewrite bpow_add. ring. }
  assert (F2R m1 e1 * F2R m2 e2 = IZR P * powerRZ 2 (e1 + e2)) as ->.
  { unfold F2R, P. rewrite mult_IZR, bpow_add. ring. }
  done.
Qed.

Lemma div_normal (m1 m2 : positive) (e1 e2 : Z) :
  normal m1 e1 → normal m2 e2 →
  (-1074 ≤ e1 - e2 - 53)%Z → (e1 - e2 - 52 < 971)%Z →
  ∃ m e, Float.div (S754_finite false m1 e1) (S754_finite false m2 e2)
         = S754_finite false m e
         ∧ normal m e
         ∧ (e1 - e2 - 53 ≤ e ≤ e1 - e2 - 51)%Z
         ∧ F2R m1 e1 * (1 - u) <= F2R m e * F2R m2 e2
         ∧ F2R m e * F2R m2 e2 <= F2R m1 e1 * (1 + u).
Proof.
  intros [Hm1 He1] [Hm2 He2] Hlo Hhi.
  unfold Float.div, SFdiv, SFdiv_core_binary, Float.prec, Float.emax.
  cbn [xorb Zdigits2].
  rewrite (Zdigits2_unique m1 53), (Zdigits2_unique m2 53) by done.
  assert (Z.min (fexp 53 1024 (53 + e1 - (53 + e2))) (e1 - e2)
          = e1 - e2 - 53)%Z as -> by (unfold fexp, emin; lia).
  replace (e1 - e2 - (e1 - e2 - 53))%Z with 53%Z by lia.
  rewrite Z.shiftl_mul_pow2 by lia.
  pose proof (Z_div_mod (Z.pos m1 * 2 ^ 53) (Z.pos m2) ltac:(lia)) as Hdm.
  destruct (Z.div_eucl (Z.pos m1 * 2 ^ 53) (Z.pos m2)) as [q r].
  destruct Hdm as [Hdm Hr].
  assert (2 ^ 52 ≤ q < 2 ^ 54)%Z as Hq by nia.
  assert (∃ k, (0 ≤ k ≤ 1 ∧ 2 ^ (52 + k) ≤ q < 2 ^ (53 + k))%Z) as (k & Hk & Hqk).
  { destruct (decide (q < 2 ^ 53)%Z); [exists 0%Z|exists 1%Z]; cbn; lia. }
  destruct (binary_round_aux_half_ulp q (e1 - e2 - 53) (new_location (Z.pos m2) r)
              (Z.pos m2) r k)
    as (m & j & Hres & Hm & Hj & Hup & Hdown);
    [lia|lia|by apply new_location_located|lia|done|lia|lia|].
  exists m, (e1 - e2 - 53 + j)%Z. split; [done|].
  split; [split; [done|lia]|]. split; [lia|].
  assert (0 < 2 ^ k)%Z as Hpk by (apply Z.pow_pos_nonneg; lia).
  assert (2 ^ (52 + k) = 2 ^ 52 * 2 ^ k)%Z as Hsplit
    by (apply Z.pow_add_r; lia).
  destruct (rel_error_IZR (Z.pos m * 2 ^ j * Z.pos m2) (Z.pos m1 * 2 ^ 53)
              (e1 - 53)) as [Hl Hu]; [nia|nia|].
  assert (F2R m (e1 - e2 - 53 + j) * F2R m2 e2
          = IZR (Z.pos m * 2 ^ j * Z.pos m2) * powerRZ 2 (e1 - 53)) as ->.
  { unfold F2R. rewrite !mult_IZR, bpow_IZR by lia.
    replace (e1 - e2 - 53 + j)%Z with (j + ((e1 - 53) + - e2))%Z by lia.
    rewrite !bpow_add.
    pose proof (bpow_add e2 (- e2)) as Hinv.
    rewrite Z.add_opp_diag_r in Hinv. cbn [powerRZ] in Hinv.
    transitivity (IZR (Z.pos m) * powerRZ 2 j * IZR (Z.pos m2) * powerRZ 2 (e1 - 53)
                  * (powerRZ 2 e2 * powerRZ 2 (- e2))); [ring|].
    rewrite <- Hinv. ring. }
  assert (F2R m1 e1 = IZR (Z.pos m1 * 2 ^ 53) * powerRZ 2 (e1 - 53)) as ->.
  { unfold F2R. rewrite mult_IZR, bpow_IZR by lia.
    replace e1 with (53 + (e1 - 53))%Z at 1 by lia.
    rewrite bpow_add. ring. }
  done.
Qed.

(** Whole numbers as doubles, and back. *)

Lemma ofZ_exact (n : Z) :
  (0 < n < 2 ^ 53)%Z →
  ∃ m e, Float.ofZ n = S754_finite false m e ∧ normal m e
         ∧ (-52 ≤ e ≤ 0)%Z ∧ F2R m e = IZR n.
Proof.
  intros Hn.
  destruct (digits_exist n) as (d & Hd & Hnd); [lia|].
  pose proof (digits_le n d 53 ltac:(lia) Hnd ltac:(lia)) as Hd53.
  assert (0 < 2 ^ (53 - d))%Z as Hp by (apply Z.pow_pos_nonneg; lia).
  assert (2 ^ 52 = 2 ^ (d - 1) * 2 ^ (53 - d))%Z as H52
    by (rewrite <- Z.pow_add_r by lia; f_equal; lia).
  assert (2 ^ 53 = 2 ^ d * 2 ^ (53 - d))%Z as H53
    by (rewrite <- Z.pow_add_r by lia; f_equal; lia).
  exists (Z.to_pos (n * 2 ^ (53 - d))), (d - 53)%Z.
  split; [by apply ofZ_normal|].
  split; [split; [rewrite Z2Pos.id by nia; nia|lia]|]. split; [lia|].
  unfold F2R. rewrite Z2Pos.id by nia.
  rewrite mult_IZR, bpow_IZR by lia.
  rewrite Rmult_assoc, <- bpow_add.
  replace (53 - d + (d - 53))%Z with 0%Z by lia. cbn [powerRZ]. ring.
Qed.

(** The whole part of a double with a negative exponent and a value
    below 2^32. *)
Lemma toUint32_floor (m : positive) (e : Z) :
  (e < 0)%Z → F2R m e < IZR (2 ^ 32) →
  let c := Float.toUint32 (S754_finite false m e) in
  (0 ≤ c)%Z ∧ IZR c <= F2R m e ∧ F2R m e < IZR c + 1.
Proof.
  intros He Hlt.
  assert (0 < 2 ^ (- e))%Z as Hp by (apply Z.pow_pos_nonneg; lia).
  pose proof (Z.div_mod (Z.pos m) (2 ^ (- e)) ltac:(lia)) as Hdm.
  pose proof (Z.mod_pos_bound (Z.pos m) (2 ^ (- e)) Hp) as Hmod.
  set (c0 := (Z.pos m `div` 2 ^ (- e))%Z) in *.
  assert (0 ≤ c0)%Z as Hc0 by (apply Z.div_pos; lia).
  assert (F2R m e * IZR (2 ^ (- e)) = IZR (Z.pos m)) as Hval.
  { unfold F2R. rewrite bpow_IZR by lia. rewrite Rmult_assoc, <- bpow_add.
    replace (e + - e)%Z with 0%Z by lia. cbn [powerRZ]. ring. }
  assert (0 < IZR (2 ^ (- e))) as HpR by (by apply IZR_lt).
  assert (IZR c0 <= F2R m e ∧ F2R m e < IZR c0 + 1) as [Hle Hlt'].
  { split.
    - apply (Rmult_le_reg_r (IZR (2 ^ (- e)))); [done|].
      rewrite Hval, <- mult_IZR. apply IZR_le. lia.
    - apply (Rmult_lt_reg_r (IZR (2 ^ (- e)))); [done|].
      rewrite Hval.
      replace ((IZR c0 + 1) * IZR (2 ^ (- e)))
        with (IZR ((c0 + 1) * 2 ^ (- e))) by (rewrite mult_IZR, plus_IZR; ring).
      apply IZR_lt. lia. }
  assert (c0 < 2 ^ 32)%Z as Hc32 by (apply lt_IZR; lra).
  unfold Float.toUint32. rewrite bool_decide_eq_false_2 by lia.
  fold c0. rewrite Z.mod_small by lia. done.
Qed.

(** Comparison of normal doubles agrees with their values. *)
Lemma leb_normal (m1 m2 : positive) (e1 e2 : Z) :
  normal m1 e1 → normal m2 e2 → F2R m1 e1 <= F2R m2 e2 →
  Float.leb (S754_finite false m1 e1) (S754_finite false m2 e2) = true.
Proof.
  intros [Hm1 _] [Hm2 _] Hle. unfold Float.leb, SFleb, SFcompare.
  destruct (Z.compare_spec e1 e2) as [->|Hlt|Hgt]; [|done|].
  - unfold F2R in Hle. pose proof (bpow_pos e2) as Hp.
    apply Rmult_le_reg_r in Hle; [|done]. apply le_IZR in Hle.
    rewrite Pos.compare_cont_spec. cbn [Pos.switch_Eq].
    destruct (Pos.compare_spec m1 m2); [done|done|lia].
  - exfalso. unfold F2R in Hle.
    assert (powerRZ 2 e1 = IZR (2 ^ (e1 - e2)) * powerRZ 2 e2) as He.
    { rewrite bpow_IZR, <- bpow_add by lia. f_equal. lia. }
    rewrite He in Hle. pose proof (bpow_pos e2) as Hp.
    rewrite <- Rmult_assoc in Hle.
    apply Rmult_le_reg_r in Hle; [|done].
    rewrite <- mult_IZR in Hle. apply le_IZR in Hle.
    assert (2 ^ 1 ≤ 2 ^ (e1 - e2))%Z by (apply Z.pow_le_mono_r; lia).
    nia.
Qed.

Lemma bpow_le (a b : Z) : (a ≤ b)%Z → powerRZ 2 a <= powerRZ 2 b.
Proof.
  intros Hab. replace b with ((b - a) + a)%Z by lia.
  rewrite bpow_add, <- (bpow_IZR (b - a)) by lia.
  pose proof (bpow_pos a).
  assert (1 <= IZR (2 ^ (b - a))).
  { apply IZR_le. assert (0 < 2 ^ (b - a))%Z by (apply Z.pow_pos_nonneg; lia). lia. }
  rewrite <- (Rmult_1_l (powerRZ 2 a)) at 1.
  apply Rmult_le_compat_r; lra.
Qed.

Lemma bpow_neg (k : Z) : (0 ≤ k)%Z → powerRZ 2 (- k) = / IZR (2 ^ k).
Proof.
  intros Hk. assert (0 < IZR (2 ^ k)) as Hp.
  { apply IZR_lt. apply Z.pow_pos_nonneg; lia. }
  apply (Rmult_eq_reg_l (IZR (2 ^ k))); [|lra].
  rewrite Rinv_r by lra. rewrite bpow_IZR, <- bpow_add by done.
  by replace (k + - k)%Z with 0%Z by lia.
Qed.

Lemma normal_exponent_below (m : positive) (e b : Z) :
  normal m e → F2R m e < powerRZ 2 b → (e + 52 < b)%Z.
Proof.
  intros [Hm _] Hlt. destruct (decide (e + 52 < b)%Z) as [|Hge]; [done|]. exfalso.
  pose proof (bpow_le b (52 + e) ltac:(lia)) as Hle.
  rewrite bpow_add, <- (bpow_IZR 52) in Hle by lia.
  assert (IZR (2 ^ 52) * powerRZ 2 e <= F2R m e); [|lra].
  unfold F2R. apply Rmult_le_compat_r; [pose proof (bpow_pos e); lra|].
  apply IZR_le. lia.
Qed.

Lemma normal_exponent_above (m : positive) (e b : Z) :
  normal m e → powerRZ 2 b <= F2R m e → (b < e + 53)%Z.
Proof.
  intros [Hm _] Hle. destruct (decide (b < e + 53)%Z) as [|Hge]; [done|]. exfalso.
  pose proof (bpow_le (53 + e) b ltac:(lia)) as Hle'.
  rewrite bpow_add, <- (bpow_IZR 53) in Hle' by lia.
  assert (F2R m e < IZR (2 ^ 53) * powerRZ 2 e); [|lra].
  unfold F2R. apply Rmult_lt_compat_r; [apply bpow_pos|].
  apply IZR_lt. lia.
Qed.

(** A double that is at most [800 * (1 + u)²] is at most the double that
    follows 800. *)
Lemma leb_next800 (m : positive) (e : Z) :
  normal m e → F2R m e <= 800 * (1 + u) * (1 + u) →
  Float.leb (S754_finite false m e) next800 = true.
Proof.
  intros Hn Hle.
  change next800 with (S754_finite false 7036874417766401 (-43)).
  assert (u = / 9007199254740992) as Hu by done.
  assert (e + 52 < 10)%Z as He.
  { apply (normal_exponent_below m); [done|].
    change (powerRZ 2 10) with (2 ^ 10). rewrite Hu in Hle. lra. }
  unfold Float.leb, SFleb, SFcompare.
  destruct (Z.compare_spec e (-43)) as [->|Hlt|Hgt]; [|done|lia].
  rewrite Pos.compare_cont_spec. cbn [Pos.switch_Eq].
  assert (Z.pos m < 7036874417766402)%Z as Hm; [|destruct (Pos.compare_spec m 7036874417766401); [done|done|lia]].
  assert (powerRZ 2 (-43) = / IZR (2 ^ 43)) as H43
    by exact (bpow_neg 43 ltac:(lia)).
  apply lt_IZR. unfold F2R in Hle. rewrite H43 in Hle.
  change (2 ^ 43)%Z with 8796093022208%Z in Hle. rewrite Hu in Hle. lra.
Qed.

(** The side that is scaled down: [S] is the shorter side and [L] the
    longer one, above 800.  The double [S * (800 / L)] truncates to a
    whole number within one of the exact quotient, it is not above [S],
    and it is at most the double that follows 800. *)
Lemma scaled_side (S L : Z) :
  (0 < S ≤ L)%Z → (800 < L < 2 ^ 32)%Z →
  ∃ m e, Float.mul (Float.ofZ S) (Float.div (Float.ofZ 800) (Float.ofZ L))
         = S754_finite false m e
         ∧ (let c := Float.toUint32 (S754_finite false m e) in
            0 ≤ c ∧ c * L ≤ 800 * S ∧ 800 * S ≤ (c + 1) * L)%Z
         ∧ Float.leb (S754_finite false m e) (Float.ofZ S) = true
         ∧ Float.leb (S754_finite false m e) next800 = true
         ∧ approximates (S754_finite false m e) (800 * S) L.
Proof.
  intros HS HL.
  destruct (ofZ_exact S) as (ms & es & HofS & HnS & Hes & HvS); [lia|].
  destruct (ofZ_exact L) as (ml & el & HofL & HnL & Hel & HvL); [lia|].
  destruct (ofZ_exact 800) as (ma & ea & HofA & HnA & Hea & HvA); [lia|].
  rewrite HofS, HofL, HofA.
  destruct (div_normal ma ml ea el HnA HnL) as (mq & eq & -> & Hnq & Heq & Hq1 & Hq2);
    [lia|lia|].
  destruct (mul_normal ms mq es eq HnS Hnq) as (m & e & -> & Hn & He & Hr1 & Hr2);
    [lia|lia|].
  exists m, e. split; [done|].
  rewrite HvA, HvL in Hq1, Hq2. rewrite HvS in Hr1, Hr2.
  pose proof (F2R_pos mq eq) as Hvq. pose proof (F2R_pos m e) as Hvr.
  set (vq := F2R mq eq) in *. set (vr := F2R m e) in *.
  assert (1 <= IZR S) as Hs1 by (apply IZR_le; lia).
  assert (IZR S <= IZR L) as Hsl by (apply IZR_le; lia).
  assert (801 <= IZR L) as Hl1 by (apply IZR_le; lia).
  assert (IZR L <= 4294967295) as Hl2 by (apply IZR_le; lia).
  set (s := IZR S) in *. set (l := IZR L) in *.
  assert (u = / 9007199254740992) as Hu by done.
  pose proof u_pos as Hupos.
  assert (vr * l <= 800 * s * (1 + u) * (1 + u)) as HA.
  { apply Rle_trans with (s * vq * (1 + u) * l).
    - apply Rmult_le_compat_r; lra.
    - replace (s * vq * (1 + u) * l) with (s * (1 + u) * (vq * l)) by ring.
      replace (800 * s * (1 + u) * (1 + u)) with (s * (1 + u) * (800 * (1 + u))) by ring.
      apply Rmult_le_compat_l; [|lra].
      apply Rmult_le_pos; lra. }
  assert (800 * s * (1 - u) * (1 - u) <= vr * l) as HB.
  { apply Rle_trans with (s * vq * (1 - u) * l).
    - replace (s * vq * (1 - u) * l) with (s * (1 - u) * (vq * l)) by ring.
      replace (800 * s * (1 - u) * (1 - u)) with (s * (1 - u) * (800 * (1 - u))) by ring.
      apply Rmult_le_compat_l; [|lra].
      apply Rmult_le_pos; [lra|]. rewrite Hu. lra.
    - apply Rmult_le_compat_r; lra. }
  assert (vr <= 800 * (1 + u) * (1 + u)) as Hvr800.
  { apply (Rmult_le_reg_r l); [lra|].
    apply Rle_trans with (800 * s * (1 + u) * (1 + u)); [done|].
    replace (800 * s * (1 + u) * (1 + u)) with (800 * (1 + u) * (1 + u) * s) by ring.
    apply Rmult_le_compat_l; [|done].
    apply Rmult_le_pos; [|lra]. apply Rmult_le_pos; lra. }
  assert (vr <= s) as Hvrs.
  { apply Rle_trans with (s * vq * (1 + u)); [done|].
    assert (vq * 801 <= vq * l) as H801 by (apply Rmult_le_compat_l; lra).
    assert (vq * (1 + u) <= 1) as Hq by (rewrite Hu in *; lra).
    rewrite Rmult_assoc. rewrite <- (Rmult_1_r s) at 2.
    apply Rmult_le_compat_l; lra. }
  assert (e < 0)%Z as He0.
  { assert (e + 52 < 10)%Z; [|lia].
    apply (normal_exponent_below m); [done|].
    change (powerRZ 2 10) with (2 ^ 10). fold vr. rewrite Hu in Hvr800. lra. }
  assert (vr < IZR (2 ^ 32)) as H32.
  { change (2 ^ 32)%Z with 4294967296%Z. rewrite Hu in Hvr800. lra. }
  destruct (toUint32_floor m e He0 H32) as (Hc0 & Hc1 & Hc2).
  fold vr in Hc1, Hc2.
  set (c := Float.toUint32 (S754_finite false m e)) in *.
  split; [|split; [by apply leb_normal; [| |rewrite HvS]|]].
  2:{ split; [by apply leb_next800|]. cbn [approximates].
      rewrite mult_IZR. fold vr s l. lra. }
  cbv zeta. split; [done|].
  assert (IZR c * l <= vr * l) as Hcl1 by (apply Rmult_le_compat_r; lra).
  assert (vr * l < (IZR c + 1) * l) as Hcl2 by (apply Rmult_lt_compat_r; lra).
  assert (800 * s * (1 + u) * (1 + u) < 800 * s + 1) as Hnum1 by (rewrite Hu; lra).
  assert (800 * s - 1 < 800 * s * (1 - u) * (1 - u)) as Hnum2 by (rewrite Hu; lra).
  split.
  - assert (c * L < 800 * S + 1)%Z; [|lia]. apply lt_IZR.
    rewrite plus_IZR, !mult_IZR. fold s l. lra.
  - assert (800 * S - 1 < (c + 1) * L)%Z; [|lia]. apply lt_IZR.
    rewrite minus_IZR, !mult_IZR, plus_IZR. fold s l. lra.
Qed.
Lemma ofZ_leb (a b : Z) :
  (0 < a ≤ b)%Z → (b < 2 ^ 53)%Z → Float.leb (Float.ofZ a) (Float.ofZ b) = true.
Proof.
  intros Ha Hb.
  destruct (ofZ_exact a) as (ma & ea & -> & Hna & _ & Hva); [lia|].
  destruct (ofZ_exact b) as (mb & eb & -> & Hnb & _ & Hvb); [lia|].
  apply leb_normal; [done..|]. rewrite Hva, Hvb. apply IZR_le. lia.
Qed.

Lemma ofZ_leb_next800 (a : Z) :
  (0 < a ≤ 800)%Z → Float.leb (Float.ofZ a) next800 = true.
Proof.
  intros Ha.
  destruct (ofZ_exact a) as (ma & ea & -> & Hna & _ & Hva); [lia|].
  apply leb_next800; [done|]. rewrite Hva.
  assert (IZR a <= 800) by (apply IZR_le; lia).
  pose proof u_pos. nra.
Qed.
End FloatFacts.

(** C9 (as amended).  For an image of [w] by [h] pixels, both whole
    numbers above 0 and below 2^32, the resize logic keeps both sizes when
    neither is above 800.  Otherwise the longer side (the height when the
    two are equal) becomes exactly 800 and the other side becomes the
    double [side * (800 / longer)].  That double is the exact quotient
    [800 * side / longer] up to two roundings, it is not above the side it
    replaces and not above the double that follows 800.  The canvas, which
    takes the whole part of each size, is at most 800 by 800, never
    larger than the image, and keeps the proportions up to one pixel:
    the scaled side [c] of the canvas has [c * longer ≤ 800 * side ≤
    (c + 1) * longer]. *)
Theorem compressImage_dimensions (w h : Z) :
  0 < w < 2 ^ 32 → 0 < h < 2 ^ 32 →
  let size := scaledSize (Float.ofZ w) (Float.ofZ h) in
  let canvas := canvasSize w h in
  (w ≤ 800 → h ≤ 800 → size = (Float.ofZ w, Float.ofZ h) ∧ canvas = (w, h))
  ∧ (800 < w → h < w →
     size = (Float.ofZ 800,
             Float.mul (Float.ofZ h) (Float.div (Float.ofZ 800) (Float.ofZ w)))
     ∧ FloatValue.approximates size.2 (800 * h) w
     ∧ canvas.1 = 800
     ∧ canvas.2 * w ≤ 800 * h ≤ (canvas.2 + 1) * w)
  ∧ (800 < h → w ≤ h →
     size = (Float.mul (Float.ofZ w) (Float.div (Float.ofZ 800) (Float.ofZ h)),
             Float.ofZ 800)
     ∧ FloatValue.approximates size.1 (800 * w) h
     ∧ canvas.2 = 800
     ∧ canvas.1 * h ≤ 800 * w ≤ (canvas.1 + 1) * h)
  ∧ 0 ≤ canvas.1 ≤ 800 ∧ 0 ≤ canvas.2 ≤ 800
  ∧ canvas.1 ≤ w ∧ canvas.2 ≤ h
  ∧ Float.leb size.1 (Float.ofZ w) = true
  ∧ Float.leb size.2 (Float.ofZ h) = true
  ∧ Float.leb size.1 next800 = true
  ∧ Float.leb size.2 next800 = true.
Proof.
  intros Hw Hh size canvas. subst canvas. unfold canvasSize. fold size.
  subst size. rewrite (scaledSize_cases w h Hw Hh).
  pose proof (toUint32_ofZ w Hw) as Hcw.
  pose proof (toUint32_ofZ h Hh) as Hch.
  pose proof (toUint32_ofZ 800 ltac:(lia)) as Hc800.
  repeat case_bool_decide;
    try (destruct (FloatFacts.scaled_side h w)
           as (m & e & -> & (Hc0 & Hc1 & Hc2) & Hle & Hnx & Hap); [lia|lia|]);
    try (destruct (FloatFacts.scaled_side w h)
           as (m & e & -> & (Hc0 & Hc1 & Hc2) & Hle & Hnx & Hap); [lia|lia|]);
    cbn [fst snd]; rewrite ?Hc800, ?Hcw, ?Hch;
    split_and!;
    first [done | lia | nia
          | apply FloatFacts.ofZ_leb; lia
          | apply FloatFacts.ofZ_leb_next800; lia].
Qed.

Lemma compressImage_dimensions_witness :
  (0 < 1000 < 2 ^ 32 ∧ 0 < 333 < 2 ^ 32)
  ∧ (canvasSize 1000 333).1 = 800
  ∧ (canvasSize 1000 333).2 * 1000 ≤ 800 * 333
    ≤ ((canvasSize 1000 333).2 + 1) * 1000.
Proof.
  assert (0 < 1000 < 2 ^ 32) as Hw by lia.
  assert (0 < 333 < 2 ^ 32) as Hh by lia.
  split; [split; [exact Hw|exact Hh]|].
  destruct (proj1 (proj2 (compressImage_dimensions 1000 333 Hw Hh)))
    as (_ & _ & Hc & Hr); [lia|lia|].
  split; [exact Hc|exact Hr].
Defined.

(** C9, as first stated, fails in both readings of "computed dimensions".
    Read as the doubles [width] and [height]: a square image of 1060 by
    1060 pixels gets the width 800.0000000000001, which is above 800,
    whatever is asked of the proportions.  Read as the whole sizes of the
    canvas: an image of 1000 by 333 pixels gets a canvas of 800 by 266,
    and 1000 * 266 is not 333 * 800. *)
Lemma compressImage_dimensions_counterexample :
  ¬ (∀ w h : Z, 0 < w → 0 < h →
       let size := scaledSize (Float.ofZ w) (Float.ofZ h) in
       Float.leb size.1 (Float.ofZ 800) = true
       ∧ Float.leb size.2 (Float.ofZ 800) = true
       ∧ Float.leb size.1 (Float.ofZ w) = true
       ∧ Float.leb size.2 (Float.ofZ h) = true
       ∧ (w ≤ 800 → h ≤ 800 → size = (Float.ofZ w, Float.ofZ h)))
  ∧ ¬ (∀ w h : Z, 0 < w → 0 < h →
         let canvas := canvasSize w h in
         canvas.1 ≤ 800 ∧ canvas.2 ≤ 800
         ∧ w * canvas.2 = h * canvas.1
         ∧ canvas.1 ≤ w ∧ canvas.2 ≤ h
         ∧ (w ≤ 800 → h ≤ 800 → canvas = (w, h))).
Proof.
  split; intros H.
  - destruct (H 1060 1060 ltac:(lia) ltac:(lia)) as [Hwidth _].
    vm_compute in Hwidth. discriminate Hwidth.
  - destruct (H 1000 333 ltac:(lia) ltac:(lia)) as (_ & _ & Hratio & _).
    vm_compute in Hratio. discriminate Hratio.
Qed.

(** Sizes of the canvas for some images: one that is scaled down, one
    whose scaled side has no whole pixel left, one that is kept, and the
    square one whose computed width is above 800. *)
Lemma canvasSize_examples :
  canvasSize 1000 333 = (800, 266)
  ∧ canvasSize 10000 1 = (800, 0)
  ∧ canvasSize 640 480 = (640, 480)
  ∧ canvasSize 1060 1060 = (800, 800)
  ∧ scaledSize (Float.ofZ 1060) (Float.ofZ 1060) = (next800, Float.ofZ 800).
Proof. by vm_compute. Qed.

(** * Further properties of the code *)

(** ** The evaluator in general *)

Lemma trueFrom_elem (k : nat) (bs : list bool) (i : nat) :
  i ∈ trueFrom k bs ↔ (k ≤ i)%nat ∧ bs !! (i - k)%nat = Some true.
Proof.
  revert k. induction bs as [|b bs IH]; intros k; cbn [trueFrom].
  - rewrite elem_of_nil. split; [done|]. by intros [_ ?].
  - assert (i ∈ trueFrom (S k) bs ↔
            (k < i)%nat ∧ (b :: bs) !! (i - k)%nat = Some true) as Htail.
    { rewrite IH. split; intros [Hle Hl]; (split; [lia|]).
      - replace (i - k)%nat with (S (i - S k)) by lia. done.
      - replace (i - k)%nat with (S (i - S k)) in Hl by lia. done. }
    destruct b.
    + rewrite elem_of_cons, Htail. split.
      * intros [->|[? ?]]; [|split; [lia|done]].
        split; [lia|]. by rewrite Nat.sub_diag.
      * intros [Hle Hl]. destruct (decide (i = k)) as [->|]; [by left|].
        right. split; [lia|done].
    + rewrite Htail. split.
      * intros [? ?]. split; [lia|done].
      * intros [Hle Hl]. destruct (decide (i = k)) as [->|]; [|split; [lia|done]].
        rewrite Nat.sub_diag in Hl. discriminate.
Qed.

(** The set of completed indices holds exactly the indices of the cells
    with a photo. *)
Lemma completedIndices_spec (g : BingoGame) (j : Z) :
  j ∈ completedIndices (Game.cells g) ↔ completeAt g j.
Proof.
  unfold completedIndices, completeAt.
  rewrite elem_of_list_to_set, completedList_trueFrom, list_elem_of_fmap.
  setoid_rewrite trueFrom_elem. setoid_rewrite list_lookup_fmap.
  split.
  - intros (i & -> & _ & Hl). split; [lia|].
    rewrite Nat.sub_0_r, Nat2Z.id in *.
    destruct (Game.cells g !! i) as [c|]; [|done].
    exists c. split; [done|]. by injection Hl.
  - intros (Hj & c & Hc & Hp). exists (Z.to_nat j).
    split; [lia|]. split; [lia|].
    by rewrite Nat.sub_0_r, Hc; cbn; rewrite Hp.
Qed.

Lemma tagIndex_tags (type : string) (st : gmap Z (list string)) (j i : Z)
    (t : string) :
  t ∈ default [] (tagIndex type st j !! i)
  ↔ t ∈ default [] (st !! i) ∨ (i = j ∧ t = type).
Proof.
  unfold tagIndex. destruct (decide (j = i)) as [->|Hne].
  - rewrite lookup_insert_eq. cbn. case_bool_decide as Hin.
    + split; [by left|]. by intros [?|[_ ->]].
    + rewrite elem_of_app, list_elem_of_singleton. split.
      * intros [?| ->]; [by left|by right].
      * intros [?|[_ ->]]; [by left|by right].
  - rewrite lookup_insert_ne by done. split; [by left|].
    intros [?|[-> _]]; done.
Qed.

Lemma foldl_tagIndex_tags (type : string) (indices : list Z)
    (st : gmap Z (list string)) (i : Z) (t : string) :
  t ∈ default [] (foldl (tagIndex type) st indices !! i)
  ↔ t ∈ default [] (st !! i) ∨ (i ∈ indices ∧ t = type).
Proof.
  revert st. induction indices as [|j indices IH]; intros st; cbn [foldl].
  - rewrite elem_of_nil. naive_solver.
  - rewrite IH, tagIndex_tags, elem_of_cons. naive_solver.
Qed.

Lemma forallb_bool_decide {A} (P : A → Prop) `{!∀ x, Decision (P x)}
    (l : list A) :
  forallb (λ x, bool_decide (P x)) l = true ↔ Forall P l.
Proof.
  induction l as [|x l IH]; cbn; [by split|].
  by rewrite andb_true_iff, bool_decide_eq_true, IH, Forall_cons.
Qed.

Lemma checkLine_tags (completed : gset Z) (indices : list Z) (type : string)
    (st : gmap Z (list string)) (i : Z) (t : string) :
  t ∈ default [] ((checkLine completed indices type st).1 !! i)
  ↔ t ∈ default [] (st !! i)
    ∨ (Forall (λ j, j ∈ completed) indices ∧ i ∈ indices ∧ t = type).
Proof.
  unfold checkLine.
  destruct (forallb _ indices) eqn:Hall; cbn [fst].
  - rewrite foldl_tagIndex_tags. apply forallb_bool_decide in Hall.
    naive_solver.
  - split; [by left|]. intros [?|(Hall' & _)]; [done|]. exfalso.
    apply (proj2 (forallb_bool_decide (λ j, j ∈ completed) indices)) in Hall'.
    cbv beta in Hall'. congruence.
Qed.

(** A loop that checks one line per element of [rs]. *)
Lemma checkLines_tags (completed : gset Z) (line : Z → list Z) (type : string)
    (rs : list Z) (st : gmap Z (list string)) (i : Z) (t : string) :
  t ∈ default []
        (foldl (λ st r, (checkLine completed (line r) type st).1) st rs !! i)
  ↔ t ∈ default [] (st !! i)
    ∨ (∃ r, r ∈ rs ∧ Forall (λ j, j ∈ completed) (line r)
            ∧ i ∈ line r ∧ t = type).
Proof.
  revert st. induction rs as [|r rs IH]; intros st; cbn [foldl].
  - setoid_rewrite elem_of_nil. naive_solver.
  - rewrite IH, checkLine_tags. setoid_rewrite elem_of_cons. naive_solver.
Qed.

Lemma linesOf_tags (n : Z) (completed : gset Z) (i : Z) (t : string) :
  t ∈ default [] (linesOf n completed !! i)
  ↔ (t = "row" ∧ ∃ r, 0 ≤ r < n ∧ i ∈ rowIndices n r
                       ∧ Forall (λ j, j ∈ completed) (rowIndices n r))
    ∨ (t = "col" ∧ ∃ c, 0 ≤ c < n ∧ i ∈ colIndices n c
                         ∧ Forall (λ j, j ∈ completed) (colIndices n c))
    ∨ (t = "diag" ∧ (i ∈ d1 n ∧ Forall (λ j, j ∈ completed) (d1 n)
                     ∨ i ∈ d2 n ∧ Forall (λ j, j ∈ completed) (d2 n))).
Proof.
  unfold linesOf. cbn zeta.
  rewrite !checkLine_tags, !checkLines_tags, lookup_empty. cbn [default].
  setoid_rewrite elem_of_seqZ. rewrite elem_of_nil.
  split.
  - intros [[[[Hf|(r & Hr & Hall & Hi & ->)]|(c & Hc & Hall & Hi & ->)]
            |(Hall & Hi & ->)]|(Hall & Hi & ->)].
    + destruct Hf.
    + left. split; [done|]. exists r. split; [lia|done].
    + right; left. split; [done|]. exists c. split; [lia|done].
    + right; right. split; [done|]. by left.
    + right; right. split; [done|]. by right.
  - intros [(-> & r & Hr & Hi & Hall)|[(-> & c & Hc & Hi & Hall)
            |(-> & [[Hi Hall]|[Hi Hall]])]].
    + left; left; left; right. exists r. split; [lia|done].
    + left; left; right. exists c. split; [lia|done].
    + left; right. done.
    + right. done.
Qed.

(** The tags read at an index, line by line. *)
Lemma winsAt_lines (g : BingoGame) (i : Z) (t : string) :
  t ∈ winsAt g i
  ↔ (t = "row" ∧ ∃ r, 0 ≤ r < Game.size g
                       ∧ i ∈ rowIndices (Game.size g) r
                       ∧ lineComplete g (rowIndices (Game.size g) r))
    ∨ (t = "col" ∧ ∃ c, 0 ≤ c < Game.size g
                         ∧ i ∈ colIndices (Game.size g) c
                         ∧ lineComplete g (colIndices (Game.size g) c))
    ∨ (t = "diag"
       ∧ (i ∈ d1 (Game.size g) ∧ lineComplete g (d1 (Game.size g))
          ∨ i ∈ d2 (Game.size g) ∧ lineComplete g (d2 (Game.size g)))).
Proof.
  unfold winsAt, winStatus, lineComplete. rewrite linesOf_tags.
  assert (∀ line, Forall (λ j, j ∈ completedIndices (Game.cells g)) line
                  ↔ Forall (completeAt g) line) as Hline.
  { intros line. apply Forall_proper; [|done]. intros j.
    apply completedIndices_spec. }
  by setoid_rewrite Hline.
Qed.

(** [checkLine] only stores a list after a push, and pushes a tag only
    when the list does not include it. *)
Lemma tagIndex_wf type st j : tagsWellFormed st → tagsWellFormed (tagIndex type st j).
Proof.
  intros Hwf i wins. unfold tagIndex.
  destruct (decide (j = i)) as [->|Hne].
  - rewrite lookup_insert_eq. intros [= <-].
    destruct (st !! i) as [l|] eqn:Hl; cbn.
    + destruct (Hwf _ _ Hl) as [Hne Hnd]. case_bool_decide as Hin; [done|].
      split; [by destruct l|].
      apply NoDup_app. split_and!; [done| |apply NoDup_singleton].
      intros x Hx ->%list_elem_of_singleton. done.
    + rewrite bool_decide_eq_false_2 by apply not_elem_of_nil.
      split; [done|apply NoDup_singleton].
  - rewrite lookup_insert_ne by done. apply Hwf.
Qed.

Lemma checkLine_wf completed indices type st :
  tagsWellFormed st → tagsWellFormed (checkLine completed indices type st).1.
Proof.
  intros Hwf. unfold checkLine. destruct (forallb _ indices); cbn [fst]; [|done].
  revert st Hwf. induction indices as [|j indices IH]; intros st Hwf; [done|].
  cbn [foldl]. by apply IH, tagIndex_wf.
Qed.

Lemma checkLines_wf completed (line : Z → list Z) type rs st :
  tagsWellFormed st →
  tagsWellFormed (foldl (λ st r, (checkLine completed (line r) type st).1) st rs).
Proof.
  revert st. induction rs as [|r rs IH]; intros st Hwf; [done|].
  cbn [foldl]. by apply IH, checkLine_wf.
Qed.

Lemma winStatus_wf (g : BingoGame) : tagsWellFormed (winStatus g).
Proof.
  unfold winStatus, linesOf. cbn zeta.
  do 2 apply checkLine_wf. do 2 apply checkLines_wf.
  intros i wins. by rewrite lookup_empty.
Qed.

Lemma lineComplete_elem (g : BingoGame) (line : list Z) (i : Z) :
  lineComplete g line → i ∈ line → completeAt g i.
Proof. unfold lineComplete. rewrite Forall_forall. auto. Qed.

(** A tagged index is the index of a cell with a photo. *)
Lemma winsAt_completeAt (g : BingoGame) (i : Z) (t : string) :
  t ∈ winsAt g i → completeAt g i.
Proof.
  rewrite winsAt_lines.
  intros [(_ & r & _ & Hi & Hl)|[(_ & c & _ & Hi & Hl)|(_ & [[Hi Hl]|[Hi Hl]])]];
    by eapply lineComplete_elem.
Qed.

(** X1.  What the status map holds, in full: it gives an index the tag
    "row" exactly when the index lies on a row all of whose cells have a
    photo, "col" exactly when it lies on such a column, "diag" exactly
    when it lies on such a diagonal (main or anti), and it never gives any
    other tag. *)
Theorem winStatus_spec (g : BingoGame) (i : Z) (t : string) :
  (∃ wins, winStatus g !! i = Some wins ∧ t ∈ wins)
  ↔ (t = "row" ∧ ∃ r, 0 ≤ r < Game.size g
                       ∧ i ∈ rowIndices (Game.size g) r
                       ∧ lineComplete g (rowIndices (Game.size g) r))
    ∨ (t = "col" ∧ ∃ c, 0 ≤ c < Game.size g
                         ∧ i ∈ colIndices (Game.size g) c
                         ∧ lineComplete g (colIndices (Game.size g) c))
    ∨ (t = "diag"
       ∧ (i ∈ d1 (Game.size g) ∧ lineComplete g (d1 (Game.size g))
          ∨ i ∈ d2 (Game.size g) ∧ lineComplete g (d2 (Game.size g)))).
Proof.
  rewrite <- winsAt_lines. unfold winsAt. split.
  - intros (wins & -> & Ht). exact Ht.
  - destruct (winStatus g !! i) as [wins|]; cbn.
    + intros Ht. by exists wins.
    + by intros ?%elem_of_nil.
Qed.

(** X2.  Whatever the board, an index that the status map holds has at
    least one tag, no tag twice, only tags among "row", "col" and "diag"
    (so at most three), and is the index of a cell with a photo: a cell
    without a photo is never highlighted. *)
Theorem winStatus_entries (g : BingoGame) (i : Z) (wins : list string) :
  winStatus g !! i = Some wins →
  wins ≠ [] ∧ NoDup wins
  ∧ (∀ t, t ∈ wins → t ∈ ["row"; "col"; "diag"])
  ∧ (length wins ≤ 3)%nat
  ∧ completeAt g i.
Proof.
  intros Hi. destruct (winStatus_wf g i wins Hi) as [Hne Hnd].
  assert (winsAt g i = wins) as Hw by (unfold winsAt; by rewrite Hi).
  assert (∀ t, t ∈ wins → t ∈ ["row"; "col"; "diag"]) as Hsub.
  { intros t Ht. rewrite <- Hw in Ht. apply winsAt_lines in Ht.
    destruct Ht as [[-> _]|[[-> _]|[-> _]]]; set_solver. }
  split_and!; try done.
  - change 3%nat with (length ["row"; "col"; "diag"]).
    apply submseteq_length, NoDup_submseteq; [done|]. exact Hsub.
  - destruct wins as [|t wins]; [done|].
    apply (winsAt_completeAt g i t). rewrite Hw. by left.
Qed.

Lemma winStatus_entries_witness :
  winStatus Examples.row0Board !! 1 = Some ["row"]
  ∧ completeAt Examples.row0Board 1.
Proof.
  assert (winStatus Examples.row0Board !! 1 = Some ["row"]) as Hrow
    by (vm_compute; reflexivity).
  split; [exact Hrow|].
  exact (proj2 (proj2 (proj2 (proj2
           (winStatus_entries Examples.row0Board 1 ["row"] Hrow))))).
Defined.

(** Without a photo on the board the status map is empty. *)
Lemma winStatus_no_photo (g : BingoGame) :
  Forall (λ c, hasPhotos c = false) (Game.cells g) → winStatus g = ∅.
Proof.
  intros Hnone. apply map_empty. intros i.
  destruct (winStatus g !! i) as [wins|] eqn:Hi; [exfalso|done].
  destruct (winStatus_wf g i wins Hi) as [Hne _].
  destruct wins as [|t wins]; [done|].
  assert (t ∈ winsAt g i) as Ht by (unfold winsAt; rewrite Hi; by left).
  apply winsAt_completeAt in Ht as (_ & c & Hc & Hp).
  rewrite Forall_forall in Hnone.
  apply list_elem_of_lookup_2, Hnone in Hc. congruence.
Qed.

Lemma isFullHouse_no_photo (g : BingoGame) :
  Forall (λ c, hasPhotos c = false) (Game.cells g) → isFullHouse g = false.
Proof.
  intros Hnone. apply not_true_is_false. intros [Hne Hall]%isFull_spec.
  destruct (Game.cells g) as [|c cs]; [done|].
  apply Forall_cons in Hnone as [? _]. apply Forall_cons in Hall as [? _].
  congruence.
Qed.

(** X3.  When no cell of the board has a photo, or when the size of the
    board is zero or negative, the status map is empty: no index has a
    tag.  In the first case the board is not a full house either. *)
Theorem no_photo_no_lines (g : BingoGame) :
  Forall (λ c, hasPhotos c = false) (Game.cells g) ∨ Game.size g ≤ 0 →
  winStatus g = ∅
  ∧ (Forall (λ c, hasPhotos c = false) (Game.cells g) → isFullHouse g = false).
Proof.
  intros Hcase. split; [|apply isFullHouse_no_photo].
  destruct Hcase as [Hnone|Hsize]; [by apply winStatus_no_photo|].
  apply map_empty. intros i.
  destruct (winStatus g !! i) as [wins|] eqn:Hi; [exfalso|done].
  destruct (winStatus_wf g i wins Hi) as [Hne _].
  destruct wins as [|t wins]; [done|].
  assert (t ∈ winsAt g i) as Ht by (unfold winsAt; rewrite Hi; by left).
  apply winsAt_lines in Ht.
  assert (seqZ 0 (Game.size g) = []) as Hseq.
  { apply length_zero_iff_nil. rewrite length_seqZ. lia. }
  unfold d1, d2, JS.arrayFrom in Ht. rewrite Hseq in Ht. cbn in Ht.
  destruct Ht as [(_ & r & ? & _)|[(_ & c & ? & _)
                 |(_ & [[Hin _]|[Hin _]])]];
    [lia|lia|by apply elem_of_nil in Hin..].
Qed.

Lemma no_photo_no_lines_witness :
  (Forall (λ c, hasPhotos c = false) (Game.cells Examples.board3)
   ∨ Game.size Examples.board3 ≤ 0)
  ∧ winStatus Examples.board3 = ∅.
Proof.
  assert (Forall (λ c, hasPhotos c = false) (Game.cells Examples.board3))
    as Hnone by (vm_compute; repeat constructor).
  split; [left; exact Hnone|].
  exact (proj1 (no_photo_no_lines Examples.board3 (or_introl Hnone))).
Defined.

(** ** Photos and highlights together *)

Lemma winsAt_mono (g g' : BingoGame) (i : Z) (t : string) :
  Game.size g = Game.size g' →
  (∀ j, completeAt g j → completeAt g' j) →
  t ∈ winsAt g i → t ∈ winsAt g' i.
Proof.
  intros Hn Hmono. rewrite !winsAt_lines, <- Hn.
  assert (∀ line, lineComplete g line → lineComplete g' line) as Hline.
  { intros line Hl. eapply Forall_impl; [exact Hl|exact Hmono]. }
  intros [(-> & r & ? & ? & ?)|[(-> & c & ? & ? & ?)|(-> & [[? ?]|[? ?]])]].
  - left. split; [done|]. exists r. auto.
  - right; left. split; [done|]. exists c. auto.
  - right; right. split; [done|]. left. auto.
  - right; right. split; [done|]. right. auto.
Qed.

Lemma hasPhotos_addPhotoCell photoUrl now c :
  hasPhotos (addPhotoCell photoUrl now c) = true.
Proof.
  unfold hasPhotos, addPhotoCell; cbn.
  by destruct (default [] (Cell.photos c)).
Qed.

Lemma hasPhotos_removePhotoCell photoIndex c :
  hasPhotos (removePhotoCell photoIndex c) = true → hasPhotos c = true.
Proof.
  unfold removePhotoCell, hasPhotos.
  destruct (Cell.photos c) as [[|p ps]|] eqn:Hp; cbn; [|done|by rewrite Hp].
  unfold JS.splice1. by destruct (JS.relIndex _ _).
Qed.

Lemma completeAt_addPhoto v cellId photoUrl now j :
  completeAt (game v) j → completeAt (game (addPhoto v cellId photoUrl now)) j.
Proof.
  intros (Hj & c & Hc & Hp). split; [done|].
  rewrite addPhoto_cells_lookup, Hc. cbn [fmap option_fmap option_map].
  eexists. split; [reflexivity|].
  case_bool_decide; [apply hasPhotos_addPhotoCell|done].
Qed.

Lemma completeAt_removePhoto v cellId photoIndex j :
  completeAt (game (removePhoto v cellId photoIndex)) j → completeAt (game v) j.
Proof.
  intros (Hj & c' & Hc' & Hp). split; [done|].
  rewrite removePhoto_cells_lookup in Hc'.
  destruct (Game.cells (game v) !! Z.to_nat j) as [c|]; [|done].
  exists c. split; [done|]. injection Hc' as <-.
  case_bool_decide; [by eapply hasPhotos_removePhotoCell|done].
Qed.

Lemma isFullHouse_completeAt (g : BingoGame) :
  isFullHouse g = true
  ↔ (0 < length (Game.cells g))%nat
    ∧ ∀ k, (k < length (Game.cells g))%nat → completeAt g (Z.of_nat k).
Proof.
  unfold isFullHouse. rewrite isFull_spec, Forall_lookup.
  assert (Game.cells g ≠ [] ↔ (0 < length (Game.cells g))%nat) as ->.
  { destruct (Game.cells g); cbn; split; (done || lia). }
  apply and_iff_compat_l. unfold completeAt. split.
  - intros Hall k Hk. split; [lia|]. rewrite Nat2Z.id.
    destruct (lookup_lt_is_Some_2 _ _ Hk) as [c Hc]. eauto.
  - intros Hall k c Hc. destruct (Hall k) as (_ & c' & Hc' & Hp).
    { by eapply lookup_lt_Some. }
    rewrite Nat2Z.id in Hc'. congruence.
Qed.

Lemma addPhoto_cells_length v cellId photoUrl now :
  length (Game.cells (game (addPhoto v cellId photoUrl now)))
  = length (Game.cells (game v)).
Proof. cbn. apply length_imap. Qed.

Lemma removePhoto_cells_length v cellId photoIndex :
  length (Game.cells (game (removePhoto v cellId photoIndex)))
  = length (Game.cells (game v)).
Proof. cbn. apply length_fmap. Qed.

(** X4.  Attaching a photo never takes a tag away from any index and
    never ends a full house; removing a photo never gives a tag to any
    index and never makes a full house. *)
Theorem photos_move_highlights_one_way (v : BoardView) (cellId photoUrl : string)
    (now : nat → Z) (photoIndex : Z) (i : Z) (t : string) :
  (t ∈ winsAt (game v) i →
   t ∈ winsAt (game (addPhoto v cellId photoUrl now)) i)
  ∧ (isFullHouse (game v) = true →
     isFullHouse (game (addPhoto v cellId photoUrl now)) = true)
  ∧ (t ∈ winsAt (game (removePhoto v cellId photoIndex)) i →
     t ∈ winsAt (game v) i)
  ∧ (isFullHouse (game (removePhoto v cellId photoIndex)) = true →
     isFullHouse (game v) = true).
Proof.
  split_and!.
  - apply winsAt_mono; [done|]. intros j. apply completeAt_addPhoto.
  - rewrite !isFullHouse_completeAt, addPhoto_cells_length.
    intros [Hne Hall]. split; [done|].
    intros k Hk. by apply (completeAt_addPhoto v), Hall.
  - apply winsAt_mono; [done|]. intros j. apply completeAt_removePhoto.
  - rewrite !isFullHouse_completeAt, removePhoto_cells_length.
    intros [Hne Hall]. split; [done|].
    intros k Hk. by apply (completeAt_removePhoto v cellId photoIndex), Hall.
Qed.

(** ** A full house on a square board *)

Lemma rowIndices_elem (n r i : Z) :
  i ∈ rowIndices n r ↔ ∃ c, 0 ≤ c < n ∧ i = r * n + c.
Proof.
  unfold rowIndices, JS.arrayFrom. rewrite list_elem_of_fmap.
  setoid_rewrite elem_of_seqZ. split; intros (c & ? & ?); exists c; split; (done || lia).
Qed.

Lemma colIndices_elem (n c i : Z) :
  i ∈ colIndices n c ↔ ∃ r, 0 ≤ r < n ∧ i = r * n + c.
Proof.
  unfold colIndices, JS.arrayFrom. rewrite list_elem_of_fmap.
  setoid_rewrite elem_of_seqZ. split; intros (r & ? & ?); exists r; split; (done || lia).
Qed.

Lemma d1_elem (n i : Z) : i ∈ d1 n ↔ ∃ k, 0 ≤ k < n ∧ i = k * n + k.
Proof.
  unfold d1, JS.arrayFrom. rewrite list_elem_of_fmap.
  setoid_rewrite elem_of_seqZ. split; intros (k & ? & ?); exists k; split; (done || lia).
Qed.

Lemma d2_elem (n i : Z) :
  i ∈ d2 n ↔ ∃ k, 0 ≤ k < n ∧ i = (k + 1) * n - (k + 1).
Proof.
  unfold d2, JS.arrayFrom. rewrite list_elem_of_fmap.
  setoid_rewrite elem_of_seqZ. split; intros (k & ? & ?); exists k; split; (done || lia).
Qed.

(** On a full house of positive size with size × size cells, every line is
    complete. *)
Lemma full_house_lines (g : BingoGame) (line : list Z) :
  isFullHouse g = true →
  squareBoard g →
  (∀ j, j ∈ line → 0 ≤ j < Game.size g * Game.size g) →
  lineComplete g line.
Proof.
  intros [_ Hall]%isFullHouse_completeAt Hsq Hin.
  apply Forall_forall. intros j Hj. specialize (Hin j Hj).
  replace j with (Z.of_nat (Z.to_nat j)) by lia. apply Hall.
  unfold squareBoard in Hsq. lia.
Qed.

(** X5.  On a full house whose size is positive and which has size × size
    cells, every cell carries both "row" and "col", every cell of a
    diagonal carries "diag" as well, and every cell is drawn in the
    full-house style. *)
Theorem full_house_tags_every_cell (g : BingoGame) (index : nat)
    (cell : BingoCell) :
  isFullHouse g = true →
  squareBoard g →
  0 < Game.size g →
  Game.cells g !! index = Some cell →
  "row" ∈ winsAt g (Z.of_nat index)
  ∧ "col" ∈ winsAt g (Z.of_nat index)
  ∧ (Z.of_nat index ∈ d1 (Game.size g) ∨ Z.of_nat index ∈ d2 (Game.size g) →
     "diag" ∈ winsAt g (Z.of_nat index))
  ∧ iconColor (cellStyle g index cell) = "text-yellow-600".
Proof.
  intros Hfull Hsq Hn Hcell.
  set (n := Game.size g) in *. set (i := Z.of_nat index).
  assert (0 ≤ i < n * n) as Hi.
  { apply lookup_lt_Some in Hcell. unfold squareBoard in Hsq. fold n in Hsq. lia. }
  assert (0 ≤ i `div` n < n) as Hdiv.
  { split; [apply Z.div_pos; lia|apply Z.div_lt_upper_bound; lia]. }
  pose proof (Z.mod_pos_bound i n Hn) as Hmod.
  pose proof (Z.div_mod i n ltac:(lia)) as Hdm.
  split_and!.
  - apply winsAt_lines. left. split; [done|]. exists (i `div` n). fold n.
    split; [lia|]. split; [apply rowIndices_elem; exists (i `mod` n); lia|].
    apply full_house_lines; [done..|]. fold n.
    intros j (c & ? & ->)%rowIndices_elem. nia.
  - apply winsAt_lines. right; left. split; [done|]. exists (i `mod` n). fold n.
    split; [lia|]. split; [apply colIndices_elem; exists (i `div` n); lia|].
    apply full_house_lines; [done..|]. fold n.
    intros j (r & ? & ->)%colIndices_elem. nia.
  - intros Hdiag. apply winsAt_lines. right; right. split; [done|]. fold n.
    destruct Hdiag as [Hd|Hd]; [left|right]; (split; [done|]);
      (apply full_house_lines; [done..|]); fold n.
    + intros j (k & ? & ->)%d1_elem. nia.
    + intros j (k & ? & ->)%d2_elem. nia.
  - unfold cellStyle. rewrite Hfull.
    apply isFull_spec in Hfull as [_ Hall]. rewrite Forall_lookup in Hall.
    by rewrite (Hall _ _ Hcell).
Qed.

Lemma full_house_tags_every_cell_witness :
  let cell := Cell.mk "cell-1700000000006-4" "Task 5" (Some [Examples.snap])
                      (Some 1700000000100) in
  (isFullHouse Examples.fullBoard = true
   ∧ squareBoard Examples.fullBoard
   ∧ 0 < Game.size Examples.fullBoard
   ∧ Game.cells Examples.fullBoard !! 4%nat = Some cell)
  ∧ "row" ∈ winsAt Examples.fullBoard 4
  ∧ "col" ∈ winsAt Examples.fullBoard 4.
Proof.
  intros cell.
  assert (squareBoard Examples.fullBoard) as Hsq by (vm_compute; reflexivity).
  assert (0 < Game.size Examples.fullBoard) as Hn by (vm_compute; reflexivity).
  split; [split_and!; [reflexivity|exact Hsq|exact Hn|reflexivity]|].
  pose proof (full_house_tags_every_cell Examples.fullBoard 4%nat cell
                eq_refl Hsq Hn eq_refl) as (Hrow & Hcol & _).
  exact (conj Hrow Hcol).
Defined.

(** ** Styles and the dashboard *)

Lemma winsAt_NoDup (g : BingoGame) (i : Z) : NoDup (winsAt g i).
Proof.
  unfold winsAt. destruct (winStatus g !! i) as [wins|] eqn:Hi; cbn.
  - by destruct (winStatus_wf g i wins Hi).
  - constructor.
Qed.

Lemma winsAt_tags (g : BingoGame) (i : Z) (t : string) :
  t ∈ winsAt g i → t = "row" ∨ t = "col" ∨ t = "diag".
Proof. rewrite winsAt_lines. naive_solver. Qed.

(** A list without repeats over three tags has two elements or more
    exactly when it holds two different tags. *)
Lemma two_tags (wins : list string) :
  NoDup wins →
  (∀ t, t ∈ wins → t = "row" ∨ t = "col" ∨ t = "diag") →
  (1 < length wins)%nat
  ↔ ("row" ∈ wins ∧ "col" ∈ wins) ∨ ("row" ∈ wins ∧ "diag" ∈ wins)
    ∨ ("col" ∈ wins ∧ "diag" ∈ wins).
Proof.
  intros Hnd Hsub. split.
  - destruct wins as [|x [|y wins]]; cbn; [lia..|]. intros _.
    assert (x ≠ y) as Hxy.
    { apply NoDup_cons in Hnd as [Hx _]. intros ->. apply Hx. by left. }
    pose proof (Hsub x ltac:(left)) as Hx.
    pose proof (Hsub y ltac:(right; left)) as Hy.
    assert (x ∈ x :: y :: wins) as Hx' by (by left).
    assert (y ∈ x :: y :: wins) as Hy' by (right; by left).
    destruct Hx as [ -> | [ -> | -> ]], Hy as [ -> | [ -> | -> ]];
      try done; auto.
  - assert (∀ a b, a ≠ b → a ∈ wins → b ∈ wins → (1 < length wins)%nat) as Htwo.
    { intros a b Hab Ha Hb.
      enough (length [a; b] ≤ length wins)%nat by (cbn in *; lia).
      apply submseteq_length, NoDup_submseteq.
      - apply NoDup_cons. split; [by intros ->%list_elem_of_singleton|].
        apply NoDup_singleton.
      - intros x Hx. apply elem_of_cons in Hx as [ -> |Hx]; [done|].
        by apply list_elem_of_singleton in Hx as ->. }
    intros [[? ?]|[[? ?]|[? ?]]];
      [apply (Htwo "row" "col")|apply (Htwo "row" "diag")
      |apply (Htwo "col" "diag")]; done.
Qed.

(** X6.  The colour of a cell that has a photo, on a board that is not a
    full house, follows the lines through it: pink when it carries at
    least two of the three tags, else orange on a complete diagonal,
    purple on a complete column, blue on a complete row, and green when no
    complete line passes through it.  A cell on both diagonals, complete
    both, but on no complete row or column, is orange: the two diagonals
    count as one tag. *)
Theorem cellStyle_follows_lines (g : BingoGame) (index : nat)
    (cell : BingoCell) :
  hasPhotos cell = true →
  isFullHouse g = false →
  let wins := winsAt g (Z.of_nat index) in
  let onRow := bool_decide ("row" ∈ wins) in
  let onCol := bool_decide ("col" ∈ wins) in
  let onDiag := bool_decide ("diag" ∈ wins) in
  iconColor (cellStyle g index cell)
  = if onRow && onCol || onRow && onDiag || onCol && onDiag then "text-pink-600"
    else if onDiag then "text-orange-600"
    else if onCol then "text-purple-600"
    else if onRow then "text-blue-600"
    else "text-green-600".
Proof.
  intros Hp Hnf wins onRow onCol onDiag.
  unfold cellStyle, getCellStyle. rewrite Hp, Hnf. cbn [negb]. fold wins.
  pose proof (two_tags wins (winsAt_NoDup _ _) (winsAt_tags _ _)) as Htwo.
  subst onRow onCol onDiag.
  destruct (decide ("row" ∈ wins)) as [Hr|Hr],
           (decide ("col" ∈ wins)) as [Hc|Hc],
           (decide ("diag" ∈ wins)) as [Hd|Hd];
    rewrite ?(bool_decide_eq_true_2 _ Hr), ?(bool_decide_eq_false_2 _ Hr),
            ?(bool_decide_eq_true_2 _ Hc), ?(bool_decide_eq_false_2 _ Hc),
            ?(bool_decide_eq_true_2 _ Hd), ?(bool_decide_eq_false_2 _ Hd);
    cbn [andb orb];
    first [ rewrite bool_decide_eq_true_2 by (apply Htwo; tauto); reflexivity
          | rewrite bool_decide_eq_false_2 by (rewrite Htwo; tauto); reflexivity ].
Qed.

Lemma cellStyle_follows_lines_witness :
  let cell := Cell.mk "cell-1700000000006-4" "Task 5" (Some [Examples.snap])
                      (Some 1700000000100) in
  (Game.cells MoreExamples.crossBoard !! 4%nat = Some cell
   ∧ hasPhotos cell = true
   ∧ isFullHouse MoreExamples.crossBoard = false)
  ∧ winsAt MoreExamples.crossBoard 4 = ["diag"]
  ∧ iconColor (cellStyle MoreExamples.crossBoard 4 cell) = "text-orange-600".
Proof.
  intros cell. split; [split_and!; reflexivity|]. split; [reflexivity|].
  exact (cellStyle_follows_lines MoreExamples.crossBoard 4 cell eq_refl eq_refl).
Defined.

Lemma filter_hasPhotos_length (k : nat) (cs : list BingoCell) :
  length (filter (λ c, hasPhotos c = true) cs)
  = length (trueFrom k (hasPhotos <$> cs)).
Proof.
  revert k. induction cs as [|c cs IH]; intros k; [done|].
  cbn [fmap list_fmap trueFrom]. destruct (hasPhotos c) eqn:Hp.
  - rewrite filter_cons_True by done. cbn. f_equal. apply IH.
  - rewrite filter_cons_False by congruence. apply IH.
Qed.

(** X7.  The count of completed cells that the list of games shows is the
    size of the set of completed indices the evaluator works with; it
    never exceeds the number of cells, and the board is a full house
    exactly when it has a cell and the two numbers agree. *)
Theorem dashboard_count_agrees (g : BingoGame) :
  completedCount g = size (completedIndices (Game.cells g))
  ∧ (completedCount g ≤ totalCount g)%nat
  ∧ (isFullHouse g = true
     ↔ (0 < totalCount g)%nat ∧ completedCount g = totalCount g).
Proof.
  unfold completedCount, totalCount, isFullHouse, isFull.
  rewrite completedIndices_size, <- (filter_hasPhotos_length 0).
  split_and!; [done|apply length_filter|].
  by rewrite andb_true_iff, !bool_decide_eq_true.
Qed.

(** ** Photo operations, cell by cell *)

Lemma addPhoto_cell_at v cellId photoUrl now k c :
  Game.cells (game v) !! k = Some c →
  Game.cells (game (addPhoto v cellId photoUrl now)) !! k
  = Some (if bool_decide (Cell.id c = cellId)
          then addPhotoCell photoUrl (now k) c else c).
Proof. intros Hk. by rewrite addPhoto_cells_lookup, Hk. Qed.

Lemma removePhoto_cell_at v cellId photoIndex k c :
  Game.cells (game v) !! k = Some c →
  Game.cells (game (removePhoto v cellId photoIndex)) !! k
  = Some (if bool_decide (Cell.id c = cellId)
          then removePhotoCell photoIndex c else c).
Proof. intros Hk. by rewrite removePhoto_cells_lookup, Hk. Qed.

Lemma splice1_last {A} (ps : list A) (p : A) :
  JS.splice1 (Z.of_nat (length ps)) (ps ++ [p]) = ps.
Proof.
  unfold JS.splice1, JS.relIndex. rewrite bool_decide_eq_false_2 by lia.
  rewrite length_app. cbn [length].
  rewrite Z.min_l, Nat2Z.id by lia.
  rewrite delete_middle. apply app_nil_r.
Qed.

(** X8.  Removing, right after an attach, the photo at the index the
    attach gave it puts the photo list of the cell back as it was.  The
    completion time does not come back: it is the time of the attach when
    photos remain, and unset when none remains. *)
Theorem attach_then_remove_last (v : BoardView) (cellId photoUrl : string)
    (now : nat → Z) (k : nat) (c : BingoCell) :
  Game.cells (game v) !! k = Some c →
  Cell.id c = cellId →
  ∃ c',
    Game.cells (game (removePhoto (addPhoto v cellId photoUrl now) cellId
                                  (Z.of_nat (photoCount c)))) !! k = Some c'
    ∧ Cell.photos c' = Some (default [] (Cell.photos c))
    ∧ hasPhotos c' = hasPhotos c
    ∧ Cell.completedAt c'
      = (if hasPhotos c then Some (now k) else None)
    ∧ Cell.id c' = Cell.id c ∧ Cell.text c' = Cell.text c.
Proof.
  intros Hk Hid.
  pose proof (addPhoto_cell_at v cellId photoUrl now k c Hk) as Hk1.
  rewrite bool_decide_eq_true_2 in Hk1 by done.
  pose proof (removePhoto_cell_at _ cellId (Z.of_nat (photoCount c)) k _ Hk1)
    as Hk2.
  rewrite bool_decide_eq_true_2 in Hk2 by done.
  eexists. split; [exact Hk2|].
  unfold removePhotoCell, addPhotoCell, photoCount. cbn [Cell.photos].
  rewrite splice1_last. cbn.
  unfold hasPhotos. destruct (Cell.photos c) as [[|p ps]|]; cbn; done.
Qed.

Lemma attach_then_remove_last_witness :
  (Game.cells Examples.onePhotoBoard !! 0%nat = Some Examples.onePhotoCell
   ∧ Cell.id Examples.onePhotoCell = "cell-1700000000002-0")
  ∧ ∃ c',
      Game.cells (game (removePhoto
                          (addPhoto (mkView Examples.onePhotoBoard false)
                                    "cell-1700000000002-0" "b.jpg"
                                    (λ _, 1700000000200))
                          "cell-1700000000002-0" 1)) !! 0%nat = Some c'
      ∧ Cell.photos c' = Some [Examples.snap]
      ∧ Cell.completedAt c' = Some 1700000000200.
Proof.
  split; [split; reflexivity|].
  destruct (attach_then_remove_last (mkView Examples.onePhotoBoard false)
              "cell-1700000000002-0" "b.jpg" (λ _, 1700000000200) 0%nat
              Examples.onePhotoCell eq_refl eq_refl)
    as (c' & Hc' & Hp & _ & Ht & _).
  exists c'. split; [exact Hc'|]. split; [exact Hp|exact Ht].
Defined.

(** X9.  On a cell that has photos, [removePhoto] with any index below the
    length of the list, negative ones included, removes exactly one photo
    and keeps the others in their order: the photo at the index when the
    index is not negative, the photo that many places from the end when
    it is negative, and the first photo when it is more negative than the
    list is long. *)
Theorem removePhoto_removes_one (v : BoardView) (cellId : string)
    (photoIndex : Z) (k : nat) (c : BingoCell) (ps : list string) :
  Game.cells (game v) !! k = Some c →
  Cell.id c = cellId →
  Cell.photos c = Some ps →
  ps ≠ [] →
  photoIndex < Z.of_nat (length ps) →
  let position :=
    if bool_decide (0 ≤ photoIndex) then Z.to_nat photoIndex
    else Z.to_nat (Z.of_nat (length ps) + photoIndex) in
  ∃ c',
    Game.cells (game (removePhoto v cellId photoIndex)) !! k = Some c'
    ∧ Cell.photos c' = Some (take position ps ++ drop (S position) ps)%list
    ∧ photoCount c' = Nat.pred (photoCount c)
    ∧ Cell.completedAt c'
      = (if bool_decide (length ps = 1%nat) then None else Cell.completedAt c).
Proof.
  intros Hk Hid Hps Hne Hi position.
  pose proof (removePhoto_cell_at v cellId photoIndex k c Hk) as Hk1.
  rewrite bool_decide_eq_true_2 in Hk1 by done.
  eexists. split; [exact Hk1|].
  unfold removePhotoCell, photoCount. rewrite Hps. cbn.
  assert (JS.relIndex (length ps) photoIndex = position ∧ (position < length ps)%nat)
    as [Hrel Hpos].
  { unfold JS.relIndex, position. destruct ps; [done|]. cbn [length] in *.
    repeat case_bool_decide; lia. }
  unfold JS.splice1. rewrite Hrel, <- delete_take_drop.
  assert (length (delete position ps) = Nat.pred (length ps)) as Hlen.
  { rewrite length_delete; [lia|]. by apply lookup_lt_is_Some. }
  split; [done|]. split; [done|]. rewrite Hlen.
  destruct ps as [|p [|q ps]]; [done|done|]. cbn.
  rewrite bool_decide_eq_true_2 by lia.
  by rewrite bool_decide_eq_false_2 by lia.
Qed.

Lemma removePhoto_removes_one_witness :
  let v := mkView MoreExamples.threePhotoBoard false in
  (Game.cells (game v) !! 0%nat = Some MoreExamples.threePhotoCell
   ∧ Cell.id MoreExamples.threePhotoCell = "cell-1700000000002-0"
   ∧ Cell.photos MoreExamples.threePhotoCell = Some ["a.jpg"; "b.jpg"; "c.jpg"]
   ∧ ["a.jpg"; "b.jpg"; "c.jpg"] ≠ []
   ∧ -2 < Z.of_nat (length ["a.jpg"; "b.jpg"; "c.jpg"]))
  ∧ ∃ c', Game.cells (game (removePhoto v "cell-1700000000002-0" (-2)))
            !! 0%nat = Some c'
          ∧ Cell.photos c' = Some ["a.jpg"; "c.jpg"].
Proof.
  intros v.
  assert (["a.jpg"; "b.jpg"; "c.jpg"] ≠ []) as Hne by discriminate.
  assert (-2 < Z.of_nat (length ["a.jpg"; "b.jpg"; "c.jpg"])) as Hi
    by (cbn; lia).
  split; [split_and!; [reflexivity|reflexivity|reflexivity|exact Hne|exact Hi]|].
  destruct (removePhoto_removes_one v "cell-1700000000002-0" (-2) 0%nat
              MoreExamples.threePhotoCell ["a.jpg"; "b.jpg"; "c.jpg"]
              eq_refl eq_refl eq_refl Hne Hi) as (c' & Hc' & Hp & _).
  exists c'. split; [exact Hc'|exact Hp].
Defined.

Lemma imap_unchanged {A} (f : nat → A → A) (l : list A) :
  (∀ i x, l !! i = Some x → f i x = x) → imap f l = l.
Proof.
  intros Hf. apply list_eq. intros i. rewrite list_lookup_imap.
  destruct (l !! i) as [x|] eqn:Hx; [|done]. cbn. by rewrite (Hf i x Hx).
Qed.

Lemma fmap_unchanged {A} (f : A → A) (l : list A) :
  (∀ x, x ∈ l → f x = x) → f <$> l = l.
Proof.
  intros Hf. induction l as [|x l IH]; [done|]. cbn.
  rewrite Hf by (by left). f_equal. apply IH. intros y Hy. apply Hf. by right.
Qed.

(** X10.  With a cell id that no cell of the board has, [addPhoto] leaves
    the board exactly as it is and still raises the confetti flag, and
    [removePhoto] leaves board and flag exactly as they are.  The same
    holds for [removePhoto] on cells that have no [photos] list. *)
Theorem unknown_cell_id (v : BoardView) (cellId photoUrl : string)
    (now : nat → Z) (photoIndex : Z) :
  (∀ c, c ∈ Game.cells (game v) → Cell.id c = cellId → Cell.photos c = None) →
  (Forall (λ c, Cell.id c ≠ cellId) (Game.cells (game v)) →
   addPhoto v cellId photoUrl now = mkView (game v) true)
  ∧ removePhoto v cellId photoIndex = v.
Proof.
  intros Hnone. destruct v as [[gid gtitle gsize gcells gcreated gtheme] conf].
  cbn in *. split.
  - intros Hall. unfold addPhoto, updateGameState. cbn. do 2 f_equal.
    apply imap_unchanged. intros i c Hc.
    rewrite Forall_lookup in Hall. by rewrite bool_decide_eq_false_2 by eauto.
  - unfold removePhoto, updateGameState. cbn. do 2 f_equal.
    apply fmap_unchanged. intros c Hc. case_bool_decide as Hid; [|done].
    unfold removePhotoCell. by rewrite (Hnone c Hc Hid).
Qed.

Lemma unknown_cell_id_witness :
  let v := mkView Examples.board3 false in
  (∀ c, c ∈ Game.cells (game v) → Cell.id c = "cell-0-99" → Cell.photos c = None)
  ∧ removePhoto v "cell-0-99" 0 = v.
Proof.
  intros v.
  assert (∀ c, c ∈ Game.cells (game v) → Cell.id c = "cell-0-99"
               → Cell.photos c = None) as Hnone.
  { intros c Hc Hid. exfalso.
    assert (Forall (λ c, Cell.id c ≠ "cell-0-99") (Game.cells (game v))) as HF
      by (vm_compute; repeat constructor; discriminate).
    rewrite Forall_forall in HF. exact (HF c Hc Hid). }
  split; [exact Hnone|].
  exact (proj2 (unknown_cell_id v "cell-0-99" "x.jpg" (λ _, 0) 0 Hnone)).
Defined.

(** X11.  The photo operations keep the completion times consistent: when
    every cell of the board has a completion time exactly when it has a
    photo, the same holds after [addPhoto] and after [removePhoto],
    whatever cell id and index they are given. *)
Theorem photo_operations_keep_timestamps (v : BoardView)
    (cellId photoUrl : string) (now : nat → Z) (photoIndex : Z) :
  Forall timestampConsistent (Game.cells (game v)) →
  Forall timestampConsistent (Game.cells (game (addPhoto v cellId photoUrl now)))
  ∧ Forall timestampConsistent
           (Game.cells (game (removePhoto v cellId photoIndex))).
Proof.
  intros Hall. rewrite Forall_lookup in Hall. split; apply Forall_lookup; intros k c' Hk.
  - rewrite addPhoto_cells_lookup in Hk.
    destruct (Game.cells (game v) !! k) as [c|] eqn:Hc; [|done].
    injection Hk as <-. case_bool_decide; [|by eapply Hall].
    unfold timestampConsistent. rewrite hasPhotos_addPhotoCell. cbn.
    split; [by eexists|done].
  - rewrite removePhoto_cells_lookup in Hk.
    destruct (Game.cells (game v) !! k) as [c|] eqn:Hc; [|done].
    injection Hk as <-. specialize (Hall k c Hc).
    case_bool_decide; [|done].
    unfold removePhotoCell.
    destruct (Cell.photos c) as [ps|] eqn:Hps; [|done].
    unfold timestampConsistent, hasPhotos in *. rewrite Hps in Hall. cbn.
    destruct (JS.splice1 photoIndex ps) as [|q qs] eqn:Hsp; cbn.
    + split; [done|]. by intros [? ?].
    + rewrite <- Hall. destruct ps; [|done]. unfold JS.splice1 in Hsp.
      by destruct (JS.relIndex _ _).
Qed.

Lemma photo_operations_keep_timestamps_witness :
  let v := mkView Examples.row0Board false in
  Forall timestampConsistent (Game.cells (game v))
  ∧ Forall timestampConsistent
           (Game.cells (game (removePhoto v "cell-1700000000002-0" 0))).
Proof.
  intros v.
  assert (Forall timestampConsistent (Game.cells (game v))) as Hall.
  { let l := eval vm_compute in (Game.cells (game v)) in
    change (Forall timestampConsistent l).
    repeat apply Forall_cons_2; [..|apply Forall_nil_2];
      (split; [intros H; first [discriminate H|by eexists]
              |intros [x H]; first [discriminate H|reflexivity]]). }
  split; [exact Hall|].
  exact (proj2 (photo_operations_keep_timestamps v "cell-1700000000002-0"
                  "x.jpg" (λ _, 0) 0 Hall)).
Defined.

(** X12.  On a board whose cells have different ids, [addPhoto] and
    [removePhoto] with the id of a cell change that cell and no other: the
    new list of cells is the old one with the cell at that position
    replaced. *)
Theorem photo_operations_change_one_cell (v : BoardView) (k : nat)
    (c : BingoCell) (photoUrl : string) (now : nat → Z) (photoIndex : Z) :
  NoDup (Cell.id <$> Game.cells (game v)) →
  Game.cells (game v) !! k = Some c →
  Game.cells (game (addPhoto v (Cell.id c) photoUrl now))
  = <[k := addPhotoCell photoUrl (now k) c]> (Game.cells (game v))
  ∧ Game.cells (game (removePhoto v (Cell.id c) photoIndex))
    = <[k := removePhotoCell photoIndex c]> (Game.cells (game v)).
Proof.
  intros Hnd Hk.
  assert (∀ j c', Game.cells (game v) !! j = Some c' → j ≠ k →
                  Cell.id c' ≠ Cell.id c) as Hother.
  { intros j c' Hj Hjk Hid. apply Hjk.
    eapply (NoDup_lookup _ j k (Cell.id c)); [exact Hnd| |].
    - by rewrite list_lookup_fmap, Hj, <- Hid.
    - by rewrite list_lookup_fmap, Hk. }
  pose proof (lookup_lt_Some _ _ _ Hk) as Hlt.
  split; apply list_eq; intros j.
  - rewrite addPhoto_cells_lookup.
    destruct (decide (j = k)) as [->|Hjk].
    + rewrite list_lookup_insert_eq by done. rewrite Hk. cbn.
      by rewrite bool_decide_eq_true_2.
    + rewrite list_lookup_insert_ne by done.
      destruct (Game.cells (game v) !! j) as [c'|] eqn:Hj; [|done]. cbn.
      by rewrite bool_decide_eq_false_2 by eauto.
  - rewrite removePhoto_cells_lookup.
    destruct (decide (j = k)) as [->|Hjk].
    + rewrite list_lookup_insert_eq by done. rewrite Hk. cbn.
      by rewrite bool_decide_eq_true_2.
    + rewrite list_lookup_insert_ne by done.
      destruct (Game.cells (game v) !! j) as [c'|] eqn:Hj; [|done]. cbn.
      by rewrite bool_decide_eq_false_2 by eauto.
Qed.

Lemma photo_operations_change_one_cell_witness :
  let v := mkView Examples.board3 false in
  let c := Cell.mk "cell-1700000000006-4" "Task 5" (Some []) None in
  (NoDup (Cell.id <$> Game.cells (game v))
   ∧ Game.cells (game v) !! 4%nat = Some c)
  ∧ Game.cells (game (addPhoto v (Cell.id c) Examples.snap Examples.clock))
    = <[4%nat := addPhotoCell Examples.snap (Examples.clock 4) c]>
        (Game.cells (game v)).
Proof.
  intros v c.
  assert (NoDup (Cell.id <$> Game.cells (game v))) as Hnd.
  { refine (bool_decide_unpack _ _). vm_compute. exact I. }
  split; [split; [exact Hnd|reflexivity]|].
  exact (proj1 (photo_operations_change_one_cell v 4%nat c Examples.snap
                  Examples.clock 0 Hnd eq_refl)).
Defined.

Lemma find_imap_same_id (f : nat → BingoCell → BingoCell) (sel : string)
    (l : list BingoCell) :
  (∀ i x, Cell.id (f i x) = Cell.id x) →
  match List.find (λ c, bool_decide (Cell.id c = sel)) l with
  | Some c =>
      ∃ k, l !! k = Some c
           ∧ List.find (λ c, bool_decide (Cell.id c = sel)) (imap f l)
             = Some (f k c)
  | None => List.find (λ c, bool_decide (Cell.id c = sel)) (imap f l) = None
  end.
Proof.
  revert f. induction l as [|x l IH]; intros f Hid; [done|].
  rewrite imap_cons. cbn [List.find]. rewrite Hid.
  case_bool_decide.
  - by exists 0%nat.
  - specialize (IH (f ∘ S) (λ i x, Hid (S i) x)).
    destruct (List.find _ l) as [c|]; [|done].
    destruct IH as (k & Hk & Hfind). by exists (S k).
Qed.

(** X13.  The cell shown in the gallery is looked up by id in the current
    board, so it follows the board: after [addPhoto] on the selected id it
    is the selected cell with the new photo at the end of its list, and
    that photo is its thumbnail.  With no selection, or an id that no cell
    has, there is no active cell before or after. *)
Theorem activeCell_follows_board (v : BoardView) (sel photoUrl : string)
    (now : nat → Z) :
  match activeCell (game v) (Some sel) with
  | Some c =>
      ∃ k c',
        Game.cells (game v) !! k = Some c
        ∧ activeCell (game (addPhoto v sel photoUrl now)) (Some sel) = Some c'
        ∧ Cell.photos c' = Some (default [] (Cell.photos c) ++ [photoUrl])%list
        ∧ Cell.completedAt c' = Some (now k)
        ∧ lastPhoto c' = Some photoUrl
        ∧ photoCount c' = S (photoCount c)
  | None =>
      activeCell (game (addPhoto v sel photoUrl now)) (Some sel) = None
  end
  ∧ activeCell (game (addPhoto v sel photoUrl now)) None = None.
Proof.
  split; [|done]. unfold activeCell. destruct (JS.truthy sel) eqn:Hsel; [|done].
  cbn [addPhoto updateGameState game Game.cells].
  pose proof (find_imap_same_id
                (λ i c, if bool_decide (Cell.id c = sel)
                        then addPhotoCell photoUrl (now i) c else c)
                sel (Game.cells (game v))) as Hfind.
  destruct (List.find _ (Game.cells (game v))) as [c|] eqn:Hc.
  - destruct Hfind as (k & Hk & Hfind).
    { intros i x. by case_bool_decide. }
    apply find_some in Hc as [_ Hid%bool_decide_eq_true].
    rewrite bool_decide_eq_true_2 in Hfind by done.
    exists k, (addPhotoCell photoUrl (now k) c).
    split_and!; try done.
    + unfold lastPhoto. rewrite hasPhotos_addPhotoCell. cbn. apply last_snoc.
    + unfold photoCount. cbn. rewrite length_app. cbn. lia.
  - apply Hfind. intros i x. by case_bool_decide.
Qed.

(** ** The collection of boards *)

Lemma existsb_id (a : string) (gs : list BingoGame) :
  existsb (λ g, bool_decide (Game.id g = a)) gs = true
  ↔ a ∈ Game.id <$> gs.
Proof.
  rewrite existsb_exists, list_elem_of_fmap. split.
  - intros (g & Hin & Hid%bool_decide_eq_true). exists g.
    split; [done|]. by apply list_elem_of_In.
  - intros (g & -> & Hin). exists g. split; [by apply list_elem_of_In|].
    by apply bool_decide_eq_true.
Qed.

(** X14.  Merging an imported board never creates a second board with the
    same id: when the ids of the collection are all different they still
    are after the merge.  The merge leaves the collection as it is when
    the id is already there and puts the board in front otherwise; after
    it some board has the imported id, and merging the same board again
    changes nothing. *)
Theorem mergeImported_keeps_ids_distinct (g : BingoGame)
    (loadedGames : list BingoGame) :
  NoDup (Game.id <$> loadedGames) →
  NoDup (Game.id <$> mergeImported (Some g) loadedGames)
  ∧ (Game.id g ∈ Game.id <$> loadedGames →
     mergeImported (Some g) loadedGames = loadedGames)
  ∧ (Game.id g ∉ Game.id <$> loadedGames →
     mergeImported (Some g) loadedGames = g :: loadedGames)
  ∧ Game.id g ∈ Game.id <$> mergeImported (Some g) loadedGames
  ∧ mergeImported (Some g) (mergeImported (Some g) loadedGames)
    = mergeImported (Some g) loadedGames.
Proof.
  intros Hnd. unfold mergeImported.
  destruct (existsb _ loadedGames) eqn:Hex.
  - pose proof (proj1 (existsb_id _ _) Hex) as Hin.
    rewrite Hex. split_and!; try done.
  - assert (Game.id g ∉ Game.id <$> loadedGames) as Hnin.
    { intros Hin%existsb_id. congruence. }
    cbn [existsb]. rewrite bool_decide_eq_true_2 by done. cbn.
    split_and!; try done.
    + apply (NoDup_cons_2 (Game.id g) (Game.id <$> loadedGames)); done.
    + apply (list_elem_of_here (Game.id g) (Game.id <$> loadedGames)).
Qed.

Lemma mergeImported_keeps_ids_distinct_witness :
  NoDup (Game.id <$> [Examples.board3])
  ∧ mergeImported (Some Examples.row0Board) [Examples.board3]
    = [Examples.board3].
Proof.
  assert (NoDup (Game.id <$> [Examples.board3])) as Hnd.
  { refine (bool_decide_unpack _ _). vm_compute. exact I. }
  split; [exact Hnd|].
  apply (proj1 (proj2 (mergeImported_keeps_ids_distinct Examples.row0Board
                         [Examples.board3] Hnd))).
  refine (bool_decide_unpack _ _). vm_compute. exact I.
Defined.

Lemma find_id_fmap (f : BingoGame → BingoGame) (a : string)
    (gs : list BingoGame) :
  (∀ g, Game.id (f g) = Game.id g) →
  List.find (λ g, bool_decide (Game.id g = a)) (f <$> gs)
  = f <$> List.find (λ g, bool_decide (Game.id g = a)) gs.
Proof.
  intros Hid. induction gs as [|g gs IH]; [done|].
  cbn. rewrite Hid. by case_bool_decide.
Qed.

(** X15.  [handleUpdateGame] keeps the ids of the collection, position by
    position; with a board whose id is not in the collection it changes
    nothing; and when the open board is updated, the board the application
    shows next is the updated one. *)
Theorem handleUpdateGame_replaces_by_id (app : AppState)
    (updatedGame : BingoGame) :
  Game.id <$> games (handleUpdateGame app updatedGame) = Game.id <$> games app
  ∧ (Game.id updatedGame ∉ Game.id <$> games app →
     handleUpdateGame app updatedGame = app)
  ∧ (activeGameId app = Some (Game.id updatedGame) →
     is_Some (activeGame app) →
     activeGame (handleUpdateGame app updatedGame) = Some updatedGame)
  ∧ (∀ active, activeGameId app = Some active →
     active ≠ Game.id updatedGame →
     activeGame (handleUpdateGame app updatedGame) = activeGame app).
Proof.
  destruct app as [gs active creating]. unfold handleUpdateGame, activeGame. cbn.
  set (f := λ g, if bool_decide (Game.id g = Game.id updatedGame)
                 then updatedGame else g).
  assert (∀ g, Game.id (f g) = Game.id g) as Hid.
  { intros g. unfold f. by case_bool_decide. }
  split_and!.
  - rewrite <- list_fmap_compose. apply list_fmap_ext. intros. apply Hid.
  - intros Hnin. f_equal. apply fmap_unchanged. intros g Hg. unfold f.
    rewrite bool_decide_eq_false_2; [done|]. intros Heq. apply Hnin.
    rewrite <- Heq. by apply list_elem_of_fmap_2.
  - intros -> [g Hg]. rewrite (find_id_fmap f _ _ Hid), Hg. cbn.
    apply find_some in Hg as [_ Hg%bool_decide_eq_true].
    unfold f. by rewrite bool_decide_eq_true_2.
  - intros a -> Hne. rewrite (find_id_fmap f _ _ Hid).
    destruct (List.find _ gs) as [g|] eqn:Hg; [|done]. cbn.
    apply find_some in Hg as [_ Hg%bool_decide_eq_true].
    unfold f. rewrite bool_decide_eq_false_2; [done|congruence].
Qed.

(** X16.  [handleDeleteGame] with an open board removes every board that
    has the id of the open board and no other, keeps the rest in their
    order, and closes the board; with no open board, or an open id that is
    the empty string, it changes nothing. *)
Theorem handleDeleteGame_removes_active (app : AppState) (active : string) :
  activeGameId app = Some active →
  active ≠ "" →
  (∀ g, g ∈ games (handleDeleteGame app) ↔ g ∈ games app ∧ Game.id g ≠ active)
  ∧ games (handleDeleteGame app) `sublist_of` games app
  ∧ activeGameId (handleDeleteGame app) = None
  ∧ activeGame (handleDeleteGame app) = None
  ∧ (∀ app', activeGameId app' = None ∨ activeGameId app' = Some "" →
             handleDeleteGame app' = app').
Proof.
  intros Hactive Hne. unfold handleDeleteGame, activeGame. rewrite Hactive.
  assert (JS.truthy active = true) as -> by (by destruct active).
  cbn. split_and!; try done.
  - intros g. rewrite list_elem_of_filter. tauto.
  - apply sublist_filter.
  - intros app' [->| ->]; done.
Qed.

Lemma handleDeleteGame_removes_active_witness :
  let app := mkApp [Examples.board3; Examples.holidayBoard]
                   (Some "1700000000000") false in
  (activeGameId app = Some "1700000000000" ∧ "1700000000000" ≠ "")
  ∧ activeGame (handleDeleteGame app) = None.
Proof.
  intros app.
  assert ("1700000000000" ≠ "") as Hne by discriminate.
  split; [split; [reflexivity|exact Hne]|].
  exact (proj1 (proj2 (proj2 (proj2
           (handleDeleteGame_removes_active app "1700000000000" eq_refl Hne))))).
Defined.

(** ** Decimal numerals and the ids of cells *)

Module Numerals.
Import Stdlib.Strings.Ascii.

Lemma pretty_N_char_digit (d : N) (a : ascii) :
  a = "-"%char ∨ a = " "%char → pretty_N_char d ≠ a.
Proof.
  intros [->| ->]; unfold pretty_N_char; by repeat case_match.
Qed.

Lemma pretty_N_go_occurs (a : ascii) (x : N) (s : string) :
  (∀ d, pretty_N_char d ≠ a) → occurs a (pretty_N_go x s) → occurs a s.
Proof.
  intros Ha. revert s. induction (N.lt_wf_0 x) as [x _ IH]; intros s.
  assert (x = 0 ∨ 0 < x)%N as [->|Hx] by lia.
  - by rewrite pretty_N_go_0.
  - rewrite pretty_N_go_step by done. intros Hocc.
    apply IH in Hocc; [|by apply N.div_lt].
    destruct Hocc as [Heq|Hocc]; [|done]. by destruct (Ha (x `mod` 10)%N).
Qed.

Lemma pretty_N_go_length (x : N) (s : string) :
  (String.length s ≤ String.length (pretty_N_go x s))%nat.
Proof.
  revert s. induction (N.lt_wf_0 x) as [x _ IH]; intros s.
  assert (x = 0 ∨ 0 < x)%N as [->|Hx] by lia.
  - by rewrite pretty_N_go_0.
  - rewrite pretty_N_go_step by done.
    etrans; [|apply IH; by apply N.div_lt]. cbn. lia.
Qed.

(** The decimal text of an integer is never empty. *)
Lemma toString_nonempty (n : Z) : JS.toString n ≠ "".
Proof.
  assert (∀ p, pretty (Npos p) ≠ "") as Hpos.
  { intros p. unfold pretty, pretty_N. rewrite decide_False by done.
    rewrite pretty_N_go_step by lia. intros Heq.
    pose proof (pretty_N_go_length (N.pos p `div` 10)
                  (String (pretty_N_char (N.pos p `mod` 10)) "")) as Hlen.
    rewrite Heq in Hlen. cbn in Hlen. lia. }
  unfold JS.toString, pretty, pretty_Z. destruct n as [|p|p]; [done|apply Hpos|done].
Qed.

(** The decimal text of an integer that is not negative has no dash and
    no space. *)
Lemma toString_nonneg_occurs (a : ascii) (n : Z) :
  0 ≤ n → a = "-"%char ∨ a = " "%char → ¬ occurs a (JS.toString n).
Proof.
  intros Hn Ha.
  assert (∀ d, pretty_N_char d ≠ a) as Hd
    by (intros d; by apply pretty_N_char_digit).
  unfold JS.toString, pretty, pretty_Z. destruct n as [|p|p]; [| |lia].
  - cbn. intros [->|[]]. by destruct Ha.
  - unfold pretty, pretty_positive, pretty, pretty_N.
    rewrite decide_False by done. intros Hocc.
    by apply pretty_N_go_occurs in Hocc.
Qed.

Lemma occurs_app (a : ascii) (s t : string) :
  occurs a (s +:+ String a t).
Proof. induction s as [|b s IH]; cbn; [by left|by right]. Qed.

(** Splitting at the last occurrence of a separator, and at the first. *)
Lemma app_sep_inj_suffix (a : ascii) (s1 s2 e1 e2 : string) :
  ¬ occurs a e1 → ¬ occurs a e2 →
  s1 +:+ String a e1 = s2 +:+ String a e2 → s1 = s2 ∧ e1 = e2.
Proof.
  intros H1 H2. revert s2.
  induction s1 as [|x s1 IH]; intros [|y s2]; cbn; intros Heq.
  - by injection Heq.
  - injection Heq as -> ->. destruct H1. apply occurs_app.
  - injection Heq as -> <-. destruct H2. apply occurs_app.
  - injection Heq as -> Heq. destruct (IH _ Heq) as [-> ->]. done.
Qed.

Lemma app_sep_inj_prefix (a : ascii) (s1 s2 e1 e2 : string) :
  ¬ occurs a s1 → ¬ occurs a s2 →
  s1 +:+ String a e1 = s2 +:+ String a e2 → s1 = s2 ∧ e1 = e2.
Proof.
  revert s2. induction s1 as [|x s1 IH]; intros [|y s2]; cbn; intros H1 H2 Heq.
  - by injection Heq.
  - injection Heq as <- _. destruct H2. by left.
  - injection Heq as -> _. destruct H1. by left.
  - injection Heq as -> Heq.
    destruct (IH s2) as [-> ->]; [tauto|tauto|done|done].
Qed.

(** The id [newGame] gives the cell at index [idx] determines [idx]. *)
Lemma cell_id_inj (t1 t2 : Z) (i1 i2 : nat) :
  "cell-" +:+ JS.toString t1 +:+ "-" +:+ JS.toString (Z.of_nat i1)
  = "cell-" +:+ JS.toString t2 +:+ "-" +:+ JS.toString (Z.of_nat i2) →
  i1 = i2.
Proof.
  cbn. intros [= Heq].
  apply (app_sep_inj_suffix "-"%char) in Heq as [_ Heq].
  - apply (inj pretty) in Heq. lia.
  - apply toString_nonneg_occurs; [lia|by left].
  - apply toString_nonneg_occurs; [lia|by left].
Qed.

(** The placeholder text of a task determines its number. *)
Lemma task_text_inj (i1 i2 : Z) (rest1 rest2 : string) :
  0 ≤ i1 → 0 ≤ i2 →
  "Task " +:+ JS.toString i1 +:+ String " "%char rest1
  = "Task " +:+ JS.toString i2 +:+ String " "%char rest2 →
  i1 = i2.
Proof.
  intros H1 H2. cbn. intros [= Heq].
  apply (app_sep_inj_prefix " "%char) in Heq as [Heq _].
  - by apply (inj pretty) in Heq.
  - apply toString_nonneg_occurs; [lia|by right].
  - apply toString_nonneg_occurs; [lia|by right].
Qed.

Lemma task_plain_inj (i1 i2 : Z) :
  "Task " +:+ JS.toString i1 = "Task " +:+ JS.toString i2 → i1 = i2.
Proof.
  intros Heq. apply (inj (String.app "Task ")) in Heq.
  by apply (inj pretty) in Heq.
Qed.

End Numerals.

(** ** Created boards *)

Lemma filter_all {A} (P : A → Prop) `{!∀ x, Decision (P x)} (l : list A) :
  Forall P l → filter P l = l.
Proof.
  induction 1 as [|x l Hx _ IH]; [done|].
  by rewrite filter_cons_True, IH.
Qed.

Lemma filter_none {A} (P : A → Prop) `{!∀ x, Decision (P x)} (l : list A) :
  Forall (λ x, ¬ P x) l → filter P l = [].
Proof.
  induction 1 as [|x l Hx _ IH]; [done|].
  by rewrite filter_cons_False.
Qed.

(** X17.  The cells of a board that [handleCreateGame] builds have
    pairwise different ids, whatever items it is given and whatever the
    clock reads, also when the clock stands still or runs backwards.  The
    photo operations and the share template keep the ids of the cells,
    position by position. *)
Theorem created_cells_have_distinct_ids (params : CreateGameParams)
    (clock : nat → Z) (v : BoardView) (cellId photoUrl : string)
    (now : nat → Z) (photoIndex : Z) (nowId nowCreated : Z) :
  NoDup (Cell.id <$> Game.cells (newGame params clock))
  ∧ Cell.id <$> Game.cells (game (addPhoto v cellId photoUrl now))
    = Cell.id <$> Game.cells (game v)
  ∧ Cell.id <$> Game.cells (game (removePhoto v cellId photoIndex))
    = Cell.id <$> Game.cells (game v)
  ∧ Cell.id <$> Game.cells (gameTemplate (game v) nowId nowCreated)
    = Cell.id <$> Game.cells (game v).
Proof.
  split_and!.
  - apply NoDup_alt. intros i j x. cbn [newGame Game.cells].
    rewrite !list_lookup_fmap, !list_lookup_imap.
    destruct (default [] (Params.customItems params) !! i) as [ti|]; [|done].
    destruct (default [] (Params.customItems params) !! j) as [tj|]; [|done].
    cbn [fmap option_fmap option_map Cell.id]. intros Hi Hj.
    rewrite <- Hj in Hi. apply (inj Some) in Hi.
    exact (Numerals.cell_id_inj _ _ _ _ Hi).
  - apply list_eq. intros k. rewrite !list_lookup_fmap, addPhoto_cells_lookup.
    destruct (Game.cells (game v) !! k) as [c|]; [|done]. cbn.
    by case_bool_decide.
  - apply list_eq. intros k. rewrite !list_lookup_fmap, removePhoto_cells_lookup.
    destruct (Game.cells (game v) !! k) as [c|]; [|done]. cbn.
    case_bool_decide; [|done]. unfold removePhotoCell.
    by destruct (Cell.photos c).
  - cbn. rewrite <- list_fmap_compose. by apply list_fmap_ext.
Qed.

Lemma blank_cells_hasPhotos (cs : list BingoCell) :
  Forall (λ c, Cell.photos c = Some [] ∧ Cell.completedAt c = None) cs →
  Forall (λ c, hasPhotos c = false) cs.
Proof.
  intros Hblank. eapply Forall_impl; [exact Hblank|].
  intros c [Hp _]. unfold hasPhotos. by rewrite Hp.
Qed.

Lemma newGame_blank (params : CreateGameParams) (clock : nat → Z) :
  Forall (λ c, Cell.photos c = Some [] ∧ Cell.completedAt c = None)
         (Game.cells (newGame params clock)).
Proof.
  apply Forall_lookup. intros k c. cbn [newGame Game.cells].
  rewrite list_lookup_imap.
  destruct (default [] (Params.customItems params) !! k); [|done].
  by intros [= <-].
Qed.

Lemma gameTemplate_blank (g : BingoGame) (nowId nowCreated : Z) :
  Forall (λ c, Cell.photos c = Some [] ∧ Cell.completedAt c = None)
         (Game.cells (gameTemplate g nowId nowCreated)).
Proof. cbn. apply Forall_fmap, Forall_true. by intros c. Qed.

(** X18.  A board just created, and a board as a share link carries it,
    is blank: the status map is empty, it is not a full house, its count
    of completed cells is zero, its completion times are consistent, and
    every cell is drawn in the style of a cell without photo and has no
    thumbnail. *)
Theorem new_and_shared_boards_are_blank (b : BingoGame)
    (params : CreateGameParams) (clock : nat → Z) (g : BingoGame)
    (nowId nowCreated : Z) :
  b = newGame params clock ∨ b = gameTemplate g nowId nowCreated →
  winStatus b = ∅
  ∧ isFullHouse b = false
  ∧ completedCount b = 0%nat
  ∧ Forall timestampConsistent (Game.cells b)
  ∧ ∀ index cell,
      Game.cells b !! index = Some cell →
      iconColor (cellStyle b index cell) = "text-gray-300"
      ∧ lastPhoto cell = None.
Proof.
  intros Hb.
  assert (Forall (λ c, Cell.photos c = Some [] ∧ Cell.completedAt c = None)
                 (Game.cells b)) as Hblank.
  { destruct Hb as [-> | ->]; [apply newGame_blank|apply gameTemplate_blank]. }
  pose proof (blank_cells_hasPhotos _ Hblank) as Hnone.
  split_and!.
  - by apply winStatus_no_photo.
  - by apply isFullHouse_no_photo.
  - unfold completedCount. rewrite filter_none; [done|].
    eapply Forall_impl; [exact Hnone|]. cbn. intros c Hc. congruence.
  - eapply Forall_impl; [exact Hblank|]. intros c [Hp Ht].
    unfold timestampConsistent, hasPhotos. rewrite Hp, Ht.
    split; [done|]. by intros [? ?].
  - intros index cell Hcell. rewrite Forall_lookup in Hnone.
    unfold cellStyle, lastPhoto. by rewrite (Hnone _ _ Hcell).
Qed.

Lemma new_and_shared_boards_are_blank_witness :
  (Examples.holidayBoard = newGame loadHolidayTemplate Examples.clock
   ∨ Examples.holidayBoard = gameTemplate Examples.board3 0 0)
  ∧ winStatus Examples.holidayBoard = ∅
  ∧ completedCount Examples.holidayBoard = 0%nat.
Proof.
  split; [left; reflexivity|].
  pose proof (new_and_shared_boards_are_blank Examples.holidayBoard
                loadHolidayTemplate Examples.clock Examples.board3 0 0
                (or_introl eq_refl)) as (Hw & _ & Hc & _).
  exact (conj Hw Hc).
Defined.

(** X19.  The share template of a board does not depend on the photos:
    after any [addPhoto] or [removePhoto] the board exports the same
    template and the same token as before, and sharing a shared template
    again gives the template of the board itself. *)
Theorem sharing_ignores_photos (P : Platform) (v : BoardView)
    (cellId photoUrl : string) (now : nat → Z) (photoIndex : Z)
    (nowId nowCreated nowId' nowCreated' : Z) :
  gameTemplate (game (addPhoto v cellId photoUrl now)) nowId nowCreated
  = gameTemplate (game v) nowId nowCreated
  ∧ gameTemplate (game (removePhoto v cellId photoIndex)) nowId nowCreated
    = gameTemplate (game v) nowId nowCreated
  ∧ exportShareable (game (addPhoto v cellId photoUrl now)) nowId nowCreated
    = exportShareable (game v) nowId nowCreated
  ∧ exportShareable (game (removePhoto v cellId photoIndex)) nowId nowCreated
    = exportShareable (game v) nowId nowCreated
  ∧ gameTemplate (gameTemplate (game v) nowId' nowCreated') nowId nowCreated
    = gameTemplate (game v) nowId nowCreated.
Proof.
  assert (gameTemplate (game (addPhoto v cellId photoUrl now)) nowId nowCreated
          = gameTemplate (game v) nowId nowCreated) as Hadd.
  { unfold gameTemplate. cbn. f_equal. apply list_eq. intros k.
    rewrite !list_lookup_fmap, list_lookup_imap.
    destruct (Game.cells (game v) !! k) as [c|]; [|done]. cbn.
    by case_bool_decide. }
  assert (gameTemplate (game (removePhoto v cellId photoIndex)) nowId nowCreated
          = gameTemplate (game v) nowId nowCreated) as Hremove.
  { unfold gameTemplate. cbn. f_equal. rewrite <- list_fmap_compose.
    apply list_fmap_ext. intros k c _. cbn. case_bool_decide; [|done].
    unfold removePhotoCell. by destruct (Cell.photos c). }
  split_and!; [done|done| | |].
  - unfold exportShareable. by rewrite Hadd.
  - unfold exportShareable. by rewrite Hremove.
  - unfold gameTemplate. cbn. f_equal. rewrite <- list_fmap_compose.
    by apply list_fmap_ext.
Qed.

(** X20.  Creating a board opens it: it is the board the application
    shows next, also when an older board has the same id.  Deleting it
    right away removes it, together with any older board of the same id,
    and gives back the earlier collection when no older board had that
    id. *)
Theorem create_opens_then_delete_undoes (app : AppState)
    (params : CreateGameParams) (clock : nat → Z) :
  let created := handleCreateGame app params clock in
  activeGame created = Some (newGame params clock)
  ∧ games (handleDeleteGame created)
    = filter (λ g, Game.id g ≠ Game.id (newGame params clock)) (games app)
  ∧ activeGameId (handleDeleteGame created) = None
  ∧ (Game.id (newGame params clock) ∉ Game.id <$> games app →
     games (handleDeleteGame created) = games app).
Proof.
  intros created.
  assert (JS.truthy (Game.id (newGame params clock)) = true) as Htruthy.
  { cbn. pose proof (Numerals.toString_nonempty (clock 0%nat)).
    by destruct (JS.toString (clock 0%nat)). }
  assert (games (handleDeleteGame created)
          = filter (λ g, Game.id g ≠ Game.id (newGame params clock)) (games app))
    as Hgames.
  { unfold handleDeleteGame, created, handleCreateGame.
    cbn [activeGameId games]. rewrite Htruthy. cbn [games].
    by rewrite filter_cons_False by (intros H; by apply H). }
  split_and!.
  - unfold activeGame, created, handleCreateGame. cbn [activeGameId games].
    cbn [List.find]. by rewrite bool_decide_eq_true_2.
  - exact Hgames.
  - unfold handleDeleteGame, created, handleCreateGame.
    cbn [activeGameId games]. by rewrite Htruthy.
  - intros Hnin. rewrite Hgames. apply filter_all.
    apply Forall_forall. intros g Hg Heq. apply Hnin. rewrite <- Heq.
    by apply list_elem_of_fmap_2.
Qed.

(** ** Loading *)

Lemma find_id_some (a : string) (gs : list BingoGame) :
  a ∈ Game.id <$> gs →
  ∃ g, List.find (λ g, bool_decide (Game.id g = a)) gs = Some g
       ∧ Game.id g = a.
Proof.
  intros Hin. destruct (List.find _ gs) as [g|] eqn:Hfind.
  - exists g. split; [done|].
    by apply find_some in Hfind as [_ ?%bool_decide_eq_true].
  - exfalso. apply list_elem_of_fmap in Hin as (g & -> & Hg).
    apply list_elem_of_In in Hg.
    pose proof (find_none _ _ Hfind g Hg) as Hno. cbn in Hno.
    by rewrite bool_decide_eq_true_2 in Hno.
Qed.

(** X21.  Opening a share link always lands on a board with the id the
    link carries: the imported board, put in front, when the store has no
    board of that id, and otherwise the stored board of that id, with its
    photos, while the collection stays as stored.  Without a link no board
    is open, and without stored data the collection is empty.  Every cell
    that comes from the store has a photo list after loading. *)
Theorem loadEffect_opens_the_import (stored : option (list Stored.Game.t))
    (g : BingoGame) :
  let loaded := games (loadEffect stored None) in
  let app := loadEffect stored (Some g) in
  (∃ g', activeGame app = Some g' ∧ Game.id g' = Game.id g)
  ∧ (Game.id g ∉ Game.id <$> loaded →
     activeGame app = Some g ∧ games app = g :: loaded)
  ∧ (Game.id g ∈ Game.id <$> loaded →
     games app = loaded ∧ activeGame app = activeGame (mkApp loaded (Some (Game.id g)) false))
  ∧ activeGame (loadEffect stored None) = None
  ∧ games (loadEffect None None) = []
  ∧ Forall (λ g, Forall (λ c, is_Some (Cell.photos c)) (Game.cells g)) loaded.
Proof.
  intros loaded app. unfold app, loaded, loadEffect, activeGame.
  cbn [games activeGameId fmap option_fmap option_map mergeImported].
  set (gs := match stored with Some parsedGames => migrate parsedGames | None => [] end).
  destruct (existsb _ gs) eqn:Hex.
  - apply existsb_id in Hex. destruct (find_id_some _ _ Hex) as (g' & Hfind & Hid).
    split_and!; [by exists g'|done|done|done|done|].
    unfold gs. destruct stored as [parsedGames|]; [|constructor].
    unfold migrate. apply Forall_fmap, Forall_true. intros sg. cbn.
    apply Forall_fmap, Forall_true. intros sc. by eexists.
  - assert (Game.id g ∉ Game.id <$> gs) as Hnin.
    { intros Hin%existsb_id. congruence. }
    cbn [List.find]. rewrite bool_decide_eq_true_2 by done.
    split_and!; [by exists g|done|done|done|done|].
    unfold gs. destruct stored as [parsedGames|]; [|constructor].
    unfold migrate. apply Forall_fmap, Forall_true. intros sg. cbn.
    apply Forall_fmap, Forall_true. intros sc. by eexists.
Qed.

(** X22.  Migration is idempotent: a migrated cell that goes through the
    store and the migration again comes out the same, whether or not the
    store still holds its old [photoUrl].  After migration a cell counts as
    complete exactly when the stored cell had a non-empty [photos] list,
    or no [photos] list and a non-empty [photoUrl]. *)
Theorem migration_is_idempotent (cell : Stored.Cell.t)
    (keptUrl : option string) :
  let c := migrateCell cell in
  migrateCell (Stored.Cell.mk (Cell.id c) (Cell.text c) (Cell.photos c)
                              keptUrl (Cell.completedAt c)) = c
  ∧ (hasPhotos c = true
     ↔ (∃ p ps, Stored.Cell.photos cell = Some (p :: ps))
       ∨ (Stored.Cell.photos cell = None
          ∧ ∃ url, Stored.Cell.photoUrl cell = Some url ∧ url ≠ "")).
Proof.
  intros c. split; [done|].
  unfold c, migrateCell, migratedPhotos, hasPhotos. cbn.
  destruct (Stored.Cell.photos cell) as [[|p ps]|].
  - split; [done|]. intros [(? & ? & ?)|[? _]]; done.
  - split; [|done]. intros _. left. by exists p, ps.
  - destruct (Stored.Cell.photoUrl cell) as [[|a url]|]; cbn.
    + split; [done|]. intros [(? & ? & ?)|[_ (url & [= <-] & ?)]]; done.
    + split; [|done]. intros _. right. split; [done|]. by eexists.
    + split; [done|]. intros [(? & ? & ?)|[_ (url & ? & _)]]; done.
Qed.

(** ** Placeholder tasks *)

(** X23.  The placeholder tasks are pairwise different: the tasks of a
    board created by hand ("Task 1", "Task 2", ...), and the tasks that
    stand in when the provider fails ("Task 1 (topic)", ...). *)
Theorem placeholder_tasks_are_distinct (P : Platform) (form : CreateGameForm)
    (outcome : ProviderOutcome) (params : CreateGameParams)
    (topic : string) (count : Z) :
  handleSubmit form outcome = Some params →
  form_topic form = "" →
  (∃ items, Params.customItems params = Some items ∧ NoDup items)
  ∧ NoDup (fallbackItems topic count).
Proof.
  intros Hsub Htopic. split.
  - unfold handleSubmit in Hsub. rewrite Htopic in Hsub.
    destruct (JS.truthy (form_title form)); cbn in Hsub; [|done].
    injection Hsub as <-. cbn [Params.customItems]. eexists. split; [done|].
    unfold JS.arrayFrom. apply NoDup_fmap_2_strong; [|apply NoDup_seqZ].
    intros i j _ _ Heq.
    apply (Numerals.task_plain_inj (i + 1) (j + 1)) in Heq. lia.
  - unfold fallbackItems, JS.arrayFrom.
    apply NoDup_fmap_2_strong; [|apply NoDup_seqZ].
    intros i j Hi%elem_of_seqZ Hj%elem_of_seqZ Heq.
    apply (Numerals.task_text_inj (i + 1) (j + 1)) in Heq; lia.
Qed.

Lemma placeholder_tasks_are_distinct_witness :
  (handleSubmit (P:=ReferencePlatform.platform) Examples.form3 RequestFailed
   = Some Examples.params3
   ∧ form_topic Examples.form3 = "")
  ∧ NoDup (fallbackItems "Road Trip" 9).
Proof.
  split; [split; reflexivity|].
  exact (proj2 (placeholder_tasks_are_distinct ReferencePlatform.platform
                  Examples.form3 RequestFailed Examples.params3 "Road Trip" 9
                  eq_refl eq_refl)).
Defined.
